(** * notion-py [notion/utils.py]

    A shallow embedding of the functions of the module that compute on
    strings and on decoded JSON: [extract_id], [get_by_path], [to_list],
    [slugify], [add_signed_prefix_as_needed] and
    [remove_signed_prefix_as_needed], together with what they call of
    Python's built-ins and standard library ([str.startswith], [str.split],
    [str.replace], [str.strip], [int], [uuid.UUID], [list.__getitem__],
    [dict.__getitem__], [urllib.parse.quote_plus] and
    [urllib.parse.unquote_plus]).

    Python strings are modelled as lists of characters.  For [extract_id],
    [get_by_path] and [slugify] a character is a code point below 256; for
    the functions on URLs, which encode in UTF-8, a string is a list of code
    points of any size.  A call returns a value or raises; [get_by_path] and
    [to_list] are given twice, over values and over a store of objects with
    references.  The definitions come first, their properties after. *)

From Stdlib Require Import Ascii String List ZArith Lia Bool Arith.
From Equations.Prop Require Import Equations Logic.
From stdpp Require Import gmap.
Import ListNotations.

Local Open Scope string_scope.
Local Open Scope list_scope.

(** ** Strings *)

Definition str := list ascii.

Coercion list_ascii_of_string : string >-> list.

Module PyStr.

(** [s.startswith(p)]. *)
Fixpoint startswith (p s : str) : bool :=
  match p, s with
  | [], _ => true
  | _ :: _, [] => false
  | a :: p', b :: s' => Ascii.eqb a b && startswith p' s'
  end.

(** [s.find(sep)]: the lowest index at which [sep] occurs in [s]. *)
Fixpoint find (sep s : str) : option nat :=
  if startswith sep s then Some 0
  else match s with
       | [] => None
       | _ :: s' => option_map S (find sep s')
       end.

(** [s.rfind(sep)]: the highest index at which [sep] occurs in [s]. *)
Fixpoint rfind (sep s : str) : option nat :=
  match s with
  | [] => if startswith sep [] then Some 0 else None
  | _ :: s' =>
      match rfind sep s' with
      | Some i => Some (S i)
      | None => if startswith sep s then Some 0 else None
      end
  end.

(** [s.split(sep)]: cut [s] at the occurrences of [sep], found from left to
    right without overlap.  Python raises [ValueError] for an empty
    separator; every separator in the source is a non-empty literal, and the
    model returns [[s]] there. *)
Equations? split (sep s : str) : list str by wf (length s) lt :=
  split [] s := [s];
  split (c :: sep) s with inspect (find (c :: sep) s) := {
    | exist _ None _ => [s]
    | exist _ (Some i) H =>
        take i s :: split (c :: sep) (drop (i + length (c :: sep)) s) }.
Proof.
  all: destruct s; [discriminate|rewrite length_drop; simpl; lia].
Qed.

(** [s.replace(old, new)] for a non-empty [old]: every occurrence of [old],
    found from left to right without overlap, is replaced by [new].  With an
    empty [old] Python inserts [new] before every character and at the end. *)
Equations? replace (old new s : str) : str by wf (length s) lt :=
  replace [] new s := new ++ flat_map (fun c => c :: new) s;
  replace (c :: old) new s with inspect (find (c :: old) s) := {
    | exist _ None _ => s
    | exist _ (Some i) H =>
        take i s ++ new ++ replace (c :: old) new (drop (i + length (c :: old)) s) }.
Proof.
  all: destruct s; [discriminate|rewrite length_drop; simpl; lia].
Qed.

Definition mem (c : ascii) (chars : str) : bool :=
  existsb (Ascii.eqb c) chars.

(** [s.lstrip(chars)], [s.rstrip(chars)] and [s.strip(chars)]. *)
Fixpoint lstrip (chars s : str) : str :=
  match s with
  | c :: s' => if mem c chars then lstrip chars s' else s
  | [] => []
  end.

Definition rstrip (chars s : str) : str := rev (lstrip chars (rev s)).

Definition strip (chars s : str) : str := rstrip chars (lstrip chars s).

(** A separator is unbordered when none of its proper non-empty suffixes is
    one of its prefixes: two of its occurrences never overlap. *)
Definition unbordered (sep : str) : bool :=
  forallb (fun k => negb (startswith (drop k sep) sep)) (seq 1 (length sep - 1)).

End PyStr.

(** ** Exceptions and results

    A Python call either returns a value or raises.  Only the exception
    classes that the two functions and their callees can raise are listed;
    all of them are leaf classes, so [except C] catches exactly the
    exceptions of class [C]. *)

Inductive exn_class :=
| CValueError | CKeyError | CTypeError | CIndexError | CInvalidNotionIdentifier.

Inductive exn :=
| ValueError
| KeyError
| TypeError
| IndexError
| InvalidNotionIdentifier (arg : str).

Definition class_of (e : exn) : exn_class :=
  match e with
  | ValueError => CValueError
  | KeyError => CKeyError
  | TypeError => CTypeError
  | IndexError => CIndexError
  | InvalidNotionIdentifier _ => CInvalidNotionIdentifier
  end.

Definition exn_class_eqb (a b : exn_class) : bool :=
  match a, b with
  | CValueError, CValueError | CKeyError, CKeyError | CTypeError, CTypeError
  | CIndexError, CIndexError
  | CInvalidNotionIdentifier, CInvalidNotionIdentifier => true
  | _, _ => false
  end.

Inductive result (A : Type) :=
| Return (a : A)
| Raise (e : exn).
Arguments Return {A} a.
Arguments Raise {A} e.

Definition bind {A B} (r : result A) (k : A -> result B) : result B :=
  match r with
  | Return a => k a
  | Raise e => Raise e
  end.

Notation "x <- r ;; k" := (bind r (fun x => k))
  (at level 100, r at next level, right associativity).

(** [try: body except classes: handler]. *)
Definition try_except {A} (body : result A) (classes : list exn_class)
    (handler : exn -> result A) : result A :=
  match body with
  | Return a => Return a
  | Raise e =>
      if existsb (exn_class_eqb (class_of e)) classes then handler e
      else Raise e
  end.

(** ** [int(s, base)] and ['%0wx' % n] *)

Module PyInt.

Local Open Scope Z_scope.

Definition code (c : ascii) : Z := Z.of_N (N_of_ascii c).

(** The characters [int] skips around the number: C's [isspace] on ASCII,
    and, above ASCII, the Unicode white space that [int] first turns into a
    blank (U+0085 and U+00A0 below 256). *)
Definition is_space (c : ascii) : bool :=
  let n := code c in
  ((9 <=? n) && (n <=? 13)) || (n =? 32) || (n =? 133) || (n =? 160).

(** CPython's [_PyLong_DigitValue]: the value of a digit in bases up to 36,
    and 37 for any other character. *)
Definition digit_value (c : ascii) : Z :=
  let n := code c in
  if (48 <=? n) && (n <=? 57) then n - 48
  else if (97 <=? n) && (n <=? 122) then n - 87
  else if (65 <=? n) && (n <=? 90) then n - 55
  else 37.

Fixpoint skip_space (s : str) : str :=
  match s with
  | c :: s' => if is_space c then skip_space s' else s
  | [] => []
  end.

(** The digit scan: digits of the base, with single underscores between
    them.  Returns the value read, the number of digits and the rest of the
    string; [None] on a doubled or trailing underscore. *)
Fixpoint scan_digits (base : Z) (prev_underscore : bool) (acc : Z) (digits : nat)
    (s : str) : option (Z * nat * str) :=
  match s with
  | c :: s' =>
      if Ascii.eqb c "_" then
        if prev_underscore then None
        else scan_digits base true acc digits s'
      else if digit_value c <? base then
        scan_digits base false (acc * base + digit_value c) (S digits) s'
      else if prev_underscore then None
      else Some (acc, digits, s)
  | [] => if prev_underscore then None else Some (acc, digits, [])
  end.

(** The prefix that [int] accepts for bases 16, 8 and 2, with one optional
    underscore after it. *)
Definition skip_base_prefix (base : Z) (s : str) : str :=
  match s with
  | c0 :: c1 :: s' =>
      if Ascii.eqb c0 "0" &&
         (((base =? 16) && (Ascii.eqb c1 "x" || Ascii.eqb c1 "X")) ||
          ((base =? 8) && (Ascii.eqb c1 "o" || Ascii.eqb c1 "O")) ||
          ((base =? 2) && (Ascii.eqb c1 "b" || Ascii.eqb c1 "B")))
      then match s' with
           | c2 :: s'' => if Ascii.eqb c2 "_" then s'' else s'
           | [] => s'
           end
      else s
  | _ => s
  end.

(** CPython's limit on the number of digits [int] converts
    ([sys.get_int_max_str_digits()], 4300 unless configured); it applies
    to the bases that are not powers of two. *)
Definition max_str_digits : nat := 4300.

Definition binary_base (base : Z) : bool :=
  existsb (Z.eqb base) [2; 4; 8; 16; 32].

Definition too_many_digits (base : Z) (digits : nat) : bool :=
  negb (binary_base base) && (max_str_digits <? digits)%nat.

(** [int(s, base)] for an explicit base between 2 and 36: optional white
    space, an optional sign, an optional base prefix, digits, optional
    white space.  Anything else raises [ValueError]. *)
Definition int (base : Z) (s : str) : result Z :=
  let s := skip_space s in
  let '(sign, s) :=
    match s with
    | c :: s' =>
        if Ascii.eqb c "+" then (1, s')
        else if Ascii.eqb c "-" then (-1, s')
        else (1, s)
    | [] => (1, s)
    end%Z in
  let s := skip_base_prefix base s in
  match s with
  | c :: _ => if Ascii.eqb c "_" then Raise ValueError else
      match scan_digits base false 0 0 s with
      | Some (n, digits, rest) =>
          if (digits =? 0)%nat then Raise ValueError
          else if too_many_digits base digits then Raise ValueError
          else match skip_space rest with
               | [] => Return (sign * n)%Z
               | _ :: _ => Raise ValueError
               end
      | None => Raise ValueError
      end
  | [] => Raise ValueError
  end.

Definition hex_char (d : Z) : ascii :=
  ascii_of_N (Z.to_N (if d <? 10 then 48 + d else 87 + d)%Z).

(** The [w] low hexadecimal digits of [n], most significant first. *)
Fixpoint hex_fixed (w : nat) (n : Z) : str :=
  match w with
  | O => []
  | S w' => hex_fixed w' (n / 16) ++ [hex_char (n mod 16)]
  end.

(** The number of hexadecimal digits of [n >= 0]. *)
Definition hex_len (n : Z) : nat :=
  if n =? 0 then 1%nat else Z.to_nat (Z.log2 n / 4 + 1).

(** ['%0wx' % n] for [n >= 0]: lowercase hexadecimal, padded with zeros to
    at least [w] characters. *)
Definition format_0x (w : nat) (n : Z) : str :=
  hex_fixed (Nat.max w (hex_len n)) n.

End PyInt.

(** ** [uuid.UUID] of the Python standard library

    [UUID(hex)] with no other argument, and [str] of the result.  A UUID is
    represented by its 128-bit integer. *)

Module uuid.

(** [s[a:b]] for [0 <= a <= b]. *)
Definition slice (a b : nat) (s : str) : str := take (b - a) (drop a s).

(** The clean-up [UUID.__init__] applies to [hex] before it is parsed. *)
Definition clean (hex : str) : str :=
  let hex := PyStr.replace "uuid:" "" (PyStr.replace "urn:" "" hex) in
  PyStr.replace "-" "" (PyStr.strip "{}" hex).

Definition UUID (hex : str) : result Z :=
  let hex := clean hex in
  if negb (length hex =? 32)%nat then Raise ValueError
  else
    int_ <- PyInt.int 16 hex ;;
    if negb ((0 <=? int_)%Z && (int_ <? 2 ^ 128)%Z) then Raise ValueError
    else Return int_.

(** [str(u)]: the 32 hexadecimal digits in groups of 8, 4, 4, 4 and 12. *)
Definition to_str (int_ : Z) : str :=
  let hex := PyInt.format_0x 32 int_ in
  slice 0 8 hex ++ "-" ++ slice 8 12 hex ++ "-" ++ slice 12 16 hex ++ "-" ++
  slice 16 20 hex ++ "-" ++ drop 20 hex.

End uuid.

(** ** [extract_id] *)

(** The chain [.split("#")[-1].split("/")[-1].split("&p=")[-1]
    .split("?")[0].split("-")[-1]].  [l[-1]] and [l[0]] are taken on
    results of [split], which are never empty. *)
Definition split_chain (url_or_id : str) : str :=
  let s := List.last (PyStr.split "#" url_or_id) [] in
  let s := List.last (PyStr.split "/" s) [] in
  let s := List.last (PyStr.split "&p=" s) [] in
  let s := List.hd [] (PyStr.split "?" s) in
  List.last (PyStr.split "-" s) [].

Section ExtractId.

(** [notion.settings.BASE_URL], the base URL of the service: a constant of
    the settings module, taken as a parameter. *)
Variable BASE_URL : str.

(** The string handed to [uuid.UUID]: the input itself, or, for an input
    that starts with [BASE_URL], what the chain of splits leaves of it. *)
Definition candidate (url_or_id : str) : str :=
  if PyStr.startswith BASE_URL url_or_id then split_chain url_or_id
  else url_or_id.

Definition extract_id (url_or_id : str) : result str :=
  let original_url_or_id := url_or_id in
  let url_or_id := candidate url_or_id in
  try_except
    (u <- uuid.UUID url_or_id ;; Return (uuid.to_str u))
    [CValueError]
    (fun _ => Raise (InvalidNotionIdentifier original_url_or_id)).

End ExtractId.

(** The base URL of the service, for the examples. *)
Definition notion_so : str := "https://www.notion.so/".

(** ** [get_by_path] on values

    The objects [get_by_path] is meant for: what [json] decoding yields, and
    tuples.  Dictionaries have string keys. *)

#[warnings="-register-all"]
Inductive val :=
| VNone
| VBool (b : bool)
| VInt (n : Z)
| VStr (s : str)
| VList (items : list val)
| VTuple (items : list val)
| VDict (d : gmap str val).

(** A subscript: the path segment itself, or the integer [int(key)]. *)
Inductive key :=
| KStr (s : str)
| KInt (k : Z).

(** A path: a string to be split at dots, or a sequence of segments. *)
Inductive path :=
| PStr (s : str)
| PSeq (keys : list str).

(** [l[k]] on a sequence: a negative [k] counts from the end. *)
Definition seq_getitem {A} (l : list A) (k : Z) : result A :=
  let n := Z.of_nat (length l) in
  let k := if (k <? 0)%Z then (k + n)%Z else k in
  if (0 <=? k)%Z && (k <? n)%Z then
    match l !! Z.to_nat k with
    | Some v => Return v
    | None => Raise IndexError
    end
  else Raise IndexError.

(** [value[key]]. *)
Definition getitem (v : val) (k : key) : result val :=
  match v, k with
  | VList items, KInt i => seq_getitem items i
  | VTuple items, KInt i => seq_getitem items i
  | VStr s, KInt i => c <- seq_getitem s i ;; Return (VStr [c])
  | VDict d, KStr s =>
      match d !! s with
      | Some v' => Return v'
      | None => Raise KeyError
      end
  | VDict _, KInt _ => Raise KeyError
  | VList _, KStr _ | VTuple _, KStr _ | VStr _, KStr _ => Raise TypeError
  | VNone, _ | VBool _, _ | VInt _, _ => Raise TypeError
  end.

Definition isinstance_list (v : val) : bool :=
  match v with VList _ => true | _ => false end.

(** The body of the [try]: the [for] loop over the segments. *)
Fixpoint traverse (keys : list str) (value : val) : result val :=
  match keys with
  | [] => Return value
  | key :: keys' =>
      key <- (if isinstance_list value
              then k <- PyInt.int 10 key ;; Return (KInt k)
              else Return (KStr key)) ;;
      value <- getitem value key ;;
      traverse keys' value
  end.

Definition segments (p : path) : list str :=
  match p with
  | PStr s => PyStr.split "." s
  | PSeq keys => keys
  end.

Definition get_by_path (p : path) (obj default : val) : result val :=
  try_except (traverse (segments p) obj)
    [CKeyError; CTypeError; CIndexError]
    (fun _ => Return default).

Definition dict (l : list (str * val)) : gmap str val := list_to_map l.

(** ** [get_by_path] on a store of objects

    The same function over Python's object store: a reference names an
    object, lists, tuples and dictionaries hold references, and an operation
    takes the store and returns it.  This is the model in which a call can
    be said to leave its arguments as they were. *)

Module Store.

Definition loc := positive.

Inductive object :=
| ONone
| OBool (b : bool)
| OInt (n : Z)
| OStr (s : str)
| OList (items : list loc)
| OTuple (items : list loc)
| ODict (d : gmap str loc).

Abbreviation store := (gmap loc object).

(** A computation over the store that may raise. *)
Definition M (A : Type) : Type := store -> result A * store.

Definition ret {A} (a : A) : M A := fun h => (Return a, h).

Definition raise {A} (e : exn) : M A := fun h => (Raise e, h).

Definition mbind {A B} (m : M A) (k : A -> M B) : M B :=
  fun h =>
    match m h with
    | (Return a, h') => k a h'
    | (Raise e, h') => (Raise e, h')
    end.

Notation "x <~ m ;; k" := (mbind m (fun x => k))
  (at level 100, m at next level, right associativity).

Definition mtry {A} (body : M A) (classes : list exn_class)
    (handler : exn -> M A) : M A :=
  fun h =>
    match body h with
    | (Return a, h') => (Return a, h')
    | (Raise e, h') =>
        if existsb (exn_class_eqb (class_of e)) classes then handler e h'
        else (Raise e, h')
    end.

(** Reading the object a reference names.  Every reference a Python
    program holds names an object; for a reference outside the store the
    model raises [TypeError]. *)
Definition deref (r : loc) : M object :=
  fun h =>
    match h !! r with
    | Some o => (Return o, h)
    | None => (Raise TypeError, h)
    end.

(** Creating an object: the store grows by one fresh reference. *)
Definition alloc (o : object) : M loc :=
  fun h => let r := fresh (dom h) in (Return r, <[r := o]> h).

(** Assigning [target[key] = v]: the one operation here that changes an
    object in place.  [get_by_path] does not call it. *)
Definition setitem (r : loc) (k : key) (v : loc) : M unit :=
  fun h =>
    match h !! r, k with
    | Some (OList items), KInt i =>
        let n := Z.of_nat (length items) in
        let i := if (i <? 0)%Z then (i + n)%Z else i in
        if (0 <=? i)%Z && (i <? n)%Z
        then (Return tt, <[r := OList (<[Z.to_nat i := v]> items)]> h)
        else (Raise IndexError, h)
    | Some (ODict d), KStr s => (Return tt, <[r := ODict (<[s := v]> d)]> h)
    | _, _ => (Raise TypeError, h)
    end.

Definition lift {A} (r : result A) : M A := fun h => (r, h).

(** [value[key]]: indexing a string creates the one-character string it
    returns; every other case only reads. *)
Definition getitem (r : loc) (k : key) : M loc :=
  o <~ deref r ;;
  match o, k with
  | OList items, KInt i => lift (seq_getitem items i)
  | OTuple items, KInt i => lift (seq_getitem items i)
  | OStr s, KInt i => c <~ lift (seq_getitem s i) ;; alloc (OStr [c])
  | ODict d, KStr s =>
      match d !! s with
      | Some r' => ret r'
      | None => raise KeyError
      end
  | ODict _, KInt _ => raise KeyError
  | OList _, KStr _ | OTuple _, KStr _ | OStr _, KStr _ => raise TypeError
  | ONone, _ | OBool _, _ | OInt _, _ => raise TypeError
  end.

Definition isinstance_list (r : loc) : M bool :=
  fun h =>
    (Return (match h !! r with Some (OList _) => true | _ => false end), h).

Fixpoint traverse (keys : list str) (value : loc) : M loc :=
  match keys with
  | [] => ret value
  | key :: keys' =>
      is_list <~ isinstance_list value ;;
      key <~ (if is_list : bool
              then k <~ lift (PyInt.int 10 key) ;; ret (KInt k)
              else ret (KStr key)) ;;
      value <~ getitem value key ;;
      traverse keys' value
  end.

Definition get_by_path (p : path) (obj default : loc) : M loc :=
  mtry (traverse (segments p) obj)
    [CKeyError; CTypeError; CIndexError]
    (fun _ => ret default).

(** [to_list] over the store: a list is returned as it is, anything else
    goes into a new one-element list. *)
Definition to_list (value : loc) : M loc :=
  is_list <~ isinstance_list value ;;
  if is_list : bool then ret value else alloc (OList [value]).

(** What a reference stands for: the value obtained by following the
    references of the store. *)
#[warnings="-register-all"]
Inductive reflects (h : store) : loc -> val -> Prop :=
| reflects_none r : h !! r = Some ONone -> reflects h r VNone
| reflects_bool r b : h !! r = Some (OBool b) -> reflects h r (VBool b)
| reflects_int r n : h !! r = Some (OInt n) -> reflects h r (VInt n)
| reflects_str r s : h !! r = Some (OStr s) -> reflects h r (VStr s)
| reflects_list r items vs :
    h !! r = Some (OList items) -> Forall2 (reflects h) items vs ->
    reflects h r (VList vs)
| reflects_tuple r items vs :
    h !! r = Some (OTuple items) -> Forall2 (reflects h) items vs ->
    reflects h r (VTuple vs)
| reflects_dict r d dv :
    h !! r = Some (ODict d) ->
    (forall k, option_Forall2 (reflects h) (d !! k) (dv !! k)) ->
    reflects h r (VDict dv).

End Store.

(** ** [to_list] *)

(** [value if isinstance(value, list) else [value]]. *)
Definition to_list (value : val) : val :=
  if isinstance_list value then value else VList [value].

(** ** [slugify] *)

Section Slugify.

(** [slugify.slugify] of the python-slugify package, imported as
    [_dash_slugify]: a function from strings to strings, taken as a
    parameter. *)
Variable _dash_slugify : str -> str.

Definition slugify (text : str) : str :=
  PyStr.replace "-" "_" (_dash_slugify text).

End Slugify.

(** ** Strings of any characters

    [extract_id] and [get_by_path] never look at what a character above
    255 is.  The functions on URLs do: quoting encodes a string in UTF-8.
    For them a Python string is a list of code points of any size;
    [of_str] embeds a string of the kind used above. *)

Definition text := list N.

Definition of_str (s : str) : text := map N_of_ascii s.

Module PyText.

(** [s.startswith(p)]. *)
Fixpoint startswith (p s : text) : bool :=
  match p, s with
  | [], _ => true
  | _ :: _, [] => false
  | a :: p', b :: s' => N.eqb a b && startswith p' s'
  end.

(** [s.find(sep)]. *)
Fixpoint find (sep s : text) : option nat :=
  if startswith sep s then Some 0
  else match s with
       | [] => None
       | _ :: s' => option_map S (find sep s')
       end.

(** [s.split(sep)] for a non-empty [sep]; the separators in the source
    are non-empty literals. *)
Equations? split (sep s : text) : list text by wf (length s) lt :=
  split [] s := [s];
  split (c :: sep) s with inspect (find (c :: sep) s) := {
    | exist _ None _ => [s]
    | exist _ (Some i) H =>
        take i s :: split (c :: sep) (drop (i + length (c :: sep)) s) }.
Proof.
  all: destruct s; [discriminate|rewrite length_drop; simpl; lia].
Qed.

(** [s.replace(old, new)]. *)
Equations? replace (old new s : text) : text by wf (length s) lt :=
  replace [] new s := new ++ flat_map (fun c => c :: new) s;
  replace (c :: old) new s with inspect (find (c :: old) s) := {
    | exist _ None _ => s
    | exist _ (Some i) H =>
        take i s ++ new ++ replace (c :: old) new (drop (i + length (c :: old)) s) }.
Proof.
  all: destruct s; [discriminate|rewrite length_drop; simpl; lia].
Qed.

(** [c in chars]. *)
Definition mem (c : N) (chars : text) : bool := existsb (N.eqb c) chars.

End PyText.

(** A call that returns a value or raises an exception of the type [X]:
    the functions on URLs raise exceptions that the functions above do
    not. *)
Inductive outcome (X A : Type) :=
| Returns (a : A)
| Raises (x : X).
Arguments Returns {X A} a.
Arguments Raises {X A} x.

Definition obind {X A B} (r : outcome X A) (k : A -> outcome X B) : outcome X B :=
  match r with
  | Returns a => k a
  | Raises x => Raises x
  end.

Notation "x <-- r ;; k" := (obind r (fun x => k))
  (at level 100, r at next level, right associativity).

(** ** [urllib.parse]: [quote_plus] and [unquote_plus]

    The functions as Python 3.11 defines them, with their default arguments
    ([encoding='utf-8'], [errors='strict'] for quoting and [errors='replace']
    for unquoting), on strings. *)

Module urllib.

Local Open Scope N_scope.

(** The one exception these functions raise on a string.  In Python it is
    a subclass of [ValueError]. *)
Inductive exn := UnicodeEncodeError.

Definition bytes := list ascii.

Definition byte (n : N) : ascii := ascii_of_N n.

Definition is_ascii (c : N) : bool := c <? 128.

Definition is_surrogate (c : N) : bool := (0xD800 <=? c) && (c <? 0xE000).

(** The UTF-8 form of a code point: one byte below U+0080, two below
    U+0800, three below U+10000, four from there on. *)
Definition utf8_bytes (c : N) : bytes :=
  if c <? 0x80 then [byte c]
  else if c <? 0x800 then [byte (0xC0 + c / 64); byte (0x80 + c mod 64)]
  else if c <? 0x10000 then
    [byte (0xE0 + c / 4096); byte (0x80 + (c / 64) mod 64); byte (0x80 + c mod 64)]
  else
    [byte (0xF0 + c / 262144); byte (0x80 + (c / 4096) mod 64);
     byte (0x80 + (c / 64) mod 64); byte (0x80 + c mod 64)].

(** With [errors='strict'] a surrogate is not encoded.  A Python string
    holds no number from 0x110000 on; the model treats one like a
    surrogate. *)
Definition utf8_encode_char (c : N) : outcome exn bytes :=
  if is_surrogate c || (0x110000 <=? c) then Raises UnicodeEncodeError
  else Returns (utf8_bytes c).

(** [s.encode('utf-8')]. *)
Fixpoint utf8_encode (s : text) : outcome exn bytes :=
  match s with
  | [] => Returns []
  | c :: s' =>
      bs <-- utf8_encode_char c ;;
      rest <-- utf8_encode s' ;;
      Returns (bs ++ rest)
  end.

(** U+FFFD, which [errors='replace'] puts in place of a malformed sequence. *)
Definition REPLACEMENT : N := 0xFFFD.

Definition is_continuation (b : N) : bool := (0x80 <=? b) && (b <? 0xC0).

(** [bs.decode('utf-8', 'replace')], after CPython's decoder: a lead byte
    is followed by one, two or three continuation bytes; overlong forms,
    surrogates and code points above U+10FFFF are malformed; a malformed or
    truncated sequence gives one U+FFFD for the bytes read up to the
    offending one, and decoding goes on from there. *)
Fixpoint utf8_decode_replace (bs : bytes) : text :=
  match bs with
  | [] => []
  | c :: rest =>
      let ch := N_of_ascii c in
      if ch <? 0x80 then ch :: utf8_decode_replace rest
      else if ch <? 0xC2 then REPLACEMENT :: utf8_decode_replace rest
      else if ch <? 0xE0 then
        match rest with
        | [] => [REPLACEMENT]
        | c2 :: rest2 =>
            let ch2 := N_of_ascii c2 in
            if is_continuation ch2
            then ((ch - 0xC0) * 64 + (ch2 - 0x80)) :: utf8_decode_replace rest2
            else REPLACEMENT :: utf8_decode_replace rest
        end
      else if ch <? 0xF0 then
        match rest with
        | [] => [REPLACEMENT]
        | c2 :: rest2 =>
            let ch2 := N_of_ascii c2 in
            if negb (is_continuation ch2)
               || (if ch2 <? 0xA0 then ch =? 0xE0 else ch =? 0xED)
            then REPLACEMENT :: utf8_decode_replace rest
            else
              match rest2 with
              | [] => [REPLACEMENT]
              | c3 :: rest3 =>
                  let ch3 := N_of_ascii c3 in
                  if is_continuation ch3
                  then ((ch - 0xE0) * 4096 + (ch2 - 0x80) * 64 + (ch3 - 0x80))
                       :: utf8_decode_replace rest3
                  else REPLACEMENT :: utf8_decode_replace rest2
              end
        end
      else if ch <? 0xF5 then
        match rest with
        | [] => [REPLACEMENT]
        | c2 :: rest2 =>
            let ch2 := N_of_ascii c2 in
            if negb (is_continuation ch2)
               || (if ch2 <? 0x90 then ch =? 0xF0 else ch =? 0xF4)
            then REPLACEMENT :: utf8_decode_replace rest
            else
              match rest2 with
              | [] => [REPLACEMENT]
              | c3 :: rest3 =>
                  let ch3 := N_of_ascii c3 in
                  if negb (is_continuation ch3)
                  then REPLACEMENT :: utf8_decode_replace rest2
                  else
                    match rest3 with
                    | [] => [REPLACEMENT]
                    | c4 :: rest4 =>
                        let ch4 := N_of_ascii c4 in
                        if is_continuation ch4
                        then ((ch - 0xF0) * 262144 + (ch2 - 0x80) * 4096
                              + (ch3 - 0x80) * 64 + (ch4 - 0x80))
                             :: utf8_decode_replace rest4
                        else REPLACEMENT :: utf8_decode_replace rest3
                    end
              end
        end
      else REPLACEMENT :: utf8_decode_replace rest
  end.

Definition _ALWAYS_SAFE : bytes :=
  "ABCDEFGHIJKLMNOPQRSTUVWXYZabcdefghijklmnopqrstuvwxyz0123456789_.-~".

Definition upper_hex_char (d : N) : ascii :=
  ascii_of_N (if d <? 10 then 48 + d else 55 + d).

(** ['%{:02X}'.format(b)]. *)
Definition percent_02X (b : ascii) : str :=
  let n := N_of_ascii b in
  "%"%char :: [upper_hex_char (n / 16); upper_hex_char (n mod 16)].

(** [_Quoter(safe).__getitem__]: [chr(b)] for a safe byte, ['%XX']
    for any other. *)
Definition quoter (safe : bytes) (b : ascii) : text :=
  if PyStr.mem b (_ALWAYS_SAFE ++ safe) then [N_of_ascii b]
  else of_str (percent_02X b).

(** [quote_from_bytes(bs, safe)] for a string [safe], of which the ASCII
    characters count.  Bytes that are all safe are ASCII: decoding them
    gives the same characters. *)
Definition quote_from_bytes (bs : bytes) (safe : text) : text :=
  match bs with
  | [] => []
  | _ :: _ =>
      let safe := map byte (List.filter is_ascii safe) in
      match PyStr.rstrip (_ALWAYS_SAFE ++ safe) bs with
      | [] => of_str bs
      | _ :: _ => flat_map (quoter safe) bs
      end
  end.

(** [quote(string, safe)] on a string. *)
Definition quote (string safe : text) : outcome exn text :=
  match string with
  | [] => Returns string
  | _ :: _ =>
      bs <-- utf8_encode string ;;
      Returns (quote_from_bytes bs safe)
  end.

(** [quote_plus(string)]. *)
Definition quote_plus (string : text) : outcome exn text :=
  if negb (PyText.mem 32 string) then quote string (of_str "")
  else
    string <-- quote string (of_str "" ++ of_str " ") ;;
    Returns (PyText.replace (of_str " ") (of_str "+") string).

Definition _hexdig : str := "0123456789ABCDEFabcdef".

(** The table [_hextobyte]: its keys are the pairs of characters of
    [_hexdig]. *)
Definition _hextobyte (k : bytes) : option ascii :=
  match k with
  | [a; b] =>
      if PyStr.mem a _hexdig && PyStr.mem b _hexdig
      then Some (ascii_of_N (Z.to_N (PyInt.digit_value a * 16 + PyInt.digit_value b)))
      else None
  | _ => None
  end.

(** One turn of the loop of [unquote_to_bytes]: [append(_hextobyte[item[:2]]);
    append(item[2:])], or [append(b'%'); append(item)] on [KeyError]. *)
Definition unquote_item (item : bytes) : bytes :=
  match _hextobyte (take 2 item) with
  | Some b => b :: drop 2 item
  | None => "%"%char :: item
  end.

(** [unquote_to_bytes(string)] on a string. *)
Definition unquote_to_bytes (string : text) : outcome exn bytes :=
  match string with
  | [] => Returns []
  | _ :: _ =>
      string <-- utf8_encode string ;;
      Returns
        match PyStr.split "%" string with
        | [] | [_] => string
        | bit :: bits => bit ++ flat_map unquote_item bits
        end
  end.

(** [_asciire.split(string)] for [_asciire = re.compile('([\x00-\x7f]+)')]:
    the runs of characters from 128 on and the runs of ASCII characters in
    turn, starting and ending with a run of the first kind, which may be
    empty. *)
Fixpoint _asciire_split (string : text) : list text :=
  match string with
  | [] => [[]]
  | c :: string' =>
      match _asciire_split string' with
      | [] :: run :: bits =>
          if is_ascii c then [] :: (c :: run) :: bits
          else [c] :: run :: bits
      | bit :: bits =>
          if is_ascii c then [] :: [c] :: bit :: bits
          else (c :: bit) :: bits
      | [] => []
      end
  end.

(** The loop of [unquote] over [bits[1:]], two at a time. *)
Fixpoint unquote_bits (bits : list text) : outcome exn text :=
  match bits with
  | run :: bit :: bits' =>
      bs <-- unquote_to_bytes run ;;
      rest <-- unquote_bits bits' ;;
      Returns (utf8_decode_replace bs ++ bit ++ rest)
  | _ => Returns []
  end.

(** [unquote(string)] on a string. *)
Definition unquote (string : text) : outcome exn text :=
  if negb (PyText.mem 37 string) then Returns string
  else
    match _asciire_split string with
    | bit :: bits =>
        rest <-- unquote_bits bits ;;
        Returns (bit ++ rest)
    | [] => Returns []
    end.

(** [unquote_plus(string)]. *)
Definition unquote_plus (string : text) : outcome exn text :=
  unquote (PyText.replace (of_str "+") (of_str " ") string).

End urllib.

(** ** [add_signed_prefix_as_needed] and [remove_signed_prefix_as_needed] *)

Section SignedUrl.

(** [notion.settings.S3_URL_PREFIX] and [notion.settings.SIGNED_URL_PREFIX]:
    constants of the settings module, taken as parameters. *)
Variable S3_URL_PREFIX SIGNED_URL_PREFIX : text.

(** The exceptions that a request of the client may raise: those of the
    [requests] package and of what lies below it, taken as a parameter. *)
Variable request_exn : Type.

(** A client is used for one thing: [client.session.head(url)
    .headers.get("Location")].  The request raises, or it is answered, and
    then the result is the [Location] header of the answer, or [None]
    when the answer has none.  A client is modelled by that function of
    the URL.  In [if client:] a client is true and [None] is false. *)
Definition client := text -> outcome request_exn (option text).

(** What [add_signed_prefix_as_needed] raises: the [ValueError] of an
    unpacking with not enough or too many values, the exception of
    [quote_plus], and what the request of the client raises. *)
Inductive url_exn :=
| UnpackValueError
| QuoteError (e : urllib.exn)
| RequestError (e : request_exn).

(** The result is a string, or [None] when a client finds no [Location]
    header. *)
Definition add_signed_prefix_as_needed (url : text) (client : option client)
    : outcome url_exn (option text) :=
  match url with
  | [] => Returns (Some [])
  | _ :: _ =>
      if PyText.startswith S3_URL_PREFIX url then
        match PyText.split (of_str "?") url with
        | [path; query] =>
            match urllib.quote_plus path with
            | Raises e => Raises (QuoteError e)
            | Returns quoted =>
                let url := SIGNED_URL_PREFIX ++ quoted ++ of_str "?" ++ query in
                match client with
                | Some head_location =>
                    match head_location url with
                    | Raises e => Raises (RequestError e)
                    | Returns location => Returns location
                    end
                | None => Returns (Some url)
                end
            end
        | _ => Raises UnpackValueError
        end
      else Returns (Some url)
  end.

(** [url or ""]. *)
Definition or_empty (url : text) : text :=
  match url with
  | [] => []
  | _ :: _ => url
  end.

(** [remove_signed_prefix_as_needed(url)] on a string. *)
Definition remove_signed_prefix_as_needed (url : text) : outcome urllib.exn text :=
  if PyText.startswith SIGNED_URL_PREFIX url
  then
    url <-- urllib.unquote_plus (drop (length S3_URL_PREFIX) url) ;;
    Returns (or_empty url)
  else Returns (or_empty url).

End SignedUrl.

Arguments UnpackValueError {request_exn}.
Arguments QuoteError {request_exn} e.
Arguments RequestError {request_exn} e.
Arguments add_signed_prefix_as_needed S3_URL_PREFIX SIGNED_URL_PREFIX {request_exn}
  url client.

(** ** Vocabulary for the quoting functions *)

Module Quoting.

Local Open Scope N_scope.

(** The number of occurrences of [c] in [s]. *)
Definition occurrences (c : N) (s : text) : nat :=
  length (List.filter (N.eqb c) s).

(** A Unicode scalar value: a code point that is not a surrogate.  These
    are the characters that UTF-8 encodes. *)
Definition is_scalar (c : N) : bool :=
  negb (urllib.is_surrogate c) && (c <? 0x110000).

(** What [quote_plus] writes for one character: [+] for a blank, the
    character itself when it is always safe, and otherwise [%XX] for each
    byte of its UTF-8 form. *)
Definition quoted_char (c : N) : text :=
  if c =? 32 then of_str "+"
  else flat_map (urllib.quoter []) (urllib.utf8_bytes c).

(** The characters of a quoted string. *)
Definition quoted_chars : text := of_str (urllib._ALWAYS_SAFE ++ "%+").

Definition plus_to_blank (c : N) : N := if 43 =? c then 32 else c.

(** [unquote_to_bytes] after its encoding step, on bytes. *)
Definition unquote_bytes (bs : urllib.bytes) : urllib.bytes :=
  match PyStr.split "%" bs with
  | [] | [_] => bs
  | bit :: bits => bit ++ flat_map urllib.unquote_item bits
  end.

(** The loop of [unquote] on runs of ASCII characters, which are their own
    UTF-8 form. *)
Fixpoint unquote_ascii_bits (bits : list text) : text :=
  match bits with
  | run :: bit :: bits' =>
      urllib.utf8_decode_replace (unquote_bytes (map urllib.byte run))
      ++ bit ++ unquote_ascii_bits bits'
  | _ => []
  end.

(** [unquote] without its shortcut for a string that holds no [%]. *)
Definition unquote_runs (string : text) : text :=
  match urllib._asciire_split string with
  | bit :: bits => bit ++ unquote_ascii_bits bits
  | [] => []
  end.

(** The runs that the loop of [unquote] unquotes, the first of every two,
    hold ASCII characters only. *)
Fixpoint ascii_runs (bits : list text) : bool :=
  match bits with
  | run :: _ :: bits' => forallb urllib.is_ascii run && ascii_runs bits'
  | _ => true
  end.

End Quoting.

(** ** The specification's vocabulary *)

Module Spec.

(** The substring after the last occurrence of [sep]; all of [s] when
    [sep] does not occur. *)
Definition after_last (sep s : str) : str :=
  match PyStr.rfind sep s with
  | Some i => drop (i + length sep) s
  | None => s
  end.

(** The substring before the first occurrence of [sep]; all of [s] when
    [sep] does not occur. *)
Definition before_first (sep s : str) : str :=
  match PyStr.find sep s with
  | Some i => take i s
  | None => s
  end.

(** The transforms of the specification, in its order: after the last [#],
    after the last [/], after the last [&p=], before the first [?], after
    the last [-]. *)
Definition url_transform (s : str) : str :=
  after_last "-"
    (before_first "?"
      (after_last "&p=" (after_last "/" (after_last "#" s)))).

Definition is_lower_hex (c : ascii) : bool :=
  let n := PyInt.code c in
  (((48 <=? n) && (n <=? 57)) || ((97 <=? n) && (n <=? 102)))%Z.

Definition is_dash (c : ascii) : bool := Ascii.eqb c "-".

(** A string of lowercase hexadecimal digits, and the number it denotes. *)
Definition lower_hex (s : str) : Prop :=
  Forall (fun c => is_lower_hex c = true) s.

(** The characters that [int], [UUID] and the splits of [extract_id] treat
    specially; none of them is a hexadecimal digit. *)
Definition special : str := "_+-xX{}u:#/&p=? ".

(** [x] and [sep] share no character. *)
Definition disjoint (x sep : str) : Prop := forall c, In c x -> ~ In c sep.

(** A string of the characters of a canonical identifier. *)
Definition canon_chars (s : str) : Prop :=
  Forall (fun c => is_lower_hex c || is_dash c = true) s.

Definition hex_step (a : Z) (c : ascii) : Z :=
  (a * 16 + PyInt.digit_value c)%Z.

Definition hex_value (s : str) : Z := fold_left hex_step s 0%Z.

(** The canonical form of an identifier: 36 characters, lowercase
    hexadecimal digits in groups of 8, 4, 4, 4 and 12 with a dash between
    the groups. *)
Definition is_canonical (s : str) : bool :=
  (length s =? 36)%nat &&
  forallb (fun '(i, c) =>
             if existsb (Nat.eqb i) [8; 13; 18; 23] then is_dash c
             else is_lower_hex c)
          (combine (seq 0 36) s).

(** The identifier without its dashes, as the service's URLs carry it. *)
Definition undashed (s : str) : str := List.filter (fun c => negb (is_dash c)) s.

(** The URL shapes of the specification, around the text [ident] that
    stands for the identifier: a page URL ending in [/ident], a block link
    ending in [#ident], a legacy link ending in [&p=ident], and a slug
    ending in [-ident].  A slug lies in the path of the URL, before any
    query string. *)
Inductive url_shape (ident : str) : str -> Prop :=
| PlainPage p : url_shape ident (p ++ "/" ++ ident)
| BlockFragment p : url_shape ident (p ++ "#" ++ ident)
| LegacyParam p : url_shape ident (p ++ "&p=" ++ ident)
| HyphenSlug p :
    ~ In "?"%char p -> url_shape ident (p ++ "-" ++ ident).

(** A string with its ASCII letters in lower case. *)
Definition lower_char (c : ascii) : ascii :=
  let n := N_of_ascii c in
  if ((65 <=? n) && (n <=? 90))%N then ascii_of_N (n + 32) else c.

Definition lower (s : str) : str := map lower_char s.

End Spec.

(** * Properties *)

Module PyStrFacts.

Import PyStr.

Lemma startswith_app p r : startswith p (p ++ r) = true.
Proof.
  induction p as [|a p IH]; simpl; [done|].
  by rewrite Ascii.eqb_refl, IH.
Qed.

Lemma startswith_inv p s : startswith p s = true -> s = p ++ drop (length p) s.
Proof.
  revert s. induction p as [|a p IH]; intros [|b s]; simpl; try done.
  intros [Hab Hps]%andb_prop. apply Ascii.eqb_eq in Hab. subst b.
  f_equal. by apply IH.
Qed.

Lemma startswith_length p s : startswith p s = true -> length p <= length s.
Proof.
  intros H%startswith_inv. rewrite H, length_app. lia.
Qed.

Lemma startswith_nil_r p : p <> [] -> startswith p [] = false.
Proof. by destruct p. Qed.

Lemma find_Some sep s i :
  find sep s = Some i ->
  startswith sep (drop i s) = true /\ i <= length s /\
  forall j, j < i -> startswith sep (drop j s) = false.
Proof.
  revert i. induction s as [|c s IH]; intros i; simpl.
  - destruct (startswith sep []) eqn:E; [|done].
    intros [= <-]. split_and!; [done..|lia].
  - destruct (startswith sep (c :: s)) eqn:E.
    + intros [= <-]. split_and!; [done|lia|lia].
    + destruct (find sep s) as [k|]; simpl; [|done].
      intros [= <-]. destruct (IH k eq_refl) as (H1 & H2 & H3).
      split_and!; [done|lia|].
      intros [|j] Hj; simpl; [done|]. apply H3. lia.
Qed.

Lemma find_None sep s j : find sep s = None -> startswith sep (drop j s) = false.
Proof.
  revert j. induction s as [|c s IH]; intros j; simpl.
  - destruct (startswith sep []) eqn:E; [done|]. by rewrite drop_nil.
  - destruct (startswith sep (c :: s)) eqn:E; [done|].
    destruct (find sep s) as [k|] eqn:F; simpl; [done|].
    intros _. destruct j as [|j]; simpl; [done|]. by apply IH.
Qed.

Lemma find_bound sep s i : find sep s = Some i -> i + length sep <= length s.
Proof.
  intros (H & Hi & _)%find_Some. apply startswith_length in H.
  rewrite length_drop in H. lia.
Qed.

Lemma rfind_None sep s j : rfind sep s = None -> startswith sep (drop j s) = false.
Proof.
  revert j. induction s as [|c s IH]; intros j; simpl.
  - destruct (startswith sep []) eqn:E; [done|]. by rewrite drop_nil.
  - destruct (rfind sep s) as [k|] eqn:F; [done|].
    destruct (startswith sep (c :: s)) eqn:E; [done|].
    intros _. destruct j as [|j]; simpl; [done|]. by apply IH.
Qed.

Lemma rfind_Some sep s i :
  rfind sep s = Some i ->
  startswith sep (drop i s) = true /\ i <= length s /\
  forall j, i < j -> j <= length s -> startswith sep (drop j s) = false.
Proof.
  revert i. induction s as [|c s IH]; intros i; simpl.
  - destruct (startswith sep []) eqn:E; [|done].
    intros [= <-]. split_and!; [done..|lia].
  - destruct (rfind sep s) as [k|] eqn:F.
    + intros [= <-]. destruct (IH k eq_refl) as (H1 & H2 & H3).
      split_and!; [done|lia|].
      intros [|j] Hj Hl; simpl; [lia|]. apply H3; lia.
    + destruct (startswith sep (c :: s)) eqn:E; [|done].
      intros [= <-]. split_and!; [done|lia|].
      intros [|j] Hj Hl; simpl; [lia|]. by apply rfind_None.
Qed.

(** [rfind] is determined by its specification. *)
Lemma rfind_intro sep s i :
  startswith sep (drop i s) = true -> i <= length s ->
  (forall j, i < j -> j <= length s -> startswith sep (drop j s) = false) ->
  rfind sep s = Some i.
Proof.
  intros Hi Hle Hlast. destruct (rfind sep s) as [k|] eqn:F.
  - destruct (rfind_Some _ _ _ F) as (H1 & H2 & H3).
    destruct (Nat.lt_trichotomy i k) as [Hlt|[->|Hgt]]; [|done|].
    + rewrite (Hlast k) in H1 by lia. done.
    + rewrite (H3 i) in Hi by lia. done.
  - by rewrite (rfind_None _ _ i F) in Hi.
Qed.

Example split_dotted : split "." "a.b.c" = [("a" : str); ("b" : str); ("c" : str)].
Proof. reflexivity. Qed.

Example split_empty : split "." "" = [("" : str)].
Proof. reflexivity. Qed.

Example split_overlap : split "aa" "aaa" = [("" : str); ("a" : str)].
Proof. reflexivity. Qed.

Example replace_ex : replace "urn:" "" "urn:uuid:12" = ("uuid:12" : str).
Proof. reflexivity. Qed.

Example strip_ex : strip "{}" "{{ab}c}" = ("ab}c" : str).
Proof. reflexivity. Qed.

(** The defining equations of [split] and [replace], without the proof
    terms that the termination argument carries. *)
Lemma split_eq sep s :
  sep <> [] ->
  split sep s =
  match find sep s with
  | None => [s]
  | Some i => take i s :: split sep (drop (i + length sep) s)
  end.
Proof.
  intros Hsep. funelim (split sep s); [done|..];
    match goal with E : find _ _ = _ |- _ => by rewrite E end.
Qed.

Lemma replace_eq old new s :
  old <> [] ->
  replace old new s =
  match find old s with
  | None => s
  | Some i => take i s ++ new ++ replace old new (drop (i + length old) s)
  end.
Proof.
  intros Hold. funelim (replace old new s); [done|..];
    match goal with E : find _ _ = _ |- _ => by rewrite E end.
Qed.

Lemma split_nonempty sep s : split sep s <> [].
Proof.
  destruct sep as [|c sep]; [by simp split|].
  rewrite split_eq by done. by destruct (find _ _).
Qed.

Lemma hd_split sep s :
  sep <> [] ->
  List.hd [] (split sep s) =
  match find sep s with Some i => take i s | None => s end.
Proof.
  intros Hsep. rewrite split_eq by done. by destruct (find sep s).
Qed.

Lemma unbordered_spec sep k :
  unbordered sep = true -> 0 < k < length sep ->
  startswith (drop k sep) sep = false.
Proof.
  unfold unbordered. rewrite forallb_forall. intros H Hk.
  apply negb_true_iff, H, in_seq. lia.
Qed.

Lemma startswith_app_short sep x r :
  startswith sep (x ++ r) = true -> length x <= length sep ->
  startswith x sep = true.
Proof.
  revert sep. induction x as [|a x IH]; intros [|b sep]; simpl; try done; try lia.
  intros [Hab H]%andb_prop Hl. apply Ascii.eqb_eq in Hab. subst.
  rewrite Ascii.eqb_refl. simpl. apply (IH sep); [done|lia].
Qed.

Lemma no_overlap sep s k :
  unbordered sep = true -> startswith sep s = true -> 0 < k < length sep ->
  startswith sep (drop k s) = false.
Proof.
  intros Hu Hs Hk. apply startswith_inv in Hs.
  destruct (startswith sep (drop k s)) eqn:E; [|done].
  rewrite Hs, drop_app_le in E by lia.
  apply startswith_app_short in E; [|rewrite length_drop; lia].
  by rewrite unbordered_spec in E.
Qed.

Lemma last_split sep s :
  sep <> [] -> unbordered sep = true ->
  List.last (split sep s) [] =
  match rfind sep s with Some i => drop (i + length sep) s | None => s end.
Proof.
  intros Hsep Hu.
  induction (Nat.lt_wf_0_projected length s) as [s _ IH].
  rewrite split_eq by done. destruct (find sep s) as [i|] eqn:F.
  - destruct (find_Some _ _ _ F) as (Hi & Hle & _).
    pose proof (find_bound _ _ _ F) as Hb.
    set (r := drop (i + length sep) s).
    assert (length r < length s) as Hr.
    { unfold r. rewrite length_drop. destruct sep; [done|simpl in *; lia]. }
    transitivity (List.last (split sep r) []).
    { pose proof (split_nonempty sep r). by destruct (split sep r). }
    rewrite (IH r Hr). destruct (rfind sep r) as [j|] eqn:R.
    + destruct (rfind_Some _ _ _ R) as (Hj & Hjle & Hlast).
      unfold r in Hj, Hjle, Hlast. rewrite drop_drop in Hj.
      rewrite length_drop in Hjle.
      rewrite (rfind_intro sep s (i + length sep + j)).
      * unfold r. rewrite drop_drop. f_equal. lia.
      * done.
      * lia.
      * intros k Hk Hkl.
        specialize (Hlast (k - (i + length sep))).
        rewrite drop_drop, length_drop in Hlast.
        replace (i + length sep + (k - (i + length sep))) with k in Hlast by lia.
        apply Hlast; lia.
    + rewrite (rfind_intro sep s i); [done..|].
      intros k Hk Hkl. destruct (decide (k < i + length sep)).
      * replace k with (i + (k - i)) by lia. rewrite <- drop_drop.
        apply no_overlap; [done..|lia].
      * replace k with (i + length sep + (k - (i + length sep))) by lia.
        rewrite <- drop_drop. by apply rfind_None.
  - simpl. destruct (rfind sep s) as [k|] eqn:R; [|done].
    apply rfind_Some in R as (R & _). by rewrite (find_None _ _ k) in R.
Qed.

(** *** Characters that do not occur *)

Lemma startswith_hd_notin c sep s : ~ In c s -> startswith (c :: sep) s = false.
Proof.
  destruct s as [|b s]; simpl; [done|]. intros Hn.
  destruct (Ascii.eqb c b) eqn:E; [|done].
  apply Ascii.eqb_eq in E. subst. tauto.
Qed.

Lemma find_notin c sep s : ~ In c s -> find (c :: sep) s = None.
Proof.
  induction s as [|b s IH]; intros Hn; [done|].
  cbn [find]. rewrite startswith_hd_notin by done.
  rewrite IH; [done|]. intros Hin. apply Hn. by right.
Qed.

Lemma replace_notin c old new s : ~ In c s -> replace (c :: old) new s = s.
Proof. intros Hn. rewrite replace_eq by done. by rewrite find_notin. Qed.

(** Removing a character with [replace] is a filter. *)
Lemma replace_char_cons c x s :
  replace [c] [] (x :: s) =
  if Ascii.eqb c x then replace [c] [] s else x :: replace [c] [] s.
Proof.
  rewrite (replace_eq [c] [] (x :: s)) by done. cbn [find startswith].
  destruct (Ascii.eqb c x); simpl; [done|].
  rewrite (replace_eq [c] [] s) by done.
  by destruct (find [c] s).
Qed.

Lemma replace_char_filter c s :
  replace [c] [] s = List.filter (fun x => negb (Ascii.eqb x c)) s.
Proof.
  induction s as [|x s IH]; [by rewrite replace_eq|].
  rewrite replace_char_cons. simpl. rewrite (Ascii.eqb_sym x c).
  destruct (Ascii.eqb c x); simpl; by rewrite IH.
Qed.

Lemma lstrip_id chars s :
  Forall (fun c => mem c chars = false) s -> lstrip chars s = s.
Proof. intros [|c s' Hc _]; simpl; [done|]. by rewrite Hc. Qed.

Lemma strip_id chars s :
  Forall (fun c => mem c chars = false) s -> strip chars s = s.
Proof.
  intros H. unfold strip, rstrip. rewrite (lstrip_id chars s H).
  rewrite lstrip_id; [apply rev_involutive|]. by apply List.Forall_rev.
Qed.

End PyStrFacts.

Module PyIntFacts.

Import PyInt.

Local Open Scope Z_scope.

Example int_dec : int 10 " +1_000 " = Return 1000%Z.
Proof. reflexivity. Qed.

Example int_neg : int 10 "-1" = Return (-1)%Z.
Proof. reflexivity. Qed.

Example int_hex : int 16 "0xfF" = Return 255%Z.
Proof. reflexivity. Qed.

Example int_empty : int 10 "" = Raise ValueError.
Proof. reflexivity. Qed.

Example int_bad : int 10 "1__0" = Raise ValueError /\ int 10 "x" = Raise ValueError
  /\ int 10 "1_" = Raise ValueError /\ int 10 "_1" = Raise ValueError
  /\ int 10 "0x10" = Raise ValueError /\ int 16 "0x" = Raise ValueError.
Proof. repeat split; reflexivity. Qed.

Example int_limit :
  too_many_digits 10 4301 = true /\ too_many_digits 10 4300 = false
  /\ too_many_digits 16 4301 = false.
Proof. repeat split; reflexivity. Qed.

Example format_ex : format_0x 4 255 = ("00ff" : str) /\ format_0x 2 4096 = ("1000" : str).
Proof. split; reflexivity. Qed.

End PyIntFacts.

Example uuid_dashed :
  uuid.UUID "01234567-89AB-cdef-0123-456789abcdef"
  = Return 0x0123456789abcdef0123456789abcdef%Z.
Proof. reflexivity. Qed.

Example uuid_to_str :
  uuid.to_str 0x0123456789abcdef0123456789abcdef
  = ("01234567-89ab-cdef-0123-456789abcdef" : str).
Proof. reflexivity. Qed.

Example uuid_short : uuid.UUID "456789abcdef" = Raise ValueError.
Proof. reflexivity. Qed.

Example extract_plain :
  extract_id notion_so "https://www.notion.so/0123456789abcdef0123456789abcdef"
  = Return ("01234567-89ab-cdef-0123-456789abcdef" : str).
Proof. reflexivity. Qed.

Example extract_slug_block :
  extract_id notion_so
    "https://www.notion.so/ws/My-Page-0123456789abcdef0123456789abcdef#ffffffffffffffffffffffffffffffff"
  = Return ("ffffffff-ffff-ffff-ffff-ffffffffffff" : str).
Proof. reflexivity. Qed.

Example extract_legacy :
  extract_id notion_so
    "https://www.notion.so/ws/aaaaaaaaaaaaaaaaaaaaaaaaaaaaaaaa?v=bbbbbbbbbbbbbbbbbbbbbbbbbbbbbbbb&p=0123456789abcdef0123456789abcdef"
  = Return ("01234567-89ab-cdef-0123-456789abcdef" : str).
Proof. reflexivity. Qed.

Example extract_bad :
  extract_id notion_so "https://www.notion.so/foo-bar"
  = Raise (InvalidNotionIdentifier "https://www.notion.so/foo-bar").
Proof. reflexivity. Qed.

Example path_abc :
  get_by_path (PStr "a.b.c")
    (VDict (dict [("a" : str, VDict (dict [("b" : str, VDict (dict [("c" : str, VInt 42)]))]))]))
    VNone
  = Return (VInt 42).
Proof. vm_compute. reflexivity. Qed.

Example path_missing :
  get_by_path (PStr "a.b.c")
    (VDict (dict [("a" : str, VDict (dict [("b" : str, VDict (dict []))]))]))
    (VStr "X")
  = Return (VStr "X").
Proof. vm_compute. reflexivity. Qed.

Example path_items :
  get_by_path (PSeq [("items" : str); ("0" : str); ("name" : str)])
    (VDict (dict [("items" : str, VList [VDict (dict [("name" : str, VStr "first")])])]))
    VNone
  = Return (VStr "first").
Proof. vm_compute. reflexivity. Qed.

Example path_index :
  get_by_path (PStr "items.1")
    (VDict (dict [("items" : str, VList [VInt 10; VInt 20; VInt 30])])) VNone
  = Return (VInt 20)
  /\ get_by_path (PStr "items.99")
       (VDict (dict [("items" : str, VList [VInt 10])])) VNone
     = Return VNone.
Proof. split; vm_compute; reflexivity. Qed.

(** ** [get_by_path]: which exceptions leave the [try] *)

Section PathFacts.

Implicit Types (keys : list str) (obj default : val) (items : list val).

Lemma int_raises base s e : PyInt.int base s = Raise e -> e = ValueError.
Proof.
  unfold PyInt.int. repeat case_match; congruence.
Qed.

Lemma seq_getitem_raises {A} (l : list A) k e :
  seq_getitem l k = Raise e -> e = IndexError.
Proof. unfold seq_getitem. repeat case_match; congruence. Qed.

Lemma getitem_raises v k e :
  getitem v k = Raise e -> e = KeyError \/ e = TypeError \/ e = IndexError.
Proof.
  destruct v as [| b | n | s | items | items | d], k as [ks | ki]; simpl;
    try (intros [= <-]; tauto).
  - destruct (seq_getitem s ki) eqn:E; simpl; [done|].
    intros [= <-]. apply seq_getitem_raises in E. tauto.
  - intros E%seq_getitem_raises. tauto.
  - intros E%seq_getitem_raises. tauto.
  - case_match; intros [= <-]; tauto.
Qed.

(** In range, [l[k]] is the element at [k], or at [len(l) + k] for a
    negative [k]; out of range it raises [IndexError]. *)
Lemma seq_getitem_spec {A} (l : list A) (k : Z) :
  let n := Z.of_nat (length l) in
  if ((- n <=? k) && (k <? n))%Z then
    exists v, l !! Z.to_nat (if (k <? 0)%Z then n + k else k)%Z = Some v /\
              seq_getitem l k = Return v
  else seq_getitem l k = Raise IndexError.
Proof.
  intros n. unfold seq_getitem. fold n.
  destruct (k <? 0)%Z eqn:Hneg; [apply Z.ltb_lt in Hneg|apply Z.ltb_ge in Hneg].
  - destruct (- n <=? k)%Z eqn:Hlo; simpl.
    + apply Z.leb_le in Hlo.
      replace (k <? n)%Z with true by (symmetry; apply Z.ltb_lt; lia).
      replace (0 <=? k + n)%Z with true by (symmetry; apply Z.leb_le; lia).
      replace (k + n <? n)%Z with true by (symmetry; apply Z.ltb_lt; lia).
      simpl. replace (n + k)%Z with (k + n)%Z by lia.
      destruct (lookup_lt_is_Some_2 l (Z.to_nat (k + n))) as [v Hv]; [lia|].
      exists v. by rewrite Hv.
    + apply Z.leb_gt in Hlo.
      replace (0 <=? k + n)%Z with false by (symmetry; apply Z.leb_gt; lia).
      done.
  - replace (- n <=? k)%Z with true by (symmetry; apply Z.leb_le; lia).
    replace (0 <=? k)%Z with true by (symmetry; apply Z.leb_le; lia).
    simpl. destruct (k <? n)%Z eqn:Hhi; [|done].
    apply Z.ltb_lt in Hhi.
    destruct (lookup_lt_is_Some_2 l (Z.to_nat k)) as [v Hv]; [lia|].
    exists v. by rewrite Hv.
Qed.

Lemma traverse_raises keys obj e :
  traverse keys obj = Raise e ->
  e = ValueError \/ e = KeyError \/ e = TypeError \/ e = IndexError.
Proof.
  revert obj. induction keys as [|key keys IH]; intros obj; simpl; [done|].
  destruct (isinstance_list obj).
  - destruct (PyInt.int 10 key) as [k|e'] eqn:Hint; simpl.
    + destruct (getitem obj (KInt k)) as [v|e'] eqn:Hget; simpl.
      * apply IH.
      * intros [= <-]. apply getitem_raises in Hget. tauto.
    + intros [= <-]. apply int_raises in Hint. tauto.
  - simpl. destruct (getitem obj (KStr key)) as [v|e'] eqn:Hget; simpl.
    + apply IH.
    + intros [= <-]. apply getitem_raises in Hget. tauto.
Qed.

(** The only exception that leaves [get_by_path] is the [ValueError] of
    [int(key)], which the [except] clause does not list. *)
Lemma get_by_path_raises p obj default e :
  get_by_path p obj default = Raise e -> e = ValueError.
Proof.
  unfold get_by_path, try_except.
  destruct (traverse (segments p) obj) as [v|e'] eqn:Ht; [done|].
  apply traverse_raises in Ht as [-> | [-> | [-> | ->]]]; simpl; congruence.
Qed.

(** One step of the loop at a list: the segment goes through [int], and
    the result indexes the list. *)
Lemma traverse_list_step key keys items :
  traverse (key :: keys) (VList items) =
  (k <- PyInt.int 10 key ;; v <- seq_getitem items k ;; traverse keys v).
Proof. simpl. by destruct (PyInt.int 10 key). Qed.

End PathFacts.

(** ** [get_by_path]: the claims *)

(** C1 (the resolver never raises, an unparseable index included): at the
    list [[1]] the segment [x] goes through [int], whose [ValueError] is not
    among the exceptions the [except] clause lists, and the call raises it
    instead of returning the default. *)
Theorem get_by_path_unparseable_index_raises :
  get_by_path (PStr "x") (VList [VInt 1]) VNone = Raise ValueError.
Proof. reflexivity. Qed.

(** C2, as stated, fails: at the list [[10, 20, 30]] the segment [-1] does
    not parse as a non-negative integer, yet the call returns the last
    element and not the default. *)
Lemma negative_index_counts_from_end :
  PyInt.int 10 "-1" = Return (-1)%Z /\
  get_by_path (PSeq [("-1" : str)]) (VList [VInt 10; VInt 20; VInt 30]) VNone
  = Return (VInt 30) /\
  get_by_path (PSeq [("-1" : str)]) (VList [VInt 10; VInt 20; VInt 30]) VNone
  <> Return VNone.
Proof. split_and!; [reflexivity..|discriminate]. Qed.

(** C2, amended: at a list node, a segment that [int] parses as [k] is used
    as a Python index.  With [n] the length of the list, [0 <= k < n]
    selects element [k], [-n <= k < 0] selects element [n + k], and the
    traversal goes on from it; any other [k] gives the default. *)
Theorem list_segment_is_python_index seg k keys items default :
  PyInt.int 10 seg = Return k ->
  let n := Z.of_nat (length items) in
  get_by_path (PSeq (seg :: keys)) (VList items) default =
  if ((- n <=? k) && (k <? n))%Z then
    match items !! Z.to_nat (if (k <? 0)%Z then n + k else k)%Z with
    | Some v => get_by_path (PSeq keys) v default
    | None => Return default
    end
  else Return default.
Proof.
  intros Hint n. unfold get_by_path. cbn [segments].
  rewrite traverse_list_step, Hint. cbn [bind].
  pose proof (seq_getitem_spec items k) as Hspec. cbv zeta in Hspec. fold n in Hspec.
  destruct ((- n <=? k) && (k <? n))%Z.
  - destruct Hspec as (v & -> & ->). done.
  - by rewrite Hspec.
Qed.

Lemma list_segment_is_python_index_witness :
  get_by_path (PSeq [("-2" : str); ("a" : str)])
    (VList [VInt 10; VDict (dict [("a" : str, VInt 7)]); VInt 30]) VNone
  = get_by_path (PSeq [("a" : str)]) (VDict (dict [("a" : str, VInt 7)])) VNone.
Proof.
  exact (list_segment_is_python_index "-2" (-2) [("a" : str)]
           [VInt 10; VDict (dict [("a" : str, VInt 7)]); VInt 30] VNone eq_refl).
Defined.

(** C7, as stated, fails: a dictionary that has the key [""] resolves the
    empty path string to the value under that key, not to the default. *)
Lemma empty_path_string_finds_empty_key :
  get_by_path (PStr "") (VDict (dict [("" : str, VInt 5)])) VNone
  = Return (VInt 5) /\
  get_by_path (PStr "") (VDict (dict [("" : str, VInt 5)])) VNone
  <> Return VNone.
Proof. split; [vm_compute; reflexivity|vm_compute; discriminate]. Qed.

(** C7, amended: the empty path string is the single segment [""], looked
    up as a key.  A dictionary yields the value under [""] when it has that
    key and the default otherwise; a target that is neither a list nor a
    dictionary yields the default.  (A list target is left aside here.) *)
Theorem empty_path_string_is_key_lookup obj default :
  segments (PStr "") = [[]] /\
  match obj with
  | VList _ => True
  | VDict d =>
      get_by_path (PStr "") obj default =
      Return (match d !! ([] : str) with Some v => v | None => default end)
  | _ => get_by_path (PStr "") obj default = Return default
  end.
Proof.
  split; [reflexivity|].
  destruct obj as [| b | n | s | items | items | d]; try reflexivity.
  unfold get_by_path. change (segments (PStr "")) with [([] : str)].
  cbn [traverse isinstance_list bind getitem].
  by destruct (d !! ([] : str)).
Qed.

(** C9, as stated, fails in its second half: the empty path string does
    not always give the default.  On a dictionary that has the key [""] the
    empty sequence gives the dictionary and the empty string gives the value
    under [""]; neither is the default. *)
Lemma empty_path_string_differs_without_default :
  get_by_path (PSeq []) (VDict (dict [("" : str, VInt 7)])) (VInt 0)
  = Return (VDict (dict [("" : str, VInt 7)])) /\
  get_by_path (PStr "") (VDict (dict [("" : str, VInt 7)])) (VInt 0)
  = Return (VInt 7) /\
  get_by_path (PStr "") (VDict (dict [("" : str, VInt 7)])) (VInt 0)
  <> Return (VInt 0).
Proof.
  split_and!; [vm_compute; reflexivity|vm_compute; reflexivity|vm_compute; discriminate].
Qed.

(** C9, amended: with an empty sequence of segments the loop body never
    runs and the target itself is returned, whatever the target and the
    default.  The empty path string is not an empty sequence: it is the one
    segment [""], and the call does what the call with that one segment
    does.  It looks [""] up as a key: a dictionary yields the value under
    [""] when it has that key and the default otherwise, and a target that
    is neither a list nor a dictionary yields the default.  (A list target
    is left aside here.) *)
Theorem empty_sequence_is_the_target_empty_string_is_a_key obj default :
  get_by_path (PSeq []) obj default = Return obj /\
  segments (PSeq []) = [] /\ segments (PStr "") = [[]] /\
  get_by_path (PStr "") obj default = get_by_path (PSeq [[]]) obj default /\
  match obj with
  | VList _ => True
  | VDict d =>
      get_by_path (PStr "") obj default =
      Return (match d !! ([] : str) with Some v => v | None => default end)
  | _ => get_by_path (PStr "") obj default = Return default
  end.
Proof.
  split_and!; try reflexivity.
  destruct obj as [| b | n | s | items | items | d]; try reflexivity.
  unfold get_by_path. change (segments (PStr "")) with [([] : str)].
  cbn [traverse isinstance_list bind getitem].
  by destruct (d !! ([] : str)).
Qed.

(** ** [get_by_path] on the store *)

Module StoreFacts.

Import Store (object, ONone, OBool, OInt, OStr, OList, OTuple, ODict).

(** The model can tell a call that changes its argument from one that does
    not: assigning to an element changes the store, and so does indexing a
    string, which creates an object. *)
Example setitem_changes_store :
  let h : Store.store := {[ 1%positive := OList [2%positive]; 2%positive := ONone ]} in
  (Store.setitem 1%positive (KInt 0) 1%positive h).2 !! 1%positive
  = Some (OList [1%positive]) /\
  (Store.setitem 1%positive (KInt 0) 1%positive h).2 <> h.
Proof.
  split; [vm_compute; reflexivity|].
  intros E. apply (f_equal (fun m => m !! 1%positive)) in E.
  vm_compute in E. discriminate.
Qed.

Example string_index_allocates :
  let h : Store.store := {[ 1%positive := OStr "ab" ]} in
  (Store.getitem 1%positive (KInt 0) h).2 <> h.
Proof.
  intros h E. apply (f_equal (fun m => m !! 2%positive)) in E.
  vm_compute in E. discriminate.
Qed.

Lemma getitem_str_key_frame r s h : (Store.getitem r (KStr s) h).2 = h.
Proof.
  unfold Store.getitem, Store.mbind, Store.deref.
  destruct (h !! r) as [o|]; [|done].
  destruct o; try done. by destruct (d !! s).
Qed.

Lemma getitem_list_frame r k items h :
  h !! r = Some (OList items) -> (Store.getitem r (KInt k) h).2 = h.
Proof.
  intros Hr. unfold Store.getitem, Store.mbind, Store.deref. by rewrite Hr.
Qed.

Lemma traverse_frame keys value h : (Store.traverse keys value h).2 = h.
Proof.
  revert value. induction keys as [|key keys IH]; intros value; [done|].
  cbn [Store.traverse]. unfold Store.mbind at 1. unfold Store.isinstance_list.
  destruct (h !! value) as [o|] eqn:Hv.
  - destruct o as [| b | n | s | items | items | d];
      try (unfold Store.mbind, Store.ret;
           pose proof (getitem_str_key_frame value key h) as Hf;
           destruct (Store.getitem value (KStr key) h) as [[r|e] h'];
           simpl in Hf; subst h'; [apply IH|done]).
    unfold Store.mbind, Store.lift, Store.ret.
    destruct (PyInt.int 10 key) as [k|e]; [|done].
    pose proof (getitem_list_frame value k items h Hv) as Hf.
    destruct (Store.getitem value (KInt k) h) as [[r|e] h'];
      simpl in Hf; subst h'; [apply IH|done].
  - unfold Store.mbind, Store.ret.
    pose proof (getitem_str_key_frame value key h) as Hf.
    destruct (Store.getitem value (KStr key) h) as [[r|e] h'];
      simpl in Hf; subst h'; [apply IH|done].
Qed.

(** The two embeddings agree: on a store whose references stand for
    values, the traversal over the store does what the traversal over the
    values does. *)
Lemma seq_getitem_Forall2 {A B} (R : A -> B -> Prop) l1 l2 k :
  Forall2 R l1 l2 ->
  match seq_getitem l1 k, seq_getitem l2 k with
  | Return a, Return b => R a b
  | Raise e1, Raise e2 => e1 = e2
  | _, _ => False
  end.
Proof.
  intros HF. unfold seq_getitem. rewrite <- (Forall2_length _ _ _ HF).
  set (i := Z.to_nat _). destruct (_ && _); [|done].
  destruct (l1 !! i) as [a|] eqn:Ha.
  - destruct (Forall2_lookup_l _ _ _ _ _ HF Ha) as (b & Hb & HR). by rewrite Hb.
  - destruct (l2 !! i) as [b|] eqn:Hb; [|done].
    destruct (Forall2_lookup_r _ _ _ _ _ HF Hb) as (a & Ha' & _). congruence.
Qed.

Lemma isinstance_list_reflects h r v :
  Store.reflects h r v ->
  Store.isinstance_list r h = (Return (isinstance_list v), h).
Proof.
  unfold Store.isinstance_list.
  intros [r' Hr|r' b Hr|r' n Hr|r' s Hr|r' items vs Hr HF|r' items vs Hr HF|r' d dv Hr Hd];
    by rewrite Hr.
Qed.

Lemma traverse_reflects h keys r v :
  Store.reflects h r v ->
  match (Store.traverse keys r h).1 with
  | Return r' => exists v', traverse keys v = Return v' /\ Store.reflects h r' v'
  | Raise e => traverse keys v = Raise e
  end.
Proof.
  revert r v. induction keys as [|key keys IH]; intros r v Hr; [by exists v|].
  cbn [Store.traverse traverse]. unfold Store.mbind at 1.
  rewrite (isinstance_list_reflects _ _ _ Hr).
  destruct Hr as [r Hr|r b Hr|r n Hr|r s Hr|r items vs Hr HF|r items vs Hr HF|r d dv Hr Hd];
    cbn [isinstance_list];
    unfold Store.getitem, Store.deref, Store.mbind, Store.ret, Store.lift,
      Store.raise;
    rewrite ?Hr; cbn [bind getitem]; try done.
  - destruct (PyInt.int 10 key) as [k|e]; [|by cbn].
    rewrite Hr. cbn [bind getitem].
    pose proof (seq_getitem_Forall2 _ _ _ k HF) as Hk.
    destruct (seq_getitem items k) as [r'|e], (seq_getitem vs k) as [v'|e'];
      try done; [|by subst; cbn].
    cbn [bind]. by apply IH.
  - specialize (Hd key). destruct Hd as [r' v' Hrv|]; [|by cbn].
    cbn [bind]. by apply IH.
Qed.

Lemma get_by_path_reflects h p obj default v dv :
  Store.reflects h obj v -> Store.reflects h default dv ->
  match (Store.get_by_path p obj default h).1 with
  | Return r => exists v', get_by_path p v dv = Return v' /\ Store.reflects h r v'
  | Raise e => get_by_path p v dv = Raise e
  end.
Proof.
  intros Hobj Hdef. unfold Store.get_by_path, Store.mtry, get_by_path, try_except.
  pose proof (traverse_reflects h (segments p) obj v Hobj) as Ht.
  destruct (Store.traverse (segments p) obj h) as [[r|e] h']; cbn [fst] in Ht.
  - destruct Ht as (v' & -> & Hr). by exists v'.
  - rewrite Ht. destruct (existsb _ _); [by exists dv|done].
Qed.

End StoreFacts.

(** C8: a call of [get_by_path] leaves the store, and with it the target,
    as it was: the store after the call is the store before it, whether the
    call returns a resolved value, returns the default or raises. *)
Theorem get_by_path_leaves_store_unchanged p (obj default : Store.loc)
    (h : Store.store) :
  (Store.get_by_path p obj default h).2 = h.
Proof.
  unfold Store.get_by_path, Store.mtry.
  pose proof (StoreFacts.traverse_frame (segments p) obj h) as Hf.
  destruct (Store.traverse (segments p) obj h) as [[r|e] h'];
    simpl in Hf; subst h'; [done|].
  by destruct (existsb _ _).
Qed.

(** ** [extract_id]: the transforms and the error *)

Section ExtractIdFacts.

Variable BASE_URL : str.

Lemma UUID_raises hex e : uuid.UUID hex = Raise e -> e = ValueError.
Proof.
  unfold uuid.UUID. destruct (negb _); [congruence|].
  destruct (PyInt.int 16 (uuid.clean hex)) as [n|e'] eqn:Hint; simpl.
  - destruct (negb _); congruence.
  - intros [= <-]. by apply int_raises in Hint.
Qed.

(** [extract_id] in terms of the parse of the candidate string. *)
Lemma extract_id_cases url_or_id :
  extract_id BASE_URL url_or_id =
  match uuid.UUID (candidate BASE_URL url_or_id) with
  | Return u => Return (uuid.to_str u)
  | Raise _ => Raise (InvalidNotionIdentifier url_or_id)
  end.
Proof.
  unfold extract_id.
  destruct (uuid.UUID (candidate BASE_URL url_or_id)) as [u|e] eqn:HU; [done|].
  apply UUID_raises in HU as ->. reflexivity.
Qed.

End ExtractIdFacts.

(** The chain of splits, in the vocabulary of the specification. *)
Lemma split_chain_transform s : split_chain s = Spec.url_transform s.
Proof.
  unfold split_chain, Spec.url_transform, Spec.after_last, Spec.before_first.
  cbv zeta. rewrite !PyStrFacts.last_split, PyStrFacts.hd_split by done.
  reflexivity.
Qed.



(** C4: when the parse of the candidate string fails, [extract_id] raises
    [InvalidNotionIdentifier], and no other exception, with the string it
    was called with as argument, whatever the splits made of it; when the
    parse succeeds it returns.  So any exception that leaves [extract_id]
    is [InvalidNotionIdentifier] of the original input. *)
Theorem extract_id_raises_invalid_identifier_of_input BASE_URL url_or_id :
  match uuid.UUID (candidate BASE_URL url_or_id) with
  | Raise _ =>
      extract_id BASE_URL url_or_id = Raise (InvalidNotionIdentifier url_or_id)
  | Return u => extract_id BASE_URL url_or_id = Return (uuid.to_str u)
  end /\
  forall e, extract_id BASE_URL url_or_id = Raise e ->
            e = InvalidNotionIdentifier url_or_id.
Proof.
  rewrite extract_id_cases.
  destruct (uuid.UUID (candidate BASE_URL url_or_id)); split; congruence.
Qed.

(** ** Characters *)

Module CharFacts.

(** Case analysis on the 256 characters. *)
Ltac ascii_cases c :=
  destruct c as [[|] [|] [|] [|] [|] [|] [|] [|]].

Lemma lower_hex_digit c :
  Spec.is_lower_hex c = true ->
  (0 <= PyInt.digit_value c < 16)%Z /\
  PyInt.hex_char (PyInt.digit_value c) = c.
Proof.
  ascii_cases c; intros H; vm_compute in H; try discriminate H;
    (split; [vm_compute; split; congruence|reflexivity]).
Qed.

(** A lowercase hexadecimal digit is none of the characters that [int],
    [UUID] and the splits of [extract_id] treat specially. *)
Lemma lower_hex_not_special c :
  Spec.is_lower_hex c = true -> PyStr.mem c Spec.special = false.
Proof.
  ascii_cases c; intros H; vm_compute in H; try discriminate H; reflexivity.
Qed.

Lemma lower_hex_not_space c :
  Spec.is_lower_hex c = true -> PyInt.is_space c = false.
Proof.
  ascii_cases c; intros H; vm_compute in H; try discriminate H; reflexivity.
Qed.

Lemma mem_In c chars : PyStr.mem c chars = true <-> In c chars.
Proof.
  unfold PyStr.mem. rewrite existsb_exists. split.
  - intros (x & Hx & Heq). apply Ascii.eqb_eq in Heq. by subst.
  - intros H. exists c. split; [done|apply Ascii.eqb_refl].
Qed.

End CharFacts.

(** ** Hexadecimal strings: [int(s, 16)] and ['%032x'] are inverse *)

Module HexFacts.

Import PyInt.
Local Open Scope Z_scope.

Lemma mem_false_eqb c x chars :
  PyStr.mem c chars = false -> In x chars -> Ascii.eqb c x = false.
Proof.
  intros Hm Hin. destruct (Ascii.eqb c x) eqn:E; [|done].
  apply Ascii.eqb_eq in E. subst x. apply CharFacts.mem_In in Hin. congruence.
Qed.

Lemma lower_hex_neq c x :
  Spec.is_lower_hex c = true -> In x Spec.special -> Ascii.eqb c x = false.
Proof.
  intros H. apply mem_false_eqb. by apply CharFacts.lower_hex_not_special.
Qed.

(** Solves [Ascii.eqb c x = false] for a hexadecimal digit [c] and a
    special character [x]. *)
Ltac hex_neq :=
  match goal with
  | H : Spec.is_lower_hex ?c = true |- Ascii.eqb ?c ?x = false =>
      apply (lower_hex_neq c x H); vm_compute; tauto
  end.

Local Abbreviation step := Spec.hex_step.

Lemma scan_digits_hex s acc n :
  Spec.lower_hex s ->
  scan_digits 16 false acc n s = Some (fold_left step s acc, (n + length s)%nat, []).
Proof.
  intros Hs. revert acc n. induction Hs as [|c s Hc _ IH]; intros acc n.
  - simpl. by rewrite Nat.add_0_r.
  - cbn [scan_digits fold_left length].
    replace (Ascii.eqb c "_") with false by (symmetry; hex_neq).
    destruct (CharFacts.lower_hex_digit c Hc) as [[_ Hlt] _].
    replace (digit_value c <? 16) with true by (symmetry; by apply Z.ltb_lt).
    rewrite IH. by rewrite Nat.add_succ_r.
Qed.

Lemma skip_base_prefix_hex s : Spec.lower_hex s -> skip_base_prefix 16 s = s.
Proof.
  intros Hs. destruct Hs as [|c0 s0 Hc0 Hs0]; [done|].
  destruct Hs0 as [|c1 s1 Hc1 Hs1]; [done|].
  unfold skip_base_prefix.
  replace (Ascii.eqb c1 "x") with false by (symmetry; hex_neq).
  replace (Ascii.eqb c1 "X") with false by (symmetry; hex_neq).
  by rewrite !andb_false_r.
Qed.

Lemma int16_hex s :
  Spec.lower_hex s -> s <> [] -> int 16 s = Return (Spec.hex_value s).
Proof.
  intros Hs Hne. unfold int.
  destruct s as [|c s']; [done|].
  pose proof (Forall_inv Hs) as Hc. cbv beta in Hc.
  cbn [skip_space]. rewrite (CharFacts.lower_hex_not_space c Hc).
  replace (Ascii.eqb c "+") with false by (symmetry; hex_neq).
  replace (Ascii.eqb c "-") with false by (symmetry; hex_neq).
  rewrite (skip_base_prefix_hex _ Hs).
  replace (Ascii.eqb c "_") with false by (symmetry; hex_neq).
  rewrite (scan_digits_hex _ 0 0%nat Hs). cbn [length Nat.add Nat.eqb skip_space].
  change (too_many_digits 16 (S (length s'))) with false. cbv iota.
  f_equal. unfold Spec.hex_value.
  destruct (fold_left step (c :: s') 0); reflexivity.
Qed.

Lemma fold_step_bounds s acc :
  Spec.lower_hex s -> 0 <= acc ->
  acc * 16 ^ Z.of_nat (length s) <= fold_left step s acc
  < (acc + 1) * 16 ^ Z.of_nat (length s).
Proof.
  intros Hs. revert acc. induction Hs as [|c s Hc _ IH]; intros acc Hacc.
  - simpl. lia.
  - destruct (CharFacts.lower_hex_digit c Hc) as [[Hlo Hhi] _].
    cbn [fold_left length]. rewrite Nat2Z.inj_succ, Z.pow_succ_r by lia.
    assert (0 <= step acc c) as Hstep by (unfold Spec.hex_step; lia).
    specialize (IH (step acc c) Hstep).
    assert (0 < 16 ^ Z.of_nat (length s)) as Hpos by (apply Z.pow_pos_nonneg; lia).
    set (P := 16 ^ Z.of_nat (length s)) in *.
    set (F := fold_left step s (step acc c)) in *.
    assert (step acc c * P = acc * (16 * P) + digit_value c * P) as E1
      by (unfold Spec.hex_step; ring).
    assert ((step acc c + 1) * P = acc * (16 * P) + (digit_value c + 1) * P) as E2
      by (unfold Spec.hex_step; ring).
    assert (0 <= digit_value c * P) by (apply Z.mul_nonneg_nonneg; lia).
    assert ((digit_value c + 1) * P <= 16 * P)
      by (apply Z.mul_le_mono_nonneg_r; lia).
    lia.
Qed.

Lemma hex_value_bounds s :
  Spec.lower_hex s -> 0 <= Spec.hex_value s < 16 ^ Z.of_nat (length s).
Proof.
  intros Hs. pose proof (fold_step_bounds s 0 Hs ltac:(lia)) as H.
  unfold Spec.hex_value. lia.
Qed.

Lemma hex_value_snoc s c :
  Spec.hex_value (s ++ [c]) = Spec.hex_value s * 16 + digit_value c.
Proof. unfold Spec.hex_value. by rewrite fold_left_app. Qed.

Lemma hex_fixed_value s :
  Spec.lower_hex s -> hex_fixed (length s) (Spec.hex_value s) = s.
Proof.
  induction s as [|c s IH] using rev_ind; intros Hs; [done|].
  apply Forall_app in Hs as [Hs Hc]. apply Forall_inv in Hc. cbv beta in Hc.
  destruct (CharFacts.lower_hex_digit c Hc) as [Hd Hchar].
  rewrite length_app, Nat.add_1_r, hex_value_snoc. cbn [hex_fixed].
  replace ((Spec.hex_value s * 16 + digit_value c) / 16) with (Spec.hex_value s)
    by (apply (Z.div_unique _ 16 _ (digit_value c)); lia).
  replace ((Spec.hex_value s * 16 + digit_value c) mod 16) with (digit_value c)
    by (apply (Z.mod_unique _ 16 (Spec.hex_value s)); lia).
  by rewrite IH, Hchar.
Qed.

Lemma hex_len_le n w :
  0 <= n < 16 ^ Z.of_nat w -> (0 < w)%nat -> (hex_len n <= w)%nat.
Proof.
  intros [Hlo Hhi] Hw. unfold hex_len.
  destruct (n =? 0) eqn:E; [lia|]. apply Z.eqb_neq in E.
  assert (Z.log2 n < 4 * Z.of_nat w) as Hlog.
  { apply Z.log2_lt_pow2; [lia|].
    replace (2 ^ (4 * Z.of_nat w)) with (16 ^ Z.of_nat w); [done|].
    change 16 with (2 ^ 4). rewrite <- Z.pow_mul_r by lia. done. }
  pose proof (Z.log2_nonneg n).
  assert (Z.log2 n / 4 < Z.of_nat w) by (apply Z.div_lt_upper_bound; lia).
  pose proof (Z.div_pos (Z.log2 n) 4). lia.
Qed.

(** Formatting the value of 32 lowercase digits gives the digits back. *)
Lemma format_hex_value s :
  Spec.lower_hex s -> length s = 32%nat -> format_0x 32 (Spec.hex_value s) = s.
Proof.
  intros Hs Hlen. unfold format_0x.
  pose proof (hex_value_bounds s Hs) as Hb. rewrite Hlen in Hb.
  pose proof (hex_len_le (Spec.hex_value s) 32 Hb ltac:(lia)) as Hl.
  rewrite Nat.max_l by done. rewrite <- Hlen. by apply hex_fixed_value.
Qed.

End HexFacts.

(** ** Canonical identifiers and [uuid.UUID] *)

Module UuidFacts.

(** A canonical identifier is five groups of lowercase hexadecimal digits
    with dashes between them. *)
Lemma canonical_inv i :
  Spec.is_canonical i = true ->
  exists a b c d e,
    i = a ++ "-"%char :: b ++ "-"%char :: c ++ "-"%char :: d ++ "-"%char :: e /\
    (length a = 8 /\ length b = 4 /\ length c = 4 /\ length d = 4 /\
     length e = 12) /\
    Spec.lower_hex a /\ Spec.lower_hex b /\ Spec.lower_hex c /\
    Spec.lower_hex d /\ Spec.lower_hex e.
Proof.
  unfold Spec.is_canonical. intros [Hlen Hall]%andb_prop.
  apply Nat.eqb_eq in Hlen.
  do 36 (destruct i as [|? i]; [discriminate Hlen|]).
  destruct i; [|discriminate Hlen]. clear Hlen.
  cbn -[Spec.is_lower_hex Spec.is_dash] in Hall.
  repeat match goal with
         | H : _ && _ = true |- _ => apply andb_prop in H as [? ?]
         end.
  repeat match goal with
         | H : Spec.is_dash _ = true |- _ => apply Ascii.eqb_eq in H; subst
         end.
  eexists [_; _; _; _; _; _; _; _], [_; _; _; _], [_; _; _; _], [_; _; _; _],
    [_; _; _; _; _; _; _; _; _; _; _; _].
  split; [reflexivity|]. split; [done|].
  unfold Spec.lower_hex. repeat split; repeat constructor; assumption.
Qed.

Local Abbreviation canon_chars := Spec.canon_chars.

Lemma canon_char_plain c :
  Spec.is_lower_hex c || Spec.is_dash c = true -> PyStr.mem c "{}u" = false.
Proof.
  CharFacts.ascii_cases c; intros H; vm_compute in H; try discriminate H;
    reflexivity.
Qed.

Lemma lower_hex_canon s : Spec.lower_hex s -> canon_chars s.
Proof.
  intros H. eapply Forall_impl; [exact H|]. intros c Hc. cbv beta in *.
  by rewrite Hc.
Qed.

Lemma canonical_chars i : Spec.is_canonical i = true -> canon_chars i.
Proof.
  intros (a & b & c & d & e & -> & _ & Ha & Hb & Hc & Hd & He)%canonical_inv.
  unfold Spec.canon_chars.
  repeat first [apply Forall_app; split | apply Forall_cons; split];
    try reflexivity; by apply lower_hex_canon.
Qed.

Lemma canon_chars_no_u s : canon_chars s -> ~ In "u"%char s.
Proof.
  intros Hs Hin. apply List.Forall_forall with (x := "u"%char) in Hs; [|done].
  vm_compute in Hs. discriminate.
Qed.

Lemma canon_chars_no_brace s :
  canon_chars s -> Forall (fun c => PyStr.mem c "{}" = false) s.
Proof.
  intros H. eapply Forall_impl; [exact H|]. intros c Hc. cbv beta in *.
  apply canon_char_plain in Hc.
  unfold PyStr.mem in *. cbn [existsb list_ascii_of_string] in *.
  apply orb_false_iff in Hc as [H1 Hc]. apply orb_false_iff in Hc as [H2 _].
  by rewrite H1, H2.
Qed.

Lemma undashed_lower_hex s : Spec.lower_hex s -> Spec.undashed s = s.
Proof.
  intros Hs. unfold Spec.undashed. induction Hs as [|c s Hc _ IH]; [done|].
  simpl. rewrite IH. unfold Spec.is_dash.
  replace (Ascii.eqb c "-") with false; [done|].
  symmetry. apply (HexFacts.lower_hex_neq c _ Hc). vm_compute. tauto.
Qed.

(** On the characters of a canonical identifier, the clean-up of [UUID]
    only removes the dashes. *)
Lemma clean_canon_chars s : canon_chars s -> uuid.clean s = Spec.undashed s.
Proof.
  intros Hs. unfold uuid.clean.
  pose proof (canon_chars_no_u s Hs) as Hu.
  change (list_ascii_of_string "urn:") with ("u"%char :: list_ascii_of_string "rn:").
  change (list_ascii_of_string "uuid:") with ("u"%char :: list_ascii_of_string "uid:").
  do 2 rewrite (PyStrFacts.replace_notin _ _ _ s Hu).
  rewrite PyStrFacts.strip_id by by apply canon_chars_no_brace.
  apply PyStrFacts.replace_char_filter.
Qed.

Lemma undashed_app x y :
  Spec.undashed (x ++ y) = Spec.undashed x ++ Spec.undashed y.
Proof. apply List.filter_app. Qed.

Lemma undashed_dash y : Spec.undashed ("-"%char :: y) = Spec.undashed y.
Proof. reflexivity. Qed.

(** [UUID] on a string that cleans up to 32 lowercase digits. *)
Lemma UUID_of_clean s h :
  uuid.clean s = h -> Spec.lower_hex h -> length h = 32 ->
  uuid.UUID s = Return (Spec.hex_value h).
Proof.
  intros Hclean Hh Hlen. unfold uuid.UUID. rewrite Hclean, Hlen. cbn [Nat.eqb negb].
  rewrite HexFacts.int16_hex; [|done|by destruct h].
  cbn [bind]. pose proof (HexFacts.hex_value_bounds h Hh) as Hb.
  rewrite Hlen in Hb. change (16 ^ Z.of_nat 32)%Z with (2 ^ 128)%Z in Hb.
  replace (0 <=? Spec.hex_value h)%Z with true by (symmetry; apply Z.leb_le; lia).
  replace (Spec.hex_value h <? 2 ^ 128)%Z with true by (symmetry; apply Z.ltb_lt; lia).
  reflexivity.
Qed.

(** The digits of a canonical identifier, and [str] of their value. *)
Lemma canonical_undashed i :
  Spec.is_canonical i = true ->
  Spec.lower_hex (Spec.undashed i) /\ length (Spec.undashed i) = 32 /\
  uuid.to_str (Spec.hex_value (Spec.undashed i)) = i.
Proof.
  intros (a & b & c & d & e & -> & (La & Lb & Lc & Ld & Le) &
          Ha & Hb & Hc & Hd & He)%canonical_inv.
  assert (Spec.undashed
            (a ++ "-"%char :: b ++ "-"%char :: c ++ "-"%char :: d ++ "-"%char :: e)
          = a ++ b ++ c ++ d ++ e) as ->.
  { repeat first [rewrite undashed_app | rewrite undashed_dash].
    by rewrite !undashed_lower_hex. }
  assert (Spec.lower_hex (a ++ b ++ c ++ d ++ e)) as Hall.
  { unfold Spec.lower_hex. by rewrite !Forall_app. }
  assert (length (a ++ b ++ c ++ d ++ e) = 32) as Hlen.
  { rewrite !length_app. lia. }
  split_and!; [done..|].
  unfold uuid.to_str. rewrite HexFacts.format_hex_value by done.
  clear Ha Hb Hc Hd He Hall Hlen.
  do 8 (destruct a as [|? a]; [discriminate La|]).
  do 4 (destruct b as [|? b]; [discriminate Lb|]).
  do 4 (destruct c as [|? c]; [discriminate Lc|]).
  do 4 (destruct d as [|? d]; [discriminate Ld|]).
  destruct a, b, c, d; try discriminate. reflexivity.
Qed.

(** *** The other spellings [UUID] accepts *)

Lemma find_skip sep c s :
  PyStr.startswith sep (c :: s) = false ->
  PyStr.find sep (c :: s) = option_map S (PyStr.find sep s).
Proof. intros H. cbn [PyStr.find]. by rewrite H. Qed.

Lemma clean_urn s :
  canon_chars s -> uuid.clean ("urn:uuid:" ++ s) = Spec.undashed s.
Proof.
  intros Hs. rewrite <- (clean_canon_chars s Hs). unfold uuid.clean.
  pose proof (canon_chars_no_u s Hs) as Hu.
  assert (PyStr.replace "urn:" "" ("urn:uuid:" ++ s) = "uuid:" ++ s) as ->.
  { rewrite PyStrFacts.replace_eq by done.
    assert (PyStr.find "urn:" ("urn:uuid:" ++ s) = Some 0) as -> by reflexivity.
    cbn [take drop Nat.add length list_ascii_of_string app].
    rewrite PyStrFacts.replace_eq by done.
    do 5 (rewrite find_skip by reflexivity).
    change (list_ascii_of_string "urn:") with ("u"%char :: list_ascii_of_string "rn:").
    by rewrite PyStrFacts.find_notin. }
  assert (PyStr.replace "uuid:" "" ("uuid:" ++ s) = s) as ->.
  { rewrite PyStrFacts.replace_eq by done.
    assert (PyStr.find "uuid:" ("uuid:" ++ s) = Some 0) as -> by reflexivity.
    cbn [take drop Nat.add length list_ascii_of_string app].
    change (list_ascii_of_string "uuid:") with ("u"%char :: list_ascii_of_string "uid:").
    by apply PyStrFacts.replace_notin. }
  change (list_ascii_of_string "urn:") with ("u"%char :: list_ascii_of_string "rn:").
  change (list_ascii_of_string "uuid:") with ("u"%char :: list_ascii_of_string "uid:").
  by do 2 rewrite (PyStrFacts.replace_notin _ _ _ s Hu).
Qed.

Lemma strip_braces s :
  canon_chars s -> s <> [] -> PyStr.strip "{}" ("{" ++ s ++ "}") = s.
Proof.
  intros Hs Hne. pose proof (canon_chars_no_brace s Hs) as Hb.
  unfold PyStr.strip, PyStr.rstrip.
  assert (PyStr.lstrip "{}" ("{" ++ s ++ "}") = s ++ "}") as ->.
  { change (PyStr.lstrip "{}" ("{" ++ s ++ "}"))
      with (PyStr.lstrip "{}" (s ++ "}")).
    destruct s as [|c s']; [done|]. apply Forall_inv in Hb.
    cbn [app PyStr.lstrip]. by rewrite Hb. }
  rewrite rev_app_distr.
  change (rev (list_ascii_of_string "}") ++ rev s)
    with ("}"%char :: rev s).
  change (PyStr.lstrip "{}" ("}"%char :: rev s))
    with (PyStr.lstrip "{}" (rev s)).
  rewrite PyStrFacts.lstrip_id by by apply List.Forall_rev.
  apply rev_involutive.
Qed.

Lemma clean_braces s :
  canon_chars s -> s <> [] -> uuid.clean ("{" ++ s ++ "}") = Spec.undashed s.
Proof.
  intros Hs Hne. unfold uuid.clean.
  assert (~ In "u"%char ("{" ++ s ++ "}")) as Hu.
  { intros Hin. cbn [list_ascii_of_string app In] in Hin.
    destruct Hin as [E|Hin]; [discriminate E|].
    apply in_app_or in Hin as [Hin|[E|[]]]; [|discriminate E].
    by apply (canon_chars_no_u s Hs). }
  change (list_ascii_of_string "urn:") with ("u"%char :: list_ascii_of_string "rn:").
  change (list_ascii_of_string "uuid:") with ("u"%char :: list_ascii_of_string "uid:").
  do 2 rewrite (PyStrFacts.replace_notin _ _ _ _ Hu).
  rewrite strip_braces by done.
  apply PyStrFacts.replace_char_filter.
Qed.

End UuidFacts.

(** ** [extract_id]: identifiers *)

Lemma extract_id_of_clean BASE_URL s i :
  PyStr.startswith BASE_URL s = false ->
  Spec.is_canonical i = true -> uuid.clean s = Spec.undashed i ->
  extract_id BASE_URL s = Return i.
Proof.
  intros Hpre Hi Hclean.
  destruct (UuidFacts.canonical_undashed i Hi) as (Hh & Hlen & Hstr).
  rewrite extract_id_cases. unfold candidate. rewrite Hpre.
  rewrite (UuidFacts.UUID_of_clean s _ Hclean Hh Hlen). by rewrite Hstr.
Qed.

(** C5: a canonical identifier that does not start with [BASE_URL] is
    handed to the parser as it is, and [extract_id] returns it unchanged. *)
Theorem canonical_identifier_is_returned_unchanged BASE_URL i :
  Spec.is_canonical i = true ->
  PyStr.startswith BASE_URL i = false ->
  candidate BASE_URL i = i /\ extract_id BASE_URL i = Return i.
Proof.
  intros Hi Hpre. split; [unfold candidate; by rewrite Hpre|].
  apply extract_id_of_clean; [done..|].
  by apply UuidFacts.clean_canon_chars, UuidFacts.canonical_chars.
Qed.

Lemma canonical_identifier_is_returned_unchanged_witness :
  candidate notion_so "01234567-89ab-cdef-0123-456789abcdef"
  = ("01234567-89ab-cdef-0123-456789abcdef" : str) /\
  extract_id notion_so "01234567-89ab-cdef-0123-456789abcdef"
  = Return ("01234567-89ab-cdef-0123-456789abcdef" : str).
Proof.
  apply (canonical_identifier_is_returned_unchanged notion_so
           "01234567-89ab-cdef-0123-456789abcdef"); reflexivity.
Defined.

(** C10: [extract_id] also succeeds on spellings of an identifier that are
    neither its canonical form nor its 32 digits: for a canonical [i], both
    [urn:uuid:i] and [{i}] (when they do not start with [BASE_URL]) are
    accepted, and the canonical form [i] is returned. *)
Theorem urn_and_braced_identifiers_are_accepted BASE_URL i :
  Spec.is_canonical i = true ->
  PyStr.startswith BASE_URL ("urn:uuid:" ++ i) = false ->
  PyStr.startswith BASE_URL ("{" ++ i ++ "}") = false ->
  (extract_id BASE_URL ("urn:uuid:" ++ i) = Return i /\
   Spec.is_canonical ("urn:uuid:" ++ i) = false /\
   length ("urn:uuid:" ++ i) <> 32) /\
  (extract_id BASE_URL ("{" ++ i ++ "}") = Return i /\
   Spec.is_canonical ("{" ++ i ++ "}") = false /\
   length ("{" ++ i ++ "}") <> 32).
Proof.
  intros Hi Hurn Hbr.
  pose proof (UuidFacts.canonical_chars i Hi) as Hc.
  assert (length i = 36) as Hlen.
  { unfold Spec.is_canonical in Hi. apply andb_prop in Hi as [Hl _].
    by apply Nat.eqb_eq in Hl. }
  assert (i <> []) as Hne by (by destruct i).
  split; split_and!.
  - apply extract_id_of_clean; [done..|]. by apply UuidFacts.clean_urn.
  - unfold Spec.is_canonical. rewrite length_app, Hlen. reflexivity.
  - rewrite length_app, Hlen. cbn. lia.
  - apply extract_id_of_clean; [done..|]. by apply UuidFacts.clean_braces.
  - unfold Spec.is_canonical. rewrite !length_app, Hlen. reflexivity.
  - rewrite !length_app, Hlen. cbn. lia.
Qed.

Lemma urn_and_braced_identifiers_are_accepted_witness :
  (extract_id notion_so "urn:uuid:01234567-89ab-cdef-0123-456789abcdef"
   = Return ("01234567-89ab-cdef-0123-456789abcdef" : str) /\
   Spec.is_canonical "urn:uuid:01234567-89ab-cdef-0123-456789abcdef" = false /\
   length ("urn:uuid:01234567-89ab-cdef-0123-456789abcdef" : str) <> 32) /\
  (extract_id notion_so "{01234567-89ab-cdef-0123-456789abcdef}"
   = Return ("01234567-89ab-cdef-0123-456789abcdef" : str) /\
   Spec.is_canonical "{01234567-89ab-cdef-0123-456789abcdef}" = false /\
   length ("{01234567-89ab-cdef-0123-456789abcdef}" : str) <> 32).
Proof.
  apply (urn_and_braced_identifiers_are_accepted notion_so
           "01234567-89ab-cdef-0123-456789abcdef"); reflexivity.
Defined.

(** ** The transforms on the URL shapes *)

Module TransformFacts.

Import PyStr.

Lemma startswith_refl sep : startswith sep sep = true.
Proof. rewrite <- (app_nil_r sep) at 2. apply PyStrFacts.startswith_app. Qed.

Lemma startswith_app_disjoint sep q x :
  Spec.disjoint x sep -> startswith sep (q ++ x) = startswith sep q.
Proof.
  intros Hd. revert q. induction sep as [|a sep IH]; intros q; [done|].
  assert (Spec.disjoint x sep) as Hd'.
  { intros c Hc Hin. apply (Hd c Hc). by right. }
  destruct q as [|b q]; cbn [app startswith].
  - destruct x as [|b x]; [done|]. cbn [startswith].
    destruct (Ascii.eqb a b) eqn:E; [|done].
    apply Ascii.eqb_eq in E. subst b. destruct (Hd a); by left.
  - by rewrite (IH Hd').
Qed.

Lemma rfind_disjoint sep x :
  sep <> [] -> Spec.disjoint x sep -> rfind sep x = None.
Proof.
  intros Hne Hd. destruct (rfind sep x) as [i|] eqn:R; [|done].
  apply PyStrFacts.rfind_Some in R as (R & _).
  rewrite <- (app_nil_l (drop i x)) in R.
  rewrite startswith_app_disjoint in R.
  - by rewrite PyStrFacts.startswith_nil_r in R.
  - intros c Hc. apply Hd. rewrite <- (take_drop i x). apply in_or_app. by right.
Qed.

Lemma rfind_app_disjoint sep p x :
  sep <> [] -> Spec.disjoint x sep -> rfind sep (p ++ x) = rfind sep p.
Proof.
  intros Hne Hd. induction p as [|c p IH].
  - cbn [app]. rewrite rfind_disjoint by done.
    cbn [rfind]. by rewrite PyStrFacts.startswith_nil_r.
  - cbn [app rfind]. rewrite IH.
    change (c :: p ++ x) with ((c :: p) ++ x).
    by rewrite startswith_app_disjoint.
Qed.

Lemma after_last_app_disjoint sep p x :
  sep <> [] -> Spec.disjoint x sep ->
  Spec.after_last sep (p ++ x) = Spec.after_last sep p ++ x.
Proof.
  intros Hne Hd. unfold Spec.after_last. rewrite rfind_app_disjoint by done.
  destruct (rfind sep p) as [i|] eqn:R; [|done].
  apply PyStrFacts.rfind_Some in R as (R & _).
  apply PyStrFacts.startswith_length in R. rewrite length_drop in R.
  destruct (decide (i <= length p)).
  - apply drop_app_le. lia.
  - destruct sep; [done|]. simpl in R. lia.
Qed.

Lemma after_last_nil sep : sep <> [] -> Spec.after_last sep [] = [].
Proof.
  intros Hne. unfold Spec.after_last. cbn [rfind].
  by rewrite PyStrFacts.startswith_nil_r.
Qed.

Lemma after_last_id sep x :
  sep <> [] -> Spec.disjoint x sep -> Spec.after_last sep x = x.
Proof.
  intros Hne Hd. rewrite <- (app_nil_l x) at 1.
  rewrite after_last_app_disjoint by done. by rewrite after_last_nil.
Qed.

Lemma after_last_end sep p :
  sep <> [] -> unbordered sep = true -> Spec.after_last sep (p ++ sep) = [].
Proof.
  intros Hne Hu. unfold Spec.after_last.
  rewrite (PyStrFacts.rfind_intro sep (p ++ sep) (length p)).
  - apply drop_ge. rewrite length_app. lia.
  - rewrite drop_app_length. apply startswith_refl.
  - rewrite length_app. lia.
  - intros j Hj Hle. rewrite length_app in Hle.
    replace j with (length p + (j - length p)) by lia.
    rewrite <- drop_drop, drop_app_length.
    destruct (decide (j - length p < length sep)).
    + apply PyStrFacts.no_overlap; [done|apply startswith_refl|lia].
    + rewrite drop_ge by lia. by apply PyStrFacts.startswith_nil_r.
Qed.

(** After the last [sep] of [p ++ sep ++ h] comes [h], when [h] has none
    of the characters of [sep]. *)
Lemma after_last_tail sep p h :
  sep <> [] -> unbordered sep = true -> Spec.disjoint h sep ->
  Spec.after_last sep (p ++ sep ++ h) = h.
Proof.
  intros Hne Hu Hd. rewrite app_assoc, after_last_app_disjoint by done.
  by rewrite after_last_end.
Qed.

Lemma before_first_id c sep s :
  ~ In c s -> Spec.before_first (c :: sep) s = s.
Proof. intros Hn. unfold Spec.before_first. by rewrite PyStrFacts.find_notin. Qed.

Lemma after_last_In sep s c : In c (Spec.after_last sep s) -> In c s.
Proof.
  unfold Spec.after_last. destruct (rfind sep s) as [i|]; [|done].
  intros Hin. rewrite <- (take_drop (i + length sep) s).
  apply in_or_app. by right.
Qed.

End TransformFacts.

(** ** [extract_id]: URLs *)

Module UrlFacts.

Lemma disjoint_dec x sep :
  forallb (fun c => negb (PyStr.mem c sep)) x = true -> Spec.disjoint x sep.
Proof.
  rewrite forallb_forall. intros H c Hc Hin.
  apply H in Hc. apply CharFacts.mem_In in Hin. by rewrite Hin in Hc.
Qed.

Lemma disjoint_app x y sep :
  Spec.disjoint x sep -> Spec.disjoint y sep -> Spec.disjoint (x ++ y) sep.
Proof. intros Hx Hy c [Hc|Hc]%in_app_or; [by apply Hx|by apply Hy]. Qed.

Lemma hex_disjoint h sep :
  Spec.lower_hex h ->
  forallb (fun c => PyStr.mem c Spec.special) sep = true ->
  Spec.disjoint h sep.
Proof.
  intros Hh Hsep c Hc Hin.
  apply List.Forall_forall with (x := c) in Hh; [|done].
  apply CharFacts.lower_hex_not_special in Hh.
  rewrite forallb_forall in Hsep. apply Hsep in Hin. congruence.
Qed.

(** The transforms leave the digits [h] that a URL of one of the four
    shapes ends with. *)
Lemma url_transform_shape h u :
  Spec.lower_hex h -> Spec.url_shape h u -> Spec.url_transform u = h.
Proof.
  intros Hh Hu. unfold Spec.url_transform.
  assert (Spec.disjoint h "#") as Dhash by (by apply hex_disjoint).
  assert (Spec.disjoint h "/") as Dslash by (by apply hex_disjoint).
  assert (Spec.disjoint h "&p=") as Damp by (by apply hex_disjoint).
  assert (Spec.disjoint h "-") as Ddash by (by apply hex_disjoint).
  assert (~ In "?"%char h) as Hq.
  { intros Hin. apply List.Forall_forall with (x := "?"%char) in Hh; [|done].
    vm_compute in Hh. discriminate. }
  assert (Spec.after_last "-" (Spec.before_first "?" (Spec.after_last "&p=" h))
          = h) as Hrest.
  { rewrite (TransformFacts.after_last_id "&p=" h) by done.
    change (list_ascii_of_string "?") with ["?"%char].
    rewrite TransformFacts.before_first_id by done.
    by rewrite TransformFacts.after_last_id. }
  destruct Hu as [p|p|p|p Hp].
  - rewrite (TransformFacts.after_last_app_disjoint "#" p ("/" ++ h));
      [|done|by apply disjoint_app; [apply disjoint_dec|]].
    rewrite (TransformFacts.after_last_tail "/") by done. exact Hrest.
  - rewrite (TransformFacts.after_last_tail "#") by done.
    rewrite (TransformFacts.after_last_id "/") by done. exact Hrest.
  - rewrite (TransformFacts.after_last_app_disjoint "#" p ("&p=" ++ h));
      [|done|by apply disjoint_app; [apply disjoint_dec|]].
    rewrite (TransformFacts.after_last_app_disjoint "/" _ ("&p=" ++ h));
      [|done|by apply disjoint_app; [apply disjoint_dec|]].
    rewrite (TransformFacts.after_last_tail "&p=") by done.
    change (list_ascii_of_string "?") with ["?"%char].
    rewrite TransformFacts.before_first_id by done.
    by rewrite TransformFacts.after_last_id.
  - rewrite (TransformFacts.after_last_app_disjoint "#" p ("-" ++ h));
      [|done|by apply disjoint_app; [apply disjoint_dec|]].
    rewrite (TransformFacts.after_last_app_disjoint "/" _ ("-" ++ h));
      [|done|by apply disjoint_app; [apply disjoint_dec|]].
    rewrite (TransformFacts.after_last_app_disjoint "&p=" _ ("-" ++ h));
      [|done|by apply disjoint_app; [apply disjoint_dec|]].
    change (list_ascii_of_string "?") with ["?"%char].
    rewrite TransformFacts.before_first_id.
    + by rewrite TransformFacts.after_last_tail.
    + intros [Hin|Hin]%in_app_or.
      * by do 3 apply TransformFacts.after_last_In in Hin.
      * cbn [list_ascii_of_string app In] in Hin.
        destruct Hin as [E|Hin]; [discriminate E|done].
Qed.

End UrlFacts.

(** C3, as stated, fails: a page URL that ends with the canonical (dashed)
    identifier [i] has one of the four shapes, yet [extract_id] cuts the
    identifier at its last dash and raises instead of returning [i]. *)
Lemma url_with_dashed_identifier_is_rejected :
  Spec.is_canonical "01234567-89ab-cdef-0123-456789abcdef" = true /\
  PyStr.startswith notion_so
    "https://www.notion.so/01234567-89ab-cdef-0123-456789abcdef" = true /\
  Spec.url_shape "01234567-89ab-cdef-0123-456789abcdef"
    "https://www.notion.so/01234567-89ab-cdef-0123-456789abcdef" /\
  candidate notion_so
    "https://www.notion.so/01234567-89ab-cdef-0123-456789abcdef"
  = ("456789abcdef" : str) /\
  extract_id notion_so
    "https://www.notion.so/01234567-89ab-cdef-0123-456789abcdef"
  = Raise (InvalidNotionIdentifier
             "https://www.notion.so/01234567-89ab-cdef-0123-456789abcdef").
Proof.
  split_and!; try reflexivity.
  exact (Spec.PlainPage "01234567-89ab-cdef-0123-456789abcdef"
           "https://www.notion.so").
Qed.

(** C3, amended: for a canonical identifier [i] and a URL [u] that starts
    with [BASE_URL] and has one of the four shapes (page, block fragment,
    legacy [&p=] parameter, hyphenated slug) around the 32 digits of [i]
    written without dashes, [extract_id u] returns [i]. *)
Theorem url_with_undashed_identifier_yields_identifier BASE_URL i u :
  Spec.is_canonical i = true ->
  PyStr.startswith BASE_URL u = true ->
  Spec.url_shape (Spec.undashed i) u ->
  extract_id BASE_URL u = Return i.
Proof.
  intros Hi Hpre Hshape.
  destruct (UuidFacts.canonical_undashed i Hi) as (Hh & Hlen & Hstr).
  rewrite extract_id_cases. unfold candidate. rewrite Hpre.
  rewrite split_chain_transform, (UrlFacts.url_transform_shape _ u Hh Hshape).
  rewrite (UuidFacts.UUID_of_clean _ (Spec.undashed i)); [by rewrite Hstr| |done..].
  rewrite UuidFacts.clean_canon_chars by by apply UuidFacts.lower_hex_canon.
  by apply UuidFacts.undashed_lower_hex.
Qed.

Lemma url_with_undashed_identifier_yields_identifier_witness :
  extract_id notion_so
    "https://www.notion.so/ws/My-Page-0123456789abcdef0123456789abcdef"
  = Return ("01234567-89ab-cdef-0123-456789abcdef" : str).
Proof.
  apply (url_with_undashed_identifier_yields_identifier notion_so
           "01234567-89ab-cdef-0123-456789abcdef"
           "https://www.notion.so/ws/My-Page-0123456789abcdef0123456789abcdef");
    [reflexivity|reflexivity|].
  refine (Spec.HyphenSlug _ "https://www.notion.so/ws/My-Page" _).
  intros H%CharFacts.mem_In. vm_compute in H. discriminate H.
Defined.

(** * More of the module: [to_list], [slugify], the signed URLs, and
    further properties of [extract_id] and [get_by_path] *)

Module CharSepFacts.

Import PyStr PyStrFacts.

Lemma find_char_cons c x s :
  find [c] (x :: s) = if Ascii.eqb c x then Some 0 else option_map S (find [c] s).
Proof. cbn [find startswith]. by destruct (Ascii.eqb c x). Qed.

Lemma replace_char_char_cons c d x s :
  replace [c] [d] (x :: s) = (if Ascii.eqb c x then d else x) :: replace [c] [d] s.
Proof.
  rewrite (replace_eq [c] [d] (x :: s)) by done. rewrite find_char_cons.
  destruct (Ascii.eqb c x); simpl; [done|].
  rewrite (replace_eq [c] [d] s) by done.
  by destruct (find [c] s).
Qed.

Lemma replace_char_map c d s :
  replace [c] [d] s = map (fun x => if Ascii.eqb c x then d else x) s.
Proof.
  induction s as [|x s IH]; [by rewrite replace_eq|].
  rewrite replace_char_char_cons. simpl. by rewrite IH.
Qed.

Lemma split_char_cons c x s :
  split [c] (x :: s) =
  if Ascii.eqb c x then [] :: split [c] s
  else match split [c] s with
       | bit :: bits => (x :: bit) :: bits
       | [] => []
       end.
Proof.
  rewrite (split_eq [c] (x :: s)) by done. rewrite find_char_cons.
  destruct (Ascii.eqb c x); simpl; [done|].
  rewrite (split_eq [c] s) by done.
  by destruct (find [c] s).
Qed.

Lemma split_char_nil c : split [c] [] = [[]].
Proof. by rewrite split_eq. Qed.

Lemma split_char_app c s t :
  split [c] (s ++ c :: t) = split [c] s ++ split [c] t.
Proof.
  induction s as [|x s IH]; simpl.
  - rewrite split_char_cons, Ascii.eqb_refl. by rewrite split_char_nil.
  - rewrite !split_char_cons, IH. destruct (Ascii.eqb c x); [done|].
    pose proof (split_nonempty [c] s). by destruct (split [c] s).
Qed.

Lemma split_char_notin c s : ~ In c s -> split [c] s = [s].
Proof. intros H. rewrite split_eq by done. by rewrite find_notin. Qed.

Lemma split_char_length c s :
  length (split [c] s) = S (length (List.filter (Ascii.eqb c) s)).
Proof.
  induction s as [|x s IH]; [by rewrite split_char_nil|].
  rewrite split_char_cons. simpl. destruct (Ascii.eqb c x); simpl; [by rewrite IH|].
  rewrite <- IH. by destruct (split [c] s).
Qed.

Lemma split_char_segments c s : Forall (fun bit => ~ In c bit) (split [c] s).
Proof.
  induction s as [|x s IH].
  { rewrite split_char_nil. constructor; [by intros []|constructor]. }
  rewrite split_char_cons. destruct (Ascii.eqb c x) eqn:E.
  - constructor; [by intros []|done].
  - destruct (split [c] s) as [|bit bits]; [done|].
    inversion IH as [|? ? Hb Hbs]; subst. constructor; [|done].
    intros [->|H]; [by rewrite Ascii.eqb_refl in E|done].
Qed.

End CharSepFacts.

(** ** [to_list] *)

(** X1: the result of [to_list] is a list, [to_list] applied twice is [to_list]
    applied once, a list is returned as it is, and any other value is the
    only element of the result. *)
Theorem to_list_wraps_once value default :
  isinstance_list (to_list value) = true /\
  to_list (to_list value) = to_list value /\
  match value with
  | VList _ => to_list value = value
  | _ =>
      get_by_path (PSeq [("0" : str)]) (to_list value) default = Return value /\
      get_by_path (PSeq [("1" : str)]) (to_list value) default = Return default
  end.
Proof. by destruct value. Qed.

(** X2: over the store: [to_list] returns a reference to a list and changes no
    object that exists.  A list is returned itself, not a copy of it, and
    the store stays as it is; for any other value the result is a new
    reference, to a list that holds the value.  Applied to its own result,
    [to_list] returns it again and creates nothing. *)
Theorem to_list_returns_the_list_itself (value : Store.loc) (h : Store.store) :
  exists r h',
    Store.to_list value h = (Return r, h') /\
    (forall r0 o, h !! r0 = Some o -> h' !! r0 = Some o) /\
    Store.to_list r h' = (Return r, h') /\
    match h !! value with
    | Some (Store.OList _) => r = value /\ h' = h
    | _ => h !! r = None /\ h' !! r = Some (Store.OList [value])
    end.
Proof.
  unfold Store.to_list, Store.mbind, Store.isinstance_list, Store.ret, Store.alloc.
  destruct (h !! value) as [o|] eqn:Hv.
  - destruct o;
      try (eexists _, _; split; [reflexivity|];
           pose proof (is_fresh (dom h)) as Hf%not_elem_of_dom;
           rewrite lookup_insert_eq; split_and!; try done;
           intros r0 o0 H0; rewrite lookup_insert_ne; [done|congruence]).
    exists value, h. rewrite Hv. by split_and!.
  - eexists _, _; split; [reflexivity|].
    pose proof (is_fresh (dom h)) as Hf%not_elem_of_dom.
    rewrite lookup_insert_eq. split_and!; try done.
    intros r0 o0 H0. rewrite lookup_insert_ne; [done|congruence].
Qed.

(** ** [slugify] *)

(** X3: whatever the dash slug is, [slugify] returns it with every ["-"]
    turned into ["_"] and every other character kept: the result has the
    length of the dash slug and holds no ["-"]. *)
Theorem slugify_has_no_dash (_dash_slugify : str -> str) text :
  slugify _dash_slugify text
  = map (fun c => if Ascii.eqb "-" c then "_"%char else c) (_dash_slugify text) /\
  length (slugify _dash_slugify text) = length (_dash_slugify text) /\
  ~ In "-"%char (slugify _dash_slugify text).
Proof.
  unfold slugify. rewrite (CharSepFacts.replace_char_map "-" "_"). split_and!.
  - done.
  - by rewrite length_map.
  - intros (c & Hc & _)%in_map_iff.
    destruct (Ascii.eqb "-" c) eqn:E; [done|].
    subst c. by rewrite Ascii.eqb_refl in E.
Qed.

(** ** [get_by_path]: paths in parts, and the ways it ends *)

Module PathMoreFacts.

Lemma traverse_app p q obj :
  traverse (p ++ q) obj = (v <- traverse p obj ;; traverse q v).
Proof.
  revert obj. induction p as [|k p IH]; intros obj; [done|].
  cbn [app traverse]. destruct (isinstance_list obj); cbn [bind].
  - destruct (PyInt.int 10 k) as [n|]; cbn [bind]; [|done].
    destruct (getitem obj (KInt n)); cbn [bind]; [apply IH|done].
  - destruct (getitem obj (KStr k)); cbn [bind]; [apply IH|done].
Qed.

Lemma get_by_path_app p q obj default :
  get_by_path (PSeq (p ++ q)) obj default =
  match traverse p obj with
  | Return v => get_by_path (PSeq q) v default
  | Raise _ => get_by_path (PSeq p) obj default
  end.
Proof.
  unfold get_by_path. cbn [segments]. rewrite traverse_app.
  by destruct (traverse p obj).
Qed.

Lemma traverse_not_list key keys obj :
  isinstance_list obj = false ->
  traverse (key :: keys) obj = (v <- getitem obj (KStr key) ;; traverse keys v).
Proof. intros H. cbn [traverse]. by rewrite H. Qed.

Lemma is_list_inv obj : isinstance_list obj = true -> exists items, obj = VList items.
Proof. destruct obj; try done. by eexists. Qed.

(** The traversal raises [ValueError] exactly when it reaches a list with
    a segment that [int] rejects. *)
Lemma traverse_value_error keys obj :
  traverse keys obj = Raise ValueError <->
  exists pre seg post items,
    keys = pre ++ seg :: post /\ traverse pre obj = Return (VList items) /\
    PyInt.int 10 seg = Raise ValueError.
Proof.
  split.
  - revert obj. induction keys as [|k keys IH]; intros obj H; [done|].
    destruct (isinstance_list obj) eqn:L.
    + apply is_list_inv in L as [items ->].
      rewrite traverse_list_step in H.
      destruct (PyInt.int 10 k) as [n|e] eqn:I.
      * cbn [bind] in H. destruct (seq_getitem items n) as [v|e] eqn:G.
        -- cbn [bind] in H. destruct (IH _ H) as (pre & seg & post & its & -> & Hp & Hs).
           exists (k :: pre), seg, post, its. split_and!; [done| |done].
           rewrite traverse_list_step, I. cbn [bind]. by rewrite G.
        -- apply seq_getitem_raises in G as ->. done.
      * pose proof (int_raises _ _ _ I) as ->.
        by exists [], k, keys, items.
    + rewrite traverse_not_list in H by done.
      destruct (getitem obj (KStr k)) as [v|e] eqn:G.
      * cbn [bind] in H. destruct (IH _ H) as (pre & seg & post & its & -> & Hp & Hs).
        exists (k :: pre), seg, post, its. split_and!; [done| |done].
        rewrite traverse_not_list by done. by rewrite G.
      * cbn [bind] in H. injection H as ->.
        by destruct (getitem_raises _ _ _ G) as [|[|]].
  - intros (pre & seg & post & items & -> & Hp & Hs).
    rewrite traverse_app, Hp. cbn [bind].
    by rewrite traverse_list_step, Hs.
Qed.

End PathMoreFacts.

(** X4: a path in two parts is resolved from left to right: when the first
    part leads to a value, the whole path gives what the second part gives
    from that value; when the first part fails, the whole path ends as the
    first part alone does.  This holds for a sequence of segments and for a
    dotted string, whose parts are joined by a dot. *)
Theorem path_in_two_parts_resolves_left_to_right p q s t obj default :
  get_by_path (PSeq (p ++ q)) obj default =
  match traverse p obj with
  | Return v => get_by_path (PSeq q) v default
  | Raise _ => get_by_path (PSeq p) obj default
  end /\
  get_by_path (PStr (s ++ "." ++ t)) obj default =
  match traverse (segments (PStr s)) obj with
  | Return v => get_by_path (PStr t) v default
  | Raise _ => get_by_path (PStr s) obj default
  end.
Proof.
  split; [apply PathMoreFacts.get_by_path_app|].
  pose proof (PathMoreFacts.get_by_path_app (PyStr.split "." s) (PyStr.split "." t)
                obj default) as H.
  unfold get_by_path in *. cbn [segments] in *.
  assert (PyStr.split "." (s ++ "." ++ t) = PyStr.split "." s ++ PyStr.split "." t)
    as -> by exact (CharSepFacts.split_char_app "." s t).
  done.
Qed.

(** X5: [get_by_path] raises in one situation only: the traversal has reached
    a list, and the next segment is not accepted by [int].  What it raises
    then is [ValueError]; every other failure gives the default. *)
Theorem get_by_path_raises_exactly_on_unparseable_index p obj default e :
  get_by_path p obj default = Raise e <->
  e = ValueError /\
  exists pre seg post items,
    segments p = pre ++ seg :: post /\
    traverse pre obj = Return (VList items) /\
    PyInt.int 10 seg = Raise ValueError.
Proof.
  split.
  - intros H. pose proof (get_by_path_raises _ _ _ _ H) as ->. split; [done|].
    apply PathMoreFacts.traverse_value_error.
    unfold get_by_path, try_except in H.
    destruct (traverse (segments p) obj) as [v|e']; [done|].
    by destruct e'.
  - intros [-> H]. apply PathMoreFacts.traverse_value_error in H.
    unfold get_by_path. by rewrite H.
Qed.

(** X6: a dictionary key that contains a dot is out of reach of every path
    string: whether the key is there makes no difference to the result.  A
    sequence of segments reaches it. *)
Theorem key_with_dot_is_out_of_reach_of_path_strings k v d s default :
  In "."%char k ->
  get_by_path (PStr s) (VDict (<[k := v]> d)) default
  = get_by_path (PStr s) (VDict d) default /\
  get_by_path (PSeq [k]) (VDict (<[k := v]> d)) default = Return v.
Proof.
  intros Hk. split.
  - unfold get_by_path. cbn [segments].
    pose proof (CharSepFacts.split_char_segments "." s) as Hs.
    pose proof (PyStrFacts.split_nonempty "." s) as Hn.
    change (PyStr.split "." s) with (PyStr.split ["."%char] s) in *.
    destruct (PyStr.split ["."%char] s) as [|bit bits]; [done|].
    inversion Hs as [|? ? Hb _]; subst.
    cbn [traverse isinstance_list bind getitem].
    rewrite lookup_insert_ne; [done|]. by intros <-.
  - unfold get_by_path. cbn [segments traverse isinstance_list bind getitem].
    by rewrite lookup_insert_eq.
Qed.

Lemma key_with_dot_is_out_of_reach_of_path_strings_witness :
  get_by_path (PStr "a.b") (VDict (<[("a.b" : str) := VInt 1]> ∅)) VNone
  = get_by_path (PStr "a.b") (VDict ∅) VNone /\
  get_by_path (PSeq [("a.b" : str)]) (VDict (<[("a.b" : str) := VInt 1]> ∅)) VNone
  = Return (VInt 1).
Proof.
  apply (key_with_dot_is_out_of_reach_of_path_strings "a.b" (VInt 1) ∅ "a.b" VNone).
  simpl. tauto.
Defined.

(** X7: only lists and dictionaries are traversed: from any other value, a
    tuple and a string included, a path with at least one segment gives
    the default. *)
Theorem only_lists_and_dicts_are_traversed key keys s obj default :
  match obj with
  | VList _ | VDict _ => True
  | _ =>
      get_by_path (PSeq (key :: keys)) obj default = Return default /\
      get_by_path (PStr s) obj default = Return default
  end.
Proof.
  assert (forall ks, ks <> [] -> isinstance_list obj = false ->
                     (forall k', getitem obj (KStr k') = Raise TypeError) ->
                     get_by_path (PSeq ks) obj default = Return default) as H.
  { intros [|k' ks] Hks Hl Hg; [done|]. unfold get_by_path. cbn [segments].
    rewrite PathMoreFacts.traverse_not_list by done. by rewrite Hg. }
  destruct obj; try done;
    (split; [by apply H|]);
    unfold get_by_path in *; cbn [segments] in *;
    apply H; try done; apply PyStrFacts.split_nonempty.
Qed.

(** ** [extract_id]: what it returns *)

Module IdentifierFacts.

Import PyInt.
Local Open Scope Z_scope.

Lemma hex_char_digit d :
  0 <= d < 16 ->
  Spec.is_lower_hex (hex_char d) = true /\ digit_value (hex_char d) = d.
Proof.
  intros H. replace d with (Z.of_nat (Z.to_nat d)) by lia.
  assert (Z.to_nat d < 16)%nat as Hk by lia.
  generalize dependent (Z.to_nat d). intros k Hk.
  do 16 (destruct k as [|k]; [by vm_compute|]). lia.
Qed.

Lemma hex_fixed_digits w n :
  Spec.lower_hex (hex_fixed w n) /\ length (hex_fixed w n) = w.
Proof.
  revert n. induction w as [|w IH]; intros n; [by split; [constructor|]|].
  cbn [hex_fixed]. destruct (IH (n / 16)) as [Hl Hn].
  pose proof (Z.mod_pos_bound n 16 ltac:(lia)) as Hm.
  split.
  - apply Forall_app. split; [done|]. constructor; [|constructor].
    by apply hex_char_digit.
  - rewrite length_app, Hn. simpl. lia.
Qed.

Lemma hex_value_fixed w n :
  0 <= n < 16 ^ Z.of_nat w -> Spec.hex_value (hex_fixed w n) = n.
Proof.
  revert n. induction w as [|w IH]; intros n Hn.
  - change (16 ^ Z.of_nat 0) with 1 in Hn. cbn. lia.
  - cbn [hex_fixed]. rewrite HexFacts.hex_value_snoc.
    pose proof (Z.mod_pos_bound n 16 ltac:(lia)) as Hm.
    destruct (hex_char_digit (n mod 16) Hm) as [_ ->].
    rewrite IH.
    + pose proof (Z.div_mod n 16 ltac:(lia)). lia.
    + rewrite Nat2Z.inj_succ, Z.pow_succ_r in Hn by lia.
      split; [apply Z.div_pos; lia|apply Z.div_lt_upper_bound; lia].
Qed.

Lemma format_0x_digits n :
  0 <= n < 2 ^ 128 ->
  Spec.lower_hex (format_0x 32 n) /\ length (format_0x 32 n) = 32%nat /\
  Spec.hex_value (format_0x 32 n) = n.
Proof.
  intros Hn. unfold format_0x.
  change (2 ^ 128) with (16 ^ Z.of_nat 32) in Hn.
  rewrite Nat.max_l by (apply HexFacts.hex_len_le; [done|lia]).
  destruct (hex_fixed_digits 32 n). split_and!; [done..|].
  by apply hex_value_fixed.
Qed.

Lemma UUID_range hex u : uuid.UUID hex = Return u -> 0 <= u < 2 ^ 128.
Proof.
  unfold uuid.UUID.
  destruct (negb (length (uuid.clean hex) =? 32)%nat); [done|].
  destruct (int 16 (uuid.clean hex)) as [n|]; cbn [bind]; [|done].
  destruct ((0 <=? n) && (n <? 2 ^ 128)) eqn:E; cbn [negb]; [|done].
  intros [= <-]. apply andb_prop in E as [?%Z.leb_le ?%Z.ltb_lt]. lia.
Qed.

End IdentifierFacts.

Module CanonicalFacts.

(** The 32 digits [h], grouped and dashed as [str(UUID)] does. *)
Lemma dashed_digits h :
  Spec.lower_hex h -> length h = 32 ->
  let i := uuid.slice 0 8 h ++ "-" ++ uuid.slice 8 12 h ++ "-" ++
           uuid.slice 12 16 h ++ "-" ++ uuid.slice 16 20 h ++ "-" ++ drop 20 h in
  Spec.is_canonical i = true /\ Spec.undashed i = h.
Proof.
  intros Hh Hlen. cbv zeta. split.
  - do 32 (destruct h as [|? h]; [discriminate Hlen|]).
    destruct h; [|discriminate Hlen]. clear Hlen.
    unfold Spec.lower_hex in Hh.
    repeat match goal with
           | H : Forall _ (_ :: _) |- _ =>
               let H1 := fresh "D" in
               pose proof (Forall_inv H) as H1; cbv beta in H1;
               apply Forall_inv_tail in H
           end.
    unfold uuid.slice. cbn [take drop app list_ascii_of_string Nat.sub].
    unfold Spec.is_canonical.
    cbn [length Nat.eqb andb combine seq forallb existsb orb].
    change (Spec.is_dash "-") with true.
    repeat match goal with D : Spec.is_lower_hex _ = true |- _ => rewrite D; clear D end.
    reflexivity.
  - assert (forall a b, Spec.lower_hex (uuid.slice a b h)) as Hs.
    { intros a b. by apply Forall_take, Forall_drop. }
    assert (Spec.lower_hex (drop 20 h)) as Hd by by apply Forall_drop.
    cbn [list_ascii_of_string app].
    repeat first [rewrite UuidFacts.undashed_app | rewrite UuidFacts.undashed_dash].
    rewrite !UuidFacts.undashed_lower_hex by done.
    clear Hh Hs Hd.
    do 20 (destruct h as [|? h]; [discriminate Hlen|]). reflexivity.
Qed.

Lemma to_str_canonical u :
  (0 <= u < 2 ^ 128)%Z ->
  Spec.is_canonical (uuid.to_str u) = true /\
  Spec.hex_value (Spec.undashed (uuid.to_str u)) = u.
Proof.
  intros Hu. destruct (IdentifierFacts.format_0x_digits u Hu) as (Hh & Hlen & Hv).
  destruct (dashed_digits _ Hh Hlen) as [Hc Hd].
  unfold uuid.to_str. cbv zeta in *. by rewrite Hd.
Qed.

(** What [extract_id] returns is canonical and denotes the number that
    [UUID] read. *)
Lemma extract_id_Return BASE_URL s i :
  extract_id BASE_URL s = Return i ->
  Spec.is_canonical i = true /\
  uuid.UUID (candidate BASE_URL s) = Return (Spec.hex_value (Spec.undashed i)).
Proof.
  rewrite extract_id_cases.
  destruct (uuid.UUID (candidate BASE_URL s)) as [u|] eqn:U; [|done].
  intros [= <-]. apply IdentifierFacts.UUID_range in U.
  destruct (to_str_canonical u U) as [Hc Hv]. by rewrite Hv.
Qed.

End CanonicalFacts.

(** X8: whatever [extract_id] returns is a canonical identifier: 36
    characters, lowercase hexadecimal digits in groups of 8, 4, 4, 4 and 12
    with dashes between them.  Its digits denote the very number that
    [uuid.UUID] read from the input. *)
Theorem extract_id_returns_canonical_identifier BASE_URL url_or_id i :
  extract_id BASE_URL url_or_id = Return i ->
  Spec.is_canonical i = true /\ length i = 36 /\
  uuid.UUID (candidate BASE_URL url_or_id)
  = Return (Spec.hex_value (Spec.undashed i)).
Proof.
  intros [Hc Hu]%CanonicalFacts.extract_id_Return. split_and!; [done| |done].
  unfold Spec.is_canonical in Hc. apply andb_prop in Hc as [Hl _].
  by apply Nat.eqb_eq in Hl.
Qed.

Lemma extract_id_returns_canonical_identifier_witness :
  Spec.is_canonical "01234567-89ab-cdef-0123-456789abcdef" = true /\
  length ("01234567-89ab-cdef-0123-456789abcdef" : str) = 36 /\
  uuid.UUID (candidate notion_so "https://www.notion.so/Page-0123456789ABCDEF0123456789abcdef")
  = Return (Spec.hex_value (Spec.undashed "01234567-89ab-cdef-0123-456789abcdef")).
Proof.
  apply (extract_id_returns_canonical_identifier notion_so
           "https://www.notion.so/Page-0123456789ABCDEF0123456789abcdef").
  reflexivity.
Defined.

(** X9: [extract_id] applied to its own result returns it again, for every
    input that is accepted, provided the result does not start with the
    base URL (no identifier starts with a URL). *)
Theorem extract_id_is_idempotent BASE_URL url_or_id i :
  extract_id BASE_URL url_or_id = Return i ->
  PyStr.startswith BASE_URL i = false ->
  extract_id BASE_URL i = Return i.
Proof.
  intros [Hc _]%CanonicalFacts.extract_id_Return Hpre.
  apply extract_id_of_clean; [done..|].
  by apply UuidFacts.clean_canon_chars, UuidFacts.canonical_chars.
Qed.

Lemma extract_id_is_idempotent_witness :
  extract_id notion_so "01234567-89ab-cdef-0123-456789abcdef"
  = Return ("01234567-89ab-cdef-0123-456789abcdef" : str).
Proof.
  apply (extract_id_is_idempotent notion_so
           "https://www.notion.so/ws/My-Page-0123456789ABCDEF0123456789abcdef#{0123456789ABCDEF0123456789abcdef}");
    reflexivity.
Defined.

(** ** [extract_id]: more URLs *)

Module UrlMoreFacts.

Import PyStr.

Lemma rfind_None_intro sep s :
  (forall j, j <= length s -> startswith sep (drop j s) = false) ->
  rfind sep s = None.
Proof.
  intros H. destruct (rfind sep s) as [i|] eqn:R; [|done].
  apply PyStrFacts.rfind_Some in R as (R & Hi & _). by rewrite H in R.
Qed.

Lemma startswith_app_r p x y : startswith p x = true -> startswith p (x ++ y) = true.
Proof.
  intros H. rewrite (PyStrFacts.startswith_inv _ _ H), <- app_assoc.
  apply PyStrFacts.startswith_app.
Qed.

Lemma find_char_app c x r : ~ In c x -> find [c] (x ++ c :: r) = Some (length x).
Proof.
  induction x as [|a x IH]; intros Hn; cbn [app length].
  - by rewrite CharSepFacts.find_char_cons, Ascii.eqb_refl.
  - rewrite CharSepFacts.find_char_cons.
    destruct (Ascii.eqb c a) eqn:E.
    + apply Ascii.eqb_eq in E as ->. destruct Hn. by left.
    + rewrite IH; [done|]. intros ?. apply Hn. by right.
Qed.

Lemma before_first_char c x r : ~ In c x -> Spec.before_first [c] (x ++ c :: r) = x.
Proof.
  intros Hn. unfold Spec.before_first. rewrite find_char_app by done.
  by rewrite take_app_length.
Qed.

(** No occurrence of [c :: sep] starts in [x] when [c] is not in [x]. *)
Lemma rfind_app_notin c sep x q :
  ~ In c x -> find (c :: sep) q = None -> rfind (c :: sep) (x ++ q) = None.
Proof.
  intros Hn Hq. apply rfind_None_intro. intros j _.
  destruct (decide (j < length x)) as [Hj|Hj].
  - rewrite drop_app_le by lia.
    destruct (drop j x) as [|a r] eqn:D.
    { apply (f_equal length) in D. rewrite length_drop in D. simpl in D. lia. }
    cbn [app startswith]. destruct (Ascii.eqb c a) eqn:E; [|done].
    apply Ascii.eqb_eq in E as ->. destruct Hn.
    rewrite <- (take_drop j x), D. apply in_or_app. right. by left.
  - replace j with (length x + (j - length x)) by lia.
    rewrite <- drop_drop, drop_app_length. by apply PyStrFacts.find_None.
Qed.

Lemma notin_mem c chars x :
  Forall (fun a => mem a chars = false) x -> In c chars -> ~ In c x.
Proof.
  intros Hx Hc Hin. apply List.Forall_forall with (x := c) in Hx; [|done].
  apply CharFacts.mem_In in Hc. congruence.
Qed.

Lemma notin_hex c h : Spec.lower_hex h -> In c Spec.special -> ~ In c h.
Proof.
  intros Hh Hc Hin. apply List.Forall_forall with (x := c) in Hh; [|done].
  apply CharFacts.lower_hex_not_special in Hh.
  apply CharFacts.mem_In in Hc. congruence.
Qed.

Lemma disjoint_char c x : ~ In c x -> Spec.disjoint x [c].
Proof. intros Hn a Ha [<-|[]]. done. Qed.

Lemma notin_app (c : ascii) x y : ~ In c x -> ~ In c y -> ~ In c (x ++ y).
Proof. intros Hx Hy [?|?]%in_app_or; tauto. Qed.

Lemma notin_cons (c a : ascii) x : a <> c -> ~ In c x -> ~ In c (a :: x).
Proof. intros Ha Hx [?|?]; tauto. Qed.

(** A URL whose last path segment is [t ++ h ++ "?" ++ q]: the digits [h],
    some text [t] before them and a query string after them. *)
Lemma url_transform_query p t h q :
  Spec.lower_hex h ->
  Forall (fun c => mem c "#/&?" = false) t ->
  Forall (fun c => mem c "#/" = false) q ->
  find "&p=" q = None ->
  Spec.after_last "-" (t ++ h) = h ->
  Spec.url_transform (p ++ "/" ++ t ++ h ++ "?" ++ q) = h.
Proof.
  intros Hh Ht Hq Hamp Hdash. unfold Spec.url_transform.
  assert (forall c, In c "#/&?" -> In c Spec.special -> ~ In c (t ++ h)) as Hth.
  { intros c Hc Hs. apply notin_app; [by apply (notin_mem c "#/&?")|by apply notin_hex]. }
  assert (forall c, In c "#/" -> In c Spec.special -> ~ In c (t ++ h ++ "?" ++ q)) as Hy.
  { intros c Hc Hs. rewrite app_assoc. apply notin_app.
    - apply Hth; [|done]. cbn in Hc |- *. tauto.
    - apply notin_cons; [|by apply (notin_mem c "#/")].
      intros <-. cbn in Hc. destruct Hc as [|[|[]]]; discriminate. }
  rewrite (TransformFacts.after_last_app_disjoint "#" p ("/" ++ t ++ h ++ "?" ++ q)); [|done|].
  2:{ apply (disjoint_char "#"). apply notin_cons; [done|].
      apply Hy; cbn; tauto. }
  rewrite (TransformFacts.after_last_tail "/" _ (t ++ h ++ "?" ++ q)); [|done..|].
  2:{ apply (disjoint_char "/"). apply Hy; cbn; tauto. }
  assert (Spec.after_last "&p=" (t ++ h ++ "?" ++ q) = t ++ h ++ "?" ++ q) as ->.
  { unfold Spec.after_last.
    replace (t ++ h ++ "?" ++ q) with ((t ++ h ++ "?") ++ q) by by rewrite <- !app_assoc.
    change (list_ascii_of_string "&p=") with ("&"%char :: list_ascii_of_string "p=") in *.
    rewrite (rfind_app_notin "&" "p=" (t ++ h ++ "?") q); [done| |done].
    rewrite app_assoc. apply notin_app; [apply Hth; cbn; tauto|].
    intros [?|[]]. discriminate. }
  change (Spec.before_first "?" (t ++ h ++ "?" ++ q))
    with (Spec.before_first ["?"%char] (t ++ h ++ "?"%char :: q)).
  rewrite (app_assoc t h), before_first_char; [done|].
  apply Hth; cbn; tauto.
Qed.

End UrlMoreFacts.

Lemma extract_id_of_transform BASE_URL u i :
  Spec.is_canonical i = true ->
  PyStr.startswith BASE_URL u = true ->
  Spec.url_transform u = Spec.undashed i ->
  extract_id BASE_URL u = Return i.
Proof.
  intros Hi Hpre Ht.
  destruct (UuidFacts.canonical_undashed i Hi) as (Hh & Hlen & Hstr).
  rewrite extract_id_cases. unfold candidate. rewrite Hpre.
  rewrite split_chain_transform, Ht.
  rewrite (UuidFacts.UUID_of_clean _ (Spec.undashed i)); [by rewrite Hstr| |done..].
  rewrite UuidFacts.clean_canon_chars by by apply UuidFacts.lower_hex_canon.
  by apply UuidFacts.undashed_lower_hex.
Qed.

(** X10: a query string after the identifier is ignored.  For a URL under the
    base URL whose last path segment is the 32 digits of an identifier, or
    a slug, a dash and the digits, followed by [?] and a query string,
    [extract_id] returns the identifier.  The slug holds none of [#], [/],
    [&] and [?]; the query string holds no [#], no [/] and no [&p=], and
    may hold anything else. *)
Theorem query_string_after_identifier_is_ignored BASE_URL i p slug q :
  Spec.is_canonical i = true ->
  PyStr.startswith BASE_URL (p ++ "/") = true ->
  Forall (fun c => PyStr.mem c "#/&?" = false) slug ->
  Forall (fun c => PyStr.mem c "#/" = false) q ->
  PyStr.find "&p=" q = None ->
  extract_id BASE_URL (p ++ "/" ++ Spec.undashed i ++ "?" ++ q) = Return i /\
  extract_id BASE_URL (p ++ "/" ++ slug ++ "-" ++ Spec.undashed i ++ "?" ++ q)
  = Return i.
Proof.
  intros Hi Hpre Hslug Hq Hamp.
  destruct (UuidFacts.canonical_undashed i Hi) as (Hh & _ & _).
  assert (Spec.disjoint (Spec.undashed i) "-") as Hd by by apply UrlFacts.hex_disjoint.
  split; apply extract_id_of_transform; try done.
  - rewrite app_assoc. by apply UrlMoreFacts.startswith_app_r.
  - apply (UrlMoreFacts.url_transform_query p [] (Spec.undashed i) q); try done.
    by apply TransformFacts.after_last_id.
  - rewrite app_assoc. by apply UrlMoreFacts.startswith_app_r.
  - replace (p ++ "/" ++ slug ++ "-" ++ Spec.undashed i ++ "?" ++ q)
      with (p ++ "/" ++ (slug ++ "-") ++ Spec.undashed i ++ "?" ++ q)
      by by rewrite <- !app_assoc.
    apply UrlMoreFacts.url_transform_query; try done.
    + apply Forall_app. split; [done|]. by repeat constructor.
    + rewrite <- app_assoc. by apply TransformFacts.after_last_tail.
Qed.

Lemma query_string_after_identifier_is_ignored_witness :
  extract_id notion_so
    "https://www.notion.so/ws/0123456789abcdef0123456789abcdef?pvs=4&x=?y"
  = Return ("01234567-89ab-cdef-0123-456789abcdef" : str) /\
  extract_id notion_so
    "https://www.notion.so/ws/My-Page-0123456789abcdef0123456789abcdef?pvs=4&x=?y"
  = Return ("01234567-89ab-cdef-0123-456789abcdef" : str).
Proof.
  apply (query_string_after_identifier_is_ignored notion_so
           "01234567-89ab-cdef-0123-456789abcdef" "https://www.notion.so/ws"
           "My-Page" "pvs=4&x=?y");
    try reflexivity; by repeat constructor.
Defined.

(** X11: a URL under the base URL that ends in [/] or in [#] leaves nothing
    for [uuid.UUID] to read and is rejected; the base URL itself is one,
    when it ends in a slash. *)
Theorem url_ending_in_slash_or_hash_is_rejected BASE_URL p sep :
  sep = "/"%char \/ sep = "#"%char ->
  PyStr.startswith BASE_URL (p ++ [sep]) = true ->
  candidate BASE_URL (p ++ [sep]) = [] /\
  extract_id BASE_URL (p ++ [sep])
  = Raise (InvalidNotionIdentifier (p ++ [sep])).
Proof.
  intros Hsep Hpre.
  assert (candidate BASE_URL (p ++ [sep]) = []) as Hc.
  { unfold candidate. rewrite Hpre, split_chain_transform. unfold Spec.url_transform.
    assert (Spec.after_last "/" (Spec.after_last "#" (p ++ [sep])) = []) as ->.
    { destruct Hsep as [-> | ->].
      - change [("/")%char] with (list_ascii_of_string "/").
        rewrite (TransformFacts.after_last_app_disjoint "#" p "/"); [|done|].
        + by apply (TransformFacts.after_last_end "/").
        + apply UrlFacts.disjoint_dec. reflexivity.
      - change [("#")%char] with (list_ascii_of_string "#").
        rewrite (TransformFacts.after_last_end "#" p) by done.
        by apply TransformFacts.after_last_nil. }
    rewrite (TransformFacts.after_last_nil "&p=") by done.
    change (Spec.before_first "?" []) with ([] : str).
    by apply TransformFacts.after_last_nil. }
  split; [done|].
  rewrite extract_id_cases, Hc. reflexivity.
Qed.

Lemma url_ending_in_slash_or_hash_is_rejected_witness :
  candidate notion_so notion_so = [] /\
  extract_id notion_so notion_so = Raise (InvalidNotionIdentifier notion_so).
Proof.
  apply (url_ending_in_slash_or_hash_is_rejected notion_so "https://www.notion.so" "/");
    [by left|reflexivity].
Defined.

(** ** [extract_id]: upper case *)

Module CaseFacts.

Import PyInt.
Local Open Scope Z_scope.

(** A hexadecimal digit in either case: a character that is a lowercase
    hexadecimal digit once in lower case. *)
Local Abbreviation hexdigit c := (Spec.is_lower_hex (Spec.lower_char c) = true).

Lemma hexdigit_facts c :
  hexdigit c ->
  digit_value c = digit_value (Spec.lower_char c) /\ digit_value c < 16 /\
  PyStr.mem c Spec.special = false /\ is_space c = false /\
  Spec.is_dash c = false /\ Spec.is_dash (Spec.lower_char c) = false.
Proof.
  CharFacts.ascii_cases c; intros H; vm_compute in H; try discriminate H;
    by vm_compute.
Qed.

Lemma hexdigit_neq c x : hexdigit c -> In x Spec.special -> Ascii.eqb c x = false.
Proof.
  intros H. apply HexFacts.mem_false_eqb. by apply hexdigit_facts.
Qed.

Ltac hexdigit_neq :=
  match goal with
  | H : hexdigit ?c |- Ascii.eqb ?c ?x = false =>
      apply (hexdigit_neq c x H); vm_compute; tauto
  end.

Lemma scan_digits_anycase s acc n :
  Forall (fun c => hexdigit c) s ->
  scan_digits 16 false acc n s
  = Some (fold_left Spec.hex_step s acc, (n + length s)%nat, []).
Proof.
  intros Hs. revert acc n. induction Hs as [|c s Hc _ IH]; intros acc n.
  - simpl. by rewrite Nat.add_0_r.
  - cbn [scan_digits fold_left length]. cbv beta in Hc.
    replace (Ascii.eqb c "_") with false by (symmetry; hexdigit_neq).
    destruct (hexdigit_facts c Hc) as (_ & Hlt & _).
    replace (digit_value c <? 16) with true by (symmetry; by apply Z.ltb_lt).
    rewrite IH. by rewrite Nat.add_succ_r.
Qed.

Lemma skip_base_prefix_anycase s :
  Forall (fun c => hexdigit c) s -> skip_base_prefix 16 s = s.
Proof.
  intros Hs. destruct Hs as [|c0 s0 Hc0 Hs0]; [done|].
  destruct Hs0 as [|c1 s1 Hc1 Hs1]; [done|]. cbv beta in *.
  unfold skip_base_prefix.
  replace (Ascii.eqb c1 "x") with false by (symmetry; hexdigit_neq).
  replace (Ascii.eqb c1 "X") with false by (symmetry; hexdigit_neq).
  by rewrite !andb_false_r.
Qed.

(** [int(s, 16)] reads hexadecimal digits of either case. *)
Lemma int16_anycase s :
  Forall (fun c => hexdigit c) s -> s <> [] -> int 16 s = Return (Spec.hex_value s).
Proof.
  intros Hs Hne. unfold int.
  destruct s as [|c s']; [done|].
  pose proof (Forall_inv Hs) as Hc. cbv beta in Hc.
  destruct (hexdigit_facts c Hc) as (_ & _ & _ & Hsp & _).
  cbn [skip_space]. rewrite Hsp.
  replace (Ascii.eqb c "+") with false by (symmetry; hexdigit_neq).
  replace (Ascii.eqb c "-") with false by (symmetry; hexdigit_neq).
  rewrite (skip_base_prefix_anycase _ Hs).
  replace (Ascii.eqb c "_") with false by (symmetry; hexdigit_neq).
  rewrite (scan_digits_anycase _ 0 0%nat Hs). cbn [length Nat.add Nat.eqb skip_space].
  change (too_many_digits 16 (S (length s'))) with false. cbv iota.
  f_equal. unfold Spec.hex_value.
  destruct (fold_left Spec.hex_step (c :: s') 0); reflexivity.
Qed.

Lemma hex_value_lower s acc :
  Forall (fun c => hexdigit c) s ->
  fold_left Spec.hex_step (Spec.lower s) acc = fold_left Spec.hex_step s acc.
Proof.
  intros Hs. revert acc. induction Hs as [|c s Hc _ IH]; intros acc; [done|].
  cbn [Spec.lower map fold_left]. fold (Spec.lower s). rewrite IH.
  unfold Spec.hex_step. by destruct (hexdigit_facts c Hc) as (<- & _).
Qed.

Lemma hex_value_lower_eq s :
  Forall (fun c => hexdigit c) s -> Spec.hex_value (Spec.lower s) = Spec.hex_value s.
Proof. apply hex_value_lower. Qed.

Lemma undashed_lower s :
  Forall (fun c => hexdigit c \/ c = "-"%char) s ->
  Spec.undashed (Spec.lower s) = Spec.lower (Spec.undashed s) /\
  Forall (fun c => hexdigit c) (Spec.undashed s).
Proof.
  induction 1 as [|c s Hc _ [IH1 IH2]]; [by split; [|constructor]|].
  unfold Spec.undashed, Spec.lower in *. cbn [map List.filter].
  destruct Hc as [Hc| ->].
  - destruct (hexdigit_facts c Hc) as (_ & _ & _ & _ & -> & ->).
    cbn [negb map]. rewrite IH1. split; [done|by constructor].
  - change (Spec.is_dash (Spec.lower_char "-")) with true.
    change (Spec.is_dash "-") with true. cbn [negb]. by rewrite IH1.
Qed.

Lemma clean_anycase s :
  Forall (fun c => hexdigit c \/ c = "-"%char) s -> uuid.clean s = Spec.undashed s.
Proof.
  intros Hs. unfold uuid.clean.
  assert (~ In "u"%char s) as Hu.
  { intros Hin. apply List.Forall_forall with (x := "u"%char) in Hs; [|done].
    by destruct Hs as [H|H]; vm_compute in H. }
  assert (Forall (fun c => PyStr.mem c "{}" = false) s) as Hb.
  { eapply Forall_impl; [exact Hs|]. intros c [Hc| ->]; [|done].
    destruct (PyStr.mem c "{}") eqn:M; [|done].
    apply CharFacts.mem_In in M. cbn in M.
    by destruct M as [<-|[<-|[]]]; vm_compute in Hc. }
  change (list_ascii_of_string "urn:") with ("u"%char :: list_ascii_of_string "rn:").
  change (list_ascii_of_string "uuid:") with ("u"%char :: list_ascii_of_string "uid:").
  do 2 rewrite (PyStrFacts.replace_notin _ _ _ s Hu).
  rewrite PyStrFacts.strip_id by done.
  apply PyStrFacts.replace_char_filter.
Qed.

End CaseFacts.

(** X12: identifiers are read without regard to the case of the digits
    and to where the dashes stand: a string of hexadecimal digits in
    either case and dashes, with 32 digits in all, that does not start with
    the base URL, is accepted, and [extract_id] returns the canonical
    identifier made of those digits in lower case. *)
Theorem extract_id_ignores_case_and_grouping BASE_URL s :
  Forall (fun c => Spec.is_lower_hex (Spec.lower_char c) || Spec.is_dash c = true) s ->
  length (Spec.undashed s) = 32 ->
  PyStr.startswith BASE_URL s = false ->
  exists i,
    extract_id BASE_URL s = Return i /\
    Spec.is_canonical i = true /\
    Spec.undashed i = Spec.lower (Spec.undashed s).
Proof.
  intros Hs Hlen Hpre.
  assert (Forall (fun c => Spec.is_lower_hex (Spec.lower_char c) = true \/ c = "-"%char) s)
    as Hc.
  { eapply Forall_impl; [exact Hs|]. intros c [H|H]%orb_prop; [by left|right].
    unfold Spec.is_dash in H. by apply Ascii.eqb_eq in H. }
  destruct (CaseFacts.undashed_lower s Hc) as [_ Hd].
  set (h := Spec.lower (Spec.undashed s)).
  assert (Spec.lower_hex h) as Hh.
  { unfold h, Spec.lower, Spec.lower_hex. by rewrite Forall_map. }
  assert (length h = 32) as Hlh by (unfold h, Spec.lower; by rewrite length_map).
  destruct (CanonicalFacts.dashed_digits h Hh Hlh) as [Hcan Hund].
  exists (uuid.to_str (Spec.hex_value h)).
  assert (uuid.UUID s = Return (Spec.hex_value h)) as HU.
  { unfold uuid.UUID. rewrite CaseFacts.clean_anycase, Hlen by done. cbn [Nat.eqb negb].
    rewrite CaseFacts.int16_anycase; [|done|by destruct (Spec.undashed s)].
    cbn [bind]. rewrite <- (CaseFacts.hex_value_lower_eq (Spec.undashed s)) by done.
    fold h. pose proof (HexFacts.hex_value_bounds h Hh) as Hb. rewrite Hlh in Hb.
    change (16 ^ Z.of_nat 32)%Z with (2 ^ 128)%Z in Hb.
    replace (0 <=? Spec.hex_value h)%Z with true by (symmetry; apply Z.leb_le; lia).
    replace (Spec.hex_value h <? 2 ^ 128)%Z with true by (symmetry; apply Z.ltb_lt; lia).
    reflexivity. }
  split.
  - rewrite extract_id_cases. unfold candidate. by rewrite Hpre, HU.
  - unfold uuid.to_str. rewrite HexFacts.format_hex_value by done. by cbv zeta in *.
Qed.

Lemma extract_id_ignores_case_and_grouping_witness :
  exists i,
    extract_id notion_so "0123-4567-89AB-CDEF-0123-4567-89ab-CDef" = Return i /\
    Spec.is_canonical i = true /\
    Spec.undashed i
    = Spec.lower (Spec.undashed "0123-4567-89AB-CDEF-0123-4567-89ab-CDef").
Proof.
  apply (extract_id_ignores_case_and_grouping notion_so
           "0123-4567-89AB-CDEF-0123-4567-89ab-CDef"); [|reflexivity..].
  by repeat constructor.
Defined.

Example extract_id_upper :
  extract_id notion_so "0123-4567-89AB-CDEF-0123-4567-89ab-CDef"
  = Return ("01234567-89ab-cdef-0123-456789abcdef" : str).
Proof. reflexivity. Qed.

(** ** Examples of quoting, unquoting and signing *)

Module UrlExamples.

Import urllib.
Local Open Scope N_scope.

Example quote_plus_ex :
  quote_plus (of_str "a b+c/d?e~f%") = Returns (of_str "a+b%2Bc%2Fd%3Fe~f%25")
  /\ quote_plus [] = Returns []
  /\ quote_plus [0xE9; 32; 0x20AC; 0x1F600]
     = Returns (of_str "%C3%A9+%E2%82%AC%F0%9F%98%80")
  /\ quote_plus [97; 0xD800] = Raises UnicodeEncodeError.
Proof. by vm_compute. Qed.

Example unquote_plus_ex :
  unquote_plus (of_str "a+b%2Bc%2fd") = Returns (of_str "a b+c/d")
  /\ unquote_plus (of_str "%41%zz%4") = Returns (of_str "A%zz%4")
  /\ unquote_plus (of_str "a%e2%82%acb") = Returns [97; 0x20AC; 98]
  /\ unquote_plus (of_str "%F0%9F%98%80+x") = Returns [0x1F600; 32; 120]
  /\ unquote_plus (of_str "%E2" ++ [0xE9] ++ of_str "%82%AC")
     = Returns [REPLACEMENT; 0xE9; REPLACEMENT; REPLACEMENT]
  /\ unquote_plus ([0xD800] ++ of_str "%41") = Returns [0xD800; 65].
Proof. by vm_compute. Qed.

Example utf8_decode_replace_ex :
  let bytes_of := map byte in
  utf8_decode_replace (bytes_of [0xE2; 0x82; 0xAC]) = [0x20AC]
  /\ utf8_decode_replace (bytes_of [0xF0; 0x9F; 0x98; 0x80]) = [0x1F600]
  /\ utf8_decode_replace (bytes_of [0xE2; 0x82]) = [REPLACEMENT]
  /\ utf8_decode_replace (bytes_of [0xE2; 0x28; 0xA1])
     = [REPLACEMENT; 0x28; REPLACEMENT]
  /\ utf8_decode_replace (bytes_of [0xF0; 0x90; 0x8C; 0x28]) = [REPLACEMENT; 0x28]
  /\ utf8_decode_replace (bytes_of [0xC0; 0x80]) = [REPLACEMENT; REPLACEMENT]
  /\ utf8_decode_replace (bytes_of [0xED; 0xA0; 0x80])
     = [REPLACEMENT; REPLACEMENT; REPLACEMENT]
  /\ utf8_decode_replace (bytes_of [0xF4; 0x90; 0x80; 0x80])
     = [REPLACEMENT; REPLACEMENT; REPLACEMENT; REPLACEMENT].
Proof. by vm_compute. Qed.

Example utf8_encode_ex :
  let bytes_of := map byte in
  utf8_encode [0x41; 0xE9; 0x20AC; 0x1F600]
  = Returns (bytes_of [0x41; 0xC3; 0xA9; 0xE2; 0x82; 0xAC; 0xF0; 0x9F; 0x98; 0x80])
  /\ utf8_encode [0x7FF; 0x800; 0xFFFF; 0x10000; 0x10FFFF]
     = Returns (bytes_of [0xDF; 0xBF; 0xE0; 0xA0; 0x80; 0xEF; 0xBF; 0xBF;
                          0xF0; 0x90; 0x80; 0x80; 0xF4; 0x8F; 0xBF; 0xBF])
  /\ utf8_encode [0x41; 0xDFFF] = Raises UnicodeEncodeError.
Proof. by vm_compute. Qed.

Example asciire_split_ex :
  _asciire_split [] = [[]]
  /\ _asciire_split (of_str "ab") = [[]; of_str "ab"; []]
  /\ _asciire_split (of_str "ab" ++ [0xE9; 0x20AC] ++ of_str "c")
     = [[]; of_str "ab"; [0xE9; 0x20AC]; of_str "c"; []].
Proof. by vm_compute. Qed.

Example add_signed_prefix_ex :
  let S3 := of_str "https://s3.example/" in
  let SIGNED := of_str "https://signed.example/" in
  let no_client := @None (client unit) in
  add_signed_prefix_as_needed S3 SIGNED
    (of_str "https://s3.example/a b.png?key=1") no_client
  = Returns (Some (of_str "https://signed.example/https%3A%2F%2Fs3.example%2Fa+b.png?key=1"))
  /\ add_signed_prefix_as_needed S3 SIGNED
       (of_str "https://s3.example/" ++ [0x20AC] ++ of_str ".png?key=1") no_client
     = Returns (Some (of_str "https://signed.example/https%3A%2F%2Fs3.example%2F%E2%82%AC.png?key=1"))
  /\ add_signed_prefix_as_needed S3 SIGNED
       (of_str "https://s3.example/a.png") no_client
     = Raises UnpackValueError
  /\ add_signed_prefix_as_needed S3 SIGNED
       (of_str "https://s3.example/a.png?x=1?y=2") no_client
     = Raises UnpackValueError
  /\ add_signed_prefix_as_needed S3 SIGNED
       (of_str "https://s3.example/" ++ [0xD800] ++ of_str ".png?key=1") no_client
     = Raises (QuoteError UnicodeEncodeError)
  /\ add_signed_prefix_as_needed S3 SIGNED
       (of_str "https://other.example/a.png") no_client
     = Returns (Some (of_str "https://other.example/a.png"))
  /\ add_signed_prefix_as_needed S3 SIGNED [] no_client = Returns (Some [])
  /\ add_signed_prefix_as_needed S3 SIGNED
       (of_str "https://s3.example/a.png?key=1") (Some (fun _ => Returns None))
     = @Returns (url_exn unit) _ None
  /\ add_signed_prefix_as_needed S3 SIGNED
       (of_str "https://s3.example/a.png?key=1")
       (Some (fun url => Returns (Some (of_str "moved:" ++ url))))
     = @Returns (url_exn unit) _
         (Some (of_str "moved:https://signed.example/https%3A%2F%2Fs3.example%2Fa.png?key=1"))
  /\ add_signed_prefix_as_needed S3 SIGNED
       (of_str "https://s3.example/a.png?key=1") (Some (fun _ => Raises tt))
     = Raises (RequestError tt)
  /\ add_signed_prefix_as_needed S3 SIGNED
       (of_str "https://other.example/a.png") (Some (fun _ => Raises tt))
     = Returns (Some (of_str "https://other.example/a.png")).
Proof. by vm_compute. Qed.

(** With prefixes of 19 and 23 characters the signed prefix is not cut
    whole: its last four characters stay. *)
Example remove_signed_prefix_ex :
  let S3 := of_str "https://s3.example/" in
  let SIGNED := of_str "https://signed.example/" in
  remove_signed_prefix_as_needed S3 SIGNED
    (of_str "https://signed.example/https%3A%2F%2Fs3.example%2Fa+b.png?key=1")
  = Returns (of_str "ple/https://s3.example/a b.png?key=1")
  /\ remove_signed_prefix_as_needed S3 SIGNED (of_str "https://other.example/a%20b")
     = Returns (of_str "https://other.example/a%20b")
  /\ remove_signed_prefix_as_needed S3 SIGNED [] = Returns [].
Proof. by vm_compute. Qed.

End UrlExamples.

(** ** Strings of any characters: splitting and replacing at a character *)

Module PyTextFacts.

Import PyText.

Lemma text_startswith_app p r : startswith p (p ++ r) = true.
Proof. induction p as [|a p IH]; [done|]. cbn. by rewrite N.eqb_refl, IH. Qed.

Lemma text_split_eq sep s :
  sep <> [] ->
  split sep s =
  match find sep s with
  | None => [s]
  | Some i => take i s :: split sep (drop (i + length sep) s)
  end.
Proof.
  intros Hsep. funelim (split sep s); [done|..];
    match goal with E : find _ _ = _ |- _ => by rewrite E end.
Qed.

Lemma text_replace_eq old new s :
  old <> [] ->
  replace old new s =
  match find old s with
  | None => s
  | Some i => take i s ++ new ++ replace old new (drop (i + length old) s)
  end.
Proof.
  intros Hold. funelim (replace old new s); [done|..];
    match goal with E : find _ _ = _ |- _ => by rewrite E end.
Qed.

Lemma text_split_nonempty sep s : split sep s <> [].
Proof.
  destruct sep as [|c sep]; [by simp split|].
  rewrite text_split_eq by done. by destruct (find (c :: sep) s).
Qed.

Lemma text_find_char_cons c x s :
  find [c] (x :: s) = if N.eqb c x then Some 0 else option_map S (find [c] s).
Proof. cbn [find startswith]. by destruct (N.eqb c x). Qed.

Lemma text_find_char_notin c s : ~ In c s -> find [c] s = None.
Proof.
  induction s as [|x s IH]; [done|]. intros Hn. rewrite text_find_char_cons.
  destruct (N.eqb_spec c x) as [->|Hne]; [destruct Hn; by left|].
  rewrite IH; [done|]. intros ?. apply Hn. by right.
Qed.

Lemma text_replace_char_cons c d x s :
  replace [c] [d] (x :: s) = (if N.eqb c x then d else x) :: replace [c] [d] s.
Proof.
  rewrite (text_replace_eq [c] [d] (x :: s)) by done. rewrite text_find_char_cons.
  destruct (N.eqb c x); simpl; [done|].
  rewrite (text_replace_eq [c] [d] s) by done.
  by destruct (find [c] s).
Qed.

Lemma text_replace_char_map c d s :
  replace [c] [d] s = map (fun x => if N.eqb c x then d else x) s.
Proof.
  induction s as [|x s IH]; [by rewrite text_replace_eq|].
  rewrite text_replace_char_cons. simpl. by rewrite IH.
Qed.

Lemma text_split_char_cons c x s :
  split [c] (x :: s) =
  if N.eqb c x then [] :: split [c] s
  else match split [c] s with
       | bit :: bits => (x :: bit) :: bits
       | [] => []
       end.
Proof.
  rewrite (text_split_eq [c] (x :: s)) by done. rewrite text_find_char_cons.
  destruct (N.eqb c x); simpl; [done|].
  rewrite (text_split_eq [c] s) by done.
  by destruct (find [c] s).
Qed.

Lemma text_split_char_nil c : split [c] [] = [[]].
Proof. by rewrite text_split_eq. Qed.

Lemma text_split_char_app c s t :
  split [c] (s ++ c :: t) = split [c] s ++ split [c] t.
Proof.
  induction s as [|x s IH]; simpl.
  - rewrite text_split_char_cons, N.eqb_refl. by rewrite text_split_char_nil.
  - rewrite !text_split_char_cons, IH. destruct (N.eqb c x); [done|].
    pose proof (text_split_nonempty [c] s). by destruct (split [c] s).
Qed.

Lemma text_split_char_notin c s : ~ In c s -> split [c] s = [s].
Proof. intros H. rewrite text_split_eq by done. by rewrite text_find_char_notin. Qed.

Lemma text_split_char_length c s :
  length (split [c] s) = S (length (List.filter (N.eqb c) s)).
Proof.
  induction s as [|x s IH]; [by rewrite text_split_char_nil|].
  rewrite text_split_char_cons. simpl. destruct (N.eqb c x); simpl; [by rewrite IH|].
  rewrite <- IH. by destruct (split [c] s).
Qed.

Lemma text_split_char_one c s bit : split [c] s = [bit] -> bit = s /\ ~ In c s.
Proof.
  intros H. assert (~ In c s) as Hn.
  { intros Hin. pose proof (text_split_char_length c s) as Hl. rewrite H in Hl.
    assert (In c (List.filter (N.eqb c) s)) as Hf
      by (apply filter_In; split; [done|apply N.eqb_refl]).
    cbn in Hl. by destruct (List.filter (N.eqb c) s). }
  split; [|done]. rewrite text_split_char_notin in H by done. by injection H.
Qed.

(** A string cut in two at a character: the parts hold no occurrence of
    it and make the string up again. *)
Lemma text_split_char_two c s path query :
  split [c] s = [path; query] ->
  s = path ++ c :: query /\ ~ In c path /\ ~ In c query.
Proof.
  revert path. induction s as [|x s IH]; intros path.
  - by rewrite text_split_char_nil.
  - rewrite text_split_char_cons. destruct (N.eqb_spec c x) as [->|Hne].
    + intros [= <- Hq]. apply text_split_char_one in Hq as [-> Hn].
      split_and!; [done|by intros []|done].
    + destruct (split [c] s) as [|bit bits] eqn:E; [done|].
      intros [= <- ->]. destruct (IH bit eq_refl) as (-> & Hp & Hq).
      split_and!; [done| |done]. intros [?|?]; [by subst|done].
Qed.

Lemma text_mem_In c chars : mem c chars = true <-> In c chars.
Proof.
  unfold mem. rewrite existsb_exists. split.
  - intros (x & Hx & Heq). apply N.eqb_eq in Heq. by subst.
  - intros H. exists c. split; [done|apply N.eqb_refl].
Qed.

Lemma text_mem_false c chars : mem c chars = false <-> ~ In c chars.
Proof.
  rewrite <- text_mem_In. by destruct (mem c chars).
Qed.

End PyTextFacts.

(** ** UTF-8: decoding what was encoded *)

Module EncodeFacts.

Import urllib Quoting.
Local Open Scope N_scope.

Lemma utf8_encode_char_eq c :
  utf8_encode_char c
  = if is_scalar c then Returns (utf8_bytes c) else Raises UnicodeEncodeError.
Proof.
  unfold utf8_encode_char, is_scalar. destruct (is_surrogate c); [done|].
  cbn [orb negb andb].
  destruct (N.leb_spec 0x110000 c), (N.ltb_spec c 0x110000); try done; lia.
Qed.

Lemma utf8_encode_eq s :
  utf8_encode s
  = if forallb is_scalar s then Returns (flat_map utf8_bytes s)
    else Raises UnicodeEncodeError.
Proof.
  induction s as [|c s IH]; [done|]. cbn [utf8_encode forallb flat_map].
  rewrite utf8_encode_char_eq, IH.
  destruct (is_scalar c); [|done]. cbn [obind andb]. by destruct (forallb is_scalar s).
Qed.

Lemma byte_value x : x < 256 -> N_of_ascii (byte x) = x.
Proof. apply N_ascii_embedding. Qed.

(** Decides the comparisons of the goal that linear arithmetic decides. *)
Ltac decide_comparisons :=
  repeat match goal with
    | |- context [?a <? ?b] =>
        first [ replace (a <? b) with true by (symmetry; apply N.ltb_lt; lia)
              | replace (a <? b) with false by (symmetry; apply N.ltb_ge; lia) ]
    | |- context [?a <=? ?b] =>
        first [ replace (a <=? b) with true by (symmetry; apply N.leb_le; lia)
              | replace (a <=? b) with false by (symmetry; apply N.leb_gt; lia) ]
    | |- context [?a =? ?b] =>
        first [ replace (a =? b) with true by (symmetry; apply N.eqb_eq; lia)
              | replace (a =? b) with false by (symmetry; apply N.eqb_neq; lia) ]
    end.

Lemma scalar_range c :
  is_scalar c = true -> (c < 0xD800 \/ 0xE000 <= c) /\ c < 0x110000.
Proof.
  unfold is_scalar, is_surrogate.
  destruct (N.leb_spec 0xD800 c), (N.ltb_spec c 0xE000), (N.ltb_spec c 0x110000);
    cbn; try done; lia.
Qed.

(** The decoder, one well-formed sequence at a time. *)
Section DecodeSteps.

Variables (c1 c2 c3 c4 : ascii) (rest : bytes).

Local Abbreviation ch := (N_of_ascii c1).
Local Abbreviation ch2 := (N_of_ascii c2).
Local Abbreviation ch3 := (N_of_ascii c3).
Local Abbreviation ch4 := (N_of_ascii c4).

Lemma decode_step1 :
  ch < 0x80 -> utf8_decode_replace (c1 :: rest) = ch :: utf8_decode_replace rest.
Proof.
  intros H. cbn [utf8_decode_replace]. decide_comparisons. done.
Qed.

Lemma decode_step2 :
  0xC2 <= ch < 0xE0 -> 0x80 <= ch2 < 0xC0 ->
  utf8_decode_replace (c1 :: c2 :: rest)
  = ((ch - 0xC0) * 64 + (ch2 - 0x80)) :: utf8_decode_replace rest.
Proof.
  intros H1 H2. remember (c2 :: rest) as r eqn:R.
  cbn [utf8_decode_replace]. decide_comparisons.
  subst r. cbv beta iota zeta. unfold is_continuation.
  decide_comparisons. done.
Qed.

Lemma decode_step3 :
  0xE0 <= ch < 0xF0 -> 0x80 <= ch2 < 0xC0 -> 0x80 <= ch3 < 0xC0 ->
  (ch = 0xE0 -> 0xA0 <= ch2) -> (ch = 0xED -> ch2 < 0xA0) ->
  utf8_decode_replace (c1 :: c2 :: c3 :: rest)
  = ((ch - 0xE0) * 4096 + (ch2 - 0x80) * 64 + (ch3 - 0x80))
    :: utf8_decode_replace rest.
Proof.
  intros H1 H2 H3 HE0 HED. remember (c2 :: c3 :: rest) as r eqn:R.
  cbn [utf8_decode_replace]. decide_comparisons.
  subst r. cbv beta iota zeta. unfold is_continuation.
  destruct (N.ltb_spec ch2 0xA0); decide_comparisons; done.
Qed.

Lemma decode_step4 :
  0xF0 <= ch < 0xF5 -> 0x80 <= ch2 < 0xC0 -> 0x80 <= ch3 < 0xC0 ->
  0x80 <= ch4 < 0xC0 ->
  (ch = 0xF0 -> 0x90 <= ch2) -> (ch = 0xF4 -> ch2 < 0x90) ->
  utf8_decode_replace (c1 :: c2 :: c3 :: c4 :: rest)
  = ((ch - 0xF0) * 262144 + (ch2 - 0x80) * 4096 + (ch3 - 0x80) * 64 + (ch4 - 0x80))
    :: utf8_decode_replace rest.
Proof.
  intros H1 H2 H3 H4 HF0 HF4. remember (c2 :: c3 :: c4 :: rest) as r eqn:R.
  cbn [utf8_decode_replace]. decide_comparisons.
  subst r. cbv beta iota zeta. unfold is_continuation.
  destruct (N.ltb_spec ch2 0x90); decide_comparisons; done.
Qed.

End DecodeSteps.

Lemma div_mod_64 n : n = 64 * (n / 64) + n mod 64 /\ n mod 64 < 64.
Proof. split; [apply N.div_mod; lia|apply N.mod_lt; lia]. Qed.

(** The bytes of a scalar value decode to it, whatever bytes follow. *)
Lemma decode_bytes c bs :
  is_scalar c = true ->
  utf8_decode_replace (utf8_bytes c ++ bs) = c :: utf8_decode_replace bs.
Proof.
  intros [Hs Hc]%scalar_range. unfold utf8_bytes.
  replace (c / 4096) with (c / 64 / 64) by (by rewrite N.Div0.div_div).
  replace (c / 262144) with (c / 64 / 64 / 64) by (by rewrite !N.Div0.div_div).
  destruct (div_mod_64 c) as [E1 B1].
  destruct (div_mod_64 (c / 64)) as [E2 B2].
  destruct (div_mod_64 (c / 64 / 64)) as [E3 B3].
  generalize dependent (c / 64 / 64 / 64). generalize dependent ((c / 64 / 64) mod 64).
  generalize dependent (c / 64 / 64). generalize dependent ((c / 64) mod 64).
  generalize dependent (c / 64). generalize dependent (c mod 64).
  intros r1 B1 q1 E1 r2 B2 q2 E2 r3 B3 q3 E3.
  destruct (N.ltb_spec c 0x80) as [H1|H1];
    [|destruct (N.ltb_spec c 0x800) as [H2|H2];
      [|destruct (N.ltb_spec c 0x10000) as [H3|H3]]];
    cbn [app].
  - rewrite decode_step1; rewrite byte_value by lia; done.
  - rewrite decode_step2; rewrite ?byte_value by lia; [f_equal; lia|lia..].
  - rewrite decode_step3; rewrite ?byte_value by lia; [f_equal; lia|lia..].
  - rewrite decode_step4; rewrite ?byte_value by lia; [f_equal; lia|lia..].
Qed.

Lemma decode_encode s bs :
  forallb is_scalar s = true ->
  utf8_decode_replace (flat_map utf8_bytes s ++ bs) = s ++ utf8_decode_replace bs.
Proof.
  induction s as [|c s IH]; [done|]. intros [Hc Hs]%andb_prop.
  cbn [flat_map app]. by rewrite <- app_assoc, decode_bytes, IH.
Qed.

End EncodeFacts.

(** ** [quote_plus], character by character *)

Module QuoteFacts.

Import urllib Quoting.
Local Open Scope N_scope.

Ltac each_byte b := destruct b as [[] [] [] [] [] [] [] []].

Lemma flat_map_flat_map {A B C} (f : A -> list B) (g : B -> list C) l :
  flat_map g (flat_map f l) = flat_map (fun x => flat_map g (f x)) l.
Proof.
  induction l as [|x l IH]; [done|]. cbn [flat_map].
  by rewrite flat_map_app, IH.
Qed.

Lemma flat_map_ext_Forall {A B} (f g : A -> list B) l :
  Forall (fun x => f x = g x) l -> flat_map f l = flat_map g l.
Proof. induction 1 as [|x l Hx _ IH]; [done|]. cbn [flat_map]. by rewrite Hx, IH. Qed.

Lemma map_flat_map {A B C} (f : A -> list B) (g : B -> C) l :
  map g (flat_map f l) = flat_map (fun x => map g (f x)) l.
Proof.
  induction l as [|x l IH]; [done|]. cbn [flat_map].
  by rewrite map_app, IH.
Qed.

Lemma lstrip_nil chars l :
  PyStr.lstrip chars l = [] -> Forall (fun c => PyStr.mem c chars = true) l.
Proof.
  induction l as [|c l IH]; [constructor|]. cbn [PyStr.lstrip].
  destruct (PyStr.mem c chars) eqn:E; [|done]. intros H. constructor; [done|by apply IH].
Qed.

Lemma rstrip_nil chars l :
  PyStr.rstrip chars l = [] -> Forall (fun c => PyStr.mem c chars = true) l.
Proof.
  unfold PyStr.rstrip. intros H. apply (f_equal (@rev _)) in H.
  rewrite rev_involutive in H. cbn in H. apply lstrip_nil in H.
  apply List.Forall_rev in H. by rewrite rev_involutive in H.
Qed.

(** The shortcut of [quote_from_bytes] for bytes that are all safe gives
    what the general case gives. *)
Lemma quote_from_bytes_eq bs safe :
  quote_from_bytes bs safe
  = flat_map (quoter (map byte (List.filter is_ascii safe))) bs.
Proof.
  destruct bs as [|b bs]; [done|]. unfold quote_from_bytes.
  destruct (PyStr.rstrip _ (b :: bs)) eqn:R; [|done].
  apply rstrip_nil in R. induction R as [|x l Hx _ IH]; [done|].
  cbn [flat_map of_str map]. unfold quoter at 1. rewrite Hx. cbn [app].
  f_equal. apply IH.
Qed.

Lemma quote_eq string safe :
  quote string safe
  = if forallb is_scalar string
    then Returns (flat_map (fun c => flat_map (quoter (map byte (List.filter is_ascii safe)))
                                       (utf8_bytes c)) string)
    else Raises UnicodeEncodeError.
Proof.
  destruct string as [|c s]; [done|]. unfold quote.
  rewrite EncodeFacts.utf8_encode_eq.
  destruct (forallb is_scalar (c :: s)); [|done]. cbn [obind].
  by rewrite quote_from_bytes_eq, flat_map_flat_map.
Qed.

(** With the blank among the safe characters and then turned into [+], a
    byte is quoted as it is with no safe characters, but for the blank. *)
Lemma quoter_blank b :
  map (fun x => if 32 =? x then 43 else x)
    (quoter (map byte (List.filter is_ascii (of_str "" ++ of_str " "))) b)
  = if Ascii.eqb b " " then [43] else quoter [] b.
Proof. each_byte b; reflexivity. Qed.

Lemma bytes_blank c :
  is_scalar c = true -> In " "%char (utf8_bytes c) -> c = 32.
Proof.
  intros [Hs Hc]%EncodeFacts.scalar_range. unfold utf8_bytes.
  replace (c / 4096) with (c / 64 / 64) by (by rewrite N.Div0.div_div).
  replace (c / 262144) with (c / 64 / 64 / 64) by (by rewrite !N.Div0.div_div).
  destruct (EncodeFacts.div_mod_64 c) as [E1 B1].
  destruct (EncodeFacts.div_mod_64 (c / 64)) as [E2 B2].
  destruct (EncodeFacts.div_mod_64 (c / 64 / 64)) as [E3 B3].
  generalize dependent (c / 64 / 64 / 64). generalize dependent ((c / 64 / 64) mod 64).
  generalize dependent (c / 64 / 64). generalize dependent ((c / 64) mod 64).
  generalize dependent (c / 64). generalize dependent (c mod 64).
  intros r1 B1 q1 E1 r2 B2 q2 E2 r3 B3 q3 E3.
  assert (forall x, x < 256 -> byte x = " "%char -> x = 32) as Hb.
  { intros x Hx E. apply (f_equal N_of_ascii) in E.
    by rewrite EncodeFacts.byte_value in E. }
  destruct (N.ltb_spec c 0x80); [|destruct (N.ltb_spec c 0x800);
    [|destruct (N.ltb_spec c 0x10000)]]; cbn [In];
    intros H'; repeat destruct H' as [H'|H']; try done;
    apply Hb in H'; lia.
Qed.

Lemma quoted_char_blank c :
  is_scalar c = true ->
  map (fun x => if 32 =? x then 43 else x)
    (flat_map (quoter (map byte (List.filter is_ascii (of_str "" ++ of_str " "))))
       (utf8_bytes c))
  = quoted_char c.
Proof.
  intros Hc. rewrite map_flat_map. unfold quoted_char.
  destruct (N.eqb_spec c 32) as [->|Hne]; [reflexivity|].
  apply flat_map_ext_Forall, List.Forall_forall. intros b Hb.
  rewrite quoter_blank. destruct (Ascii.eqb_spec b " ") as [->|]; [|done].
  by apply bytes_blank in Hb.
Qed.

(** [quote_plus] works character by character, and raises when a
    character is not a scalar value. *)
Lemma quote_plus_eq string :
  quote_plus string
  = if forallb is_scalar string then Returns (flat_map quoted_char string)
    else Raises UnicodeEncodeError.
Proof.
  unfold quote_plus. destruct (PyText.mem 32 string) eqn:M; cbn [negb].
  - rewrite quote_eq. destruct (forallb is_scalar string) eqn:S; [|done].
    cbn [obind]. f_equal.
    rewrite (PyTextFacts.text_replace_char_map 32 43), map_flat_map.
    apply flat_map_ext_Forall. rewrite forallb_forall in S.
    apply List.Forall_forall. intros c Hc. rewrite <- quoted_char_blank by auto.
    by rewrite map_flat_map.
  - rewrite quote_eq. destruct (forallb is_scalar string); [|done]. f_equal.
    apply flat_map_ext_Forall, List.Forall_forall. intros c Hc.
    unfold quoted_char. destruct (N.eqb_spec c 32) as [->|]; [|done].
    apply PyTextFacts.text_mem_false in M. done.
Qed.

(** A quoted string holds unreserved characters, [%] and [+] only. *)
Lemma quoter_chars b :
  forallb (fun x => PyText.mem x quoted_chars) (quoter [] b) = true.
Proof. each_byte b; reflexivity. Qed.

Lemma quoted_char_chars c :
  Forall (fun x => PyText.mem x quoted_chars = true) (quoted_char c).
Proof.
  unfold quoted_char. destruct (c =? 32); [by repeat constructor|].
  induction (utf8_bytes c) as [|b bs IH]; [constructor|].
  cbn [flat_map]. apply Forall_app. split; [|done].
  apply List.Forall_forall. intros x Hx.
  pose proof (quoter_chars b) as H. rewrite forallb_forall in H. by apply H.
Qed.

Lemma quoted_chars_Forall string :
  Forall (fun x => PyText.mem x quoted_chars = true) (flat_map quoted_char string).
Proof.
  induction string as [|c s IH]; [constructor|].
  cbn [flat_map]. apply Forall_app. split; [apply quoted_char_chars|done].
Qed.

End QuoteFacts.

(** ** [unquote_plus], run by run *)

Module UnquoteFacts.

Import urllib Quoting.
Import QuoteFacts.
Local Open Scope N_scope.

(** *** [unquote_to_bytes] on bytes *)

Lemma split_char_singleton c s bit : PyStr.split [c] s = [bit] -> bit = s.
Proof.
  rewrite PyStrFacts.split_eq by done.
  destruct (PyStr.find [c] s) as [i|]; [|by intros [= <-]].
  pose proof (PyStrFacts.split_nonempty [c] (drop (i + length [c]) s)).
  intros [= _ H']. done.
Qed.

Lemma unquote_bytes_split bs :
  unquote_bytes bs =
  match PyStr.split "%" bs with
  | bit :: bits => bit ++ flat_map unquote_item bits
  | [] => bs
  end.
Proof.
  unfold unquote_bytes.
  destruct (PyStr.split "%" bs) as [|bit [|bit' bits]] eqn:S; [done| |done].
  apply (split_char_singleton "%") in S as ->. by rewrite app_nil_r.
Qed.

Lemma unquote_bytes_cons c bs :
  Ascii.eqb "%" c = false -> unquote_bytes (c :: bs) = c :: unquote_bytes bs.
Proof.
  intros Hc. rewrite !unquote_bytes_split.
  change (PyStr.split "%" (c :: bs)) with (PyStr.split ["%"%char] (c :: bs)).
  rewrite CharSepFacts.split_char_cons, Hc.
  pose proof (PyStrFacts.split_nonempty "%" bs).
  change (PyStr.split ["%"%char] bs) with (PyStr.split "%" bs).
  by destruct (PyStr.split "%" bs).
Qed.

Lemma percent_02X_facts x :
  exists X Y,
    percent_02X x = "%"%char :: X :: [Y] /\
    Ascii.eqb "%" X = false /\ Ascii.eqb "%" Y = false /\
    _hextobyte [X; Y] = Some x.
Proof. each_byte x; eexists _, _; split_and!; reflexivity. Qed.

Lemma unquote_bytes_percent x bs :
  unquote_bytes (percent_02X x ++ bs) = x :: unquote_bytes bs.
Proof.
  destruct (percent_02X_facts x) as (X & Y & -> & HX & HY & Hx).
  cbn [app]. rewrite !unquote_bytes_split.
  change (PyStr.split "%" ?s) with (PyStr.split ["%"%char] s).
  rewrite !CharSepFacts.split_char_cons, HX, HY. cbn [Ascii.eqb Bool.eqb].
  pose proof (PyStrFacts.split_nonempty ["%"%char] bs).
  destruct (PyStr.split ["%"%char] bs) as [|bit bits]; [done|].
  cbn [app flat_map]. unfold unquote_item at 1. cbn [take]. rewrite take_0, Hx. done.
Qed.

Lemma unquote_bytes_nonempty bs : bs <> [] -> unquote_bytes bs <> [].
Proof.
  intros Hne. unfold unquote_bytes.
  destruct (PyStr.split "%" bs) as [|bit [|item bits]]; [done..|].
  cbn [flat_map]. destruct bit; [|done]. cbn [app].
  unfold unquote_item. by destruct (_hextobyte _).
Qed.

(** *** One quoted byte, one quoted character *)

(** A quoted byte holds no [+], is ASCII and not empty, and unquotes to
    the byte, whatever follows. *)
Lemma quoter_facts b :
  map plus_to_blank (quoter [] b) = quoter [] b /\
  quoter [] b <> [] /\ forallb is_ascii (quoter [] b) = true /\
  map byte (quoter [] b)
  = (if PyStr.mem b _ALWAYS_SAFE then [b] else percent_02X b) /\
  (PyStr.mem b _ALWAYS_SAFE = true -> Ascii.eqb "%" b = false).
Proof. each_byte b; by vm_compute. Qed.

Lemma unquote_bytes_quoter b bs :
  unquote_bytes (map byte (quoter [] b) ++ bs) = b :: unquote_bytes bs.
Proof.
  destruct (quoter_facts b) as (_ & _ & _ & -> & Hs).
  destruct (PyStr.mem b _ALWAYS_SAFE); [|apply unquote_bytes_percent].
  cbn [app]. by apply unquote_bytes_cons, Hs.
Qed.

Lemma unquote_bytes_quoters b's bs :
  unquote_bytes (map byte (flat_map (quoter []) b's) ++ bs) = b's ++ unquote_bytes bs.
Proof.
  induction b's as [|b b's IH]; [done|]. cbn [flat_map].
  by rewrite map_app, <- app_assoc, unquote_bytes_quoter, IH.
Qed.

Lemma quoters_facts b's :
  b's <> [] ->
  map plus_to_blank (flat_map (quoter []) b's) = flat_map (quoter []) b's /\
  flat_map (quoter []) b's <> [] /\
  forallb is_ascii (flat_map (quoter []) b's) = true.
Proof.
  intros Hne. split_and!.
  - clear Hne. induction b's as [|b b's IH]; [done|]. cbn [flat_map].
    rewrite map_app, IH. by destruct (quoter_facts b) as (-> & _).
  - destruct b's as [|b b's]; [done|]. cbn [flat_map].
    destruct (quoter_facts b) as (_ & H & _). by destruct (quoter [] b).
  - clear Hne. induction b's as [|b b's IH]; [done|]. cbn [flat_map].
    rewrite forallb_app, IH. by destruct (quoter_facts b) as (_ & _ & -> & _).
Qed.

Lemma utf8_bytes_nonempty c : utf8_bytes c <> [].
Proof. unfold utf8_bytes. by repeat case_match. Qed.

(** What [quote_plus] wrote for a character, with [+] turned into a
    blank, is ASCII, and its bytes unquote to the UTF-8 form of the
    character, whatever follows. *)
Lemma unquoted_char c :
  let e := map plus_to_blank (quoted_char c) in
  e <> [] /\ forallb is_ascii e = true /\
  forall bs, unquote_bytes (map byte e ++ bs) = utf8_bytes c ++ unquote_bytes bs.
Proof.
  unfold quoted_char. destruct (N.eqb_spec c 32) as [->|Hne].
  - cbv zeta. split_and!; [done..|]. intros bs.
    change (map byte (map plus_to_blank (of_str "+"))) with [" "%char].
    change (utf8_bytes 32) with [" "%char]. by apply unquote_bytes_cons.
  - cbv zeta. destruct (quoters_facts (utf8_bytes c) (utf8_bytes_nonempty c))
      as (-> & H1 & H2).
    split_and!; [done..|]. intros bs. apply unquote_bytes_quoters.
Qed.

End UnquoteFacts.

Module UnquoteRunFacts.

Import urllib Quoting.
Import EncodeFacts QuoteFacts UnquoteFacts.
Local Open Scope N_scope.

(** *** The runs of [_asciire_split] *)

Lemma asciire_split_nonempty s : _asciire_split s <> [].
Proof.
  induction s as [|c s IH]; [done|]. cbn [_asciire_split].
  destruct (_asciire_split s) as [|[|] [|]]; try done; by destruct (is_ascii c).
Qed.

Lemma asciire_split_odd s : Nat.odd (length (_asciire_split s)) = true.
Proof.
  induction s as [|c s IH]; [done|]. cbn [_asciire_split].
  destruct (_asciire_split s) as [|[|] [|]]; try done; by destruct (is_ascii c).
Qed.

Lemma asciire_split_nonascii c s :
  is_ascii c = false ->
  _asciire_split (c :: s) =
  match _asciire_split s with
  | bit :: bits => (c :: bit) :: bits
  | [] => []
  end.
Proof.
  intros Hc. cbn [_asciire_split]. rewrite Hc.
  by destruct (_asciire_split s) as [|[|] [|]].
Qed.

Lemma asciire_split_ascii a s :
  a <> [] -> forallb is_ascii a = true ->
  _asciire_split (a ++ s) =
  match _asciire_split s with
  | [] :: run :: bits => [] :: (a ++ run) :: bits
  | bit :: bits => [] :: a :: bit :: bits
  | [] => []
  end.
Proof.
  induction a as [|c a IH]; [done|]. intros _ [Hc Ha]%andb_prop.
  cbn [app _asciire_split]. destruct a as [|c' a].
  - cbn [app]. rewrite Hc. by destruct (_asciire_split s) as [|[|] [|]].
  - rewrite IH by done. rewrite Hc.
    by destruct (_asciire_split s) as [|[|] [|]].
Qed.

(** The runs that [unquote] hands to [unquote_to_bytes] are ASCII. *)
Lemma asciire_split_runs s : ascii_runs (tail (_asciire_split s)) = true.
Proof.
  induction s as [|c s IH]; [done|]. cbn [_asciire_split].
  destruct (_asciire_split s) as [|[|c' bit] [|run bits]]; [done|..];
    destruct (is_ascii c) eqn:A; cbn [tail ascii_runs forallb] in *;
    rewrite ?A; done.
Qed.

(** *** [unquote] never raises *)

Lemma ascii_scalar c : is_ascii c = true -> is_scalar c = true.
Proof.
  unfold is_ascii, is_scalar, is_surrogate. intros H%N.ltb_lt.
  decide_comparisons. done.
Qed.

Lemma utf8_bytes_ascii c : is_ascii c = true -> utf8_bytes c = [byte c].
Proof. unfold is_ascii, utf8_bytes. by intros ->. Qed.

Lemma utf8_encode_ascii run :
  forallb is_ascii run = true -> utf8_encode run = Returns (map byte run).
Proof.
  intros H. rewrite utf8_encode_eq.
  replace (forallb is_scalar run) with true.
  - f_equal. induction run as [|c run IH]; [done|].
    cbn [forallb] in H. apply andb_prop in H as [Hc H].
    cbn [flat_map map]. by rewrite utf8_bytes_ascii, IH.
  - symmetry. apply forallb_forall. intros c Hc. apply ascii_scalar.
    by eapply forallb_forall in H.
Qed.

Lemma unquote_to_bytes_ascii run :
  forallb is_ascii run = true ->
  unquote_to_bytes run = Returns (unquote_bytes (map byte run)).
Proof.
  intros H. destruct run as [|c run]; [done|].
  unfold unquote_to_bytes. by rewrite utf8_encode_ascii.
Qed.

Lemma unquote_bits_eq bits :
  ascii_runs bits = true -> unquote_bits bits = Returns (unquote_ascii_bits bits).
Proof.
  remember (length bits) as n eqn:Hn.
  revert bits Hn. induction n as [n IH] using lt_wf_ind. intros bits -> H.
  destruct bits as [|run [|bit bits]]; [done..|].
  cbn [ascii_runs] in H. apply andb_prop in H as [Hr Hb].
  cbn [unquote_bits unquote_ascii_bits].
  rewrite unquote_to_bytes_ascii by done. cbn [obind].
  rewrite (IH (length bits)) by (cbn [length]; done || lia). done.
Qed.

Lemma unquote_runs_nonascii c s :
  is_ascii c = false -> unquote_runs (c :: s) = c :: unquote_runs s.
Proof.
  intros Hc. unfold unquote_runs. rewrite asciire_split_nonascii by done.
  pose proof (asciire_split_nonempty s). by destruct (_asciire_split s).
Qed.

(** A run of ASCII characters [e] that unquotes to [v] whatever bytes
    follow it gives [v] wherever it stands in a string. *)
Lemma unquote_runs_chunk e v s :
  e <> [] -> forallb is_ascii e = true ->
  (forall bs, utf8_decode_replace (unquote_bytes (map byte e ++ bs))
              = v ++ utf8_decode_replace (unquote_bytes bs)) ->
  unquote_runs (e ++ s) = v ++ unquote_runs s.
Proof.
  intros Hne He H. unfold unquote_runs. rewrite asciire_split_ascii by done.
  pose proof (asciire_split_nonempty s) as Hs.
  pose proof (asciire_split_odd s) as Ho.
  assert (utf8_decode_replace (unquote_bytes (map byte e)) = v) as H0.
  { rewrite <- (app_nil_r (map byte e)), H. cbn. apply app_nil_r. }
  destruct (_asciire_split s) as [|[|c bit] [|run bits]]; [done|..].
  - cbn. by rewrite H0, !app_nil_r.
  - destruct bits as [|bit' bits]; [done|].
    cbn [unquote_ascii_bits app]. by rewrite map_app, H, <- app_assoc.
  - cbn [unquote_ascii_bits app]. by rewrite H0.
  - cbn [unquote_ascii_bits app]. by rewrite H0.
Qed.

Lemma byte_percent c : c < 128 -> c <> 37 -> Ascii.eqb "%" (byte c) = false.
Proof.
  intros Hc Hne. destruct (Ascii.eqb_spec "%" (byte c)) as [E|]; [|done].
  apply (f_equal N_of_ascii) in E. rewrite byte_value in E by lia.
  by subst c.
Qed.

(** A string with no [%] is left as it is. *)
Lemma unquote_runs_plain s : PyText.mem 37 s = false -> unquote_runs s = s.
Proof.
  induction s as [|c s IH]; [done|]. unfold PyText.mem. cbn [existsb].
  intros [Hc Hs]%orb_false_elim. apply N.eqb_neq in Hc.
  destruct (is_ascii c) eqn:A.
  - rewrite <- IH at 2 by done. apply (unquote_runs_chunk [c] [c] s).
    + done.
    + cbn. by rewrite A.
    + intros bs. cbn [app map]. unfold is_ascii in A. apply N.ltb_lt in A.
      rewrite unquote_bytes_cons by (apply byte_percent; [done|congruence]).
      rewrite decode_step1; rewrite byte_value by lia; done.
  - rewrite unquote_runs_nonascii by done. by rewrite IH.
Qed.

(** [unquote] returns, whatever the string. *)
Lemma unquote_eq s : unquote s = Returns (unquote_runs s).
Proof.
  unfold unquote. destruct (PyText.mem 37 s) eqn:M; cbn [negb].
  - unfold unquote_runs. pose proof (asciire_split_runs s) as H.
    destruct (_asciire_split s) as [|bit bits]; [done|].
    cbn [tail] in H. by rewrite unquote_bits_eq.
  - by rewrite unquote_runs_plain.
Qed.

Lemma unquote_plus_eq s :
  unquote_plus s = Returns (unquote_runs (map plus_to_blank s)).
Proof.
  unfold unquote_plus.
  change (of_str "+") with [43]. change (of_str " ") with [32].
  rewrite (PyTextFacts.text_replace_char_map 43 32). apply unquote_eq.
Qed.

(** *** Unquoting what was quoted *)

Lemma unquote_runs_quoted s r :
  forallb is_scalar s = true -> PyText.mem 37 r = false ->
  unquote_runs (flat_map (fun c => map plus_to_blank (quoted_char c)) s ++ r)
  = s ++ r.
Proof.
  intros Hs Hr. induction s as [|c s IH]; [by apply unquote_runs_plain|].
  cbn [forallb] in Hs. apply andb_prop in Hs as [Hc Hs].
  cbn [flat_map app]. rewrite <- IH by done. rewrite <- app_assoc.
  destruct (unquoted_char c) as (Hne & Ha & Hb).
  apply (unquote_runs_chunk _ [c]); [done..|].
  intros bs. by rewrite Hb, decode_bytes.
Qed.

Lemma map_plus_to_blank_id r : PyText.mem 43 r = false -> map plus_to_blank r = r.
Proof.
  induction r as [|c r IH]; [done|]. unfold PyText.mem. cbn [existsb map].
  intros [Hc Hr]%orb_false_elim. unfold plus_to_blank at 1. by rewrite Hc, IH.
Qed.

(** Unquoting what [quote_plus] wrote gives the string back, also when
    text with no [%] and no [+] follows. *)
Lemma unquote_plus_quoted s r :
  forallb is_scalar s = true ->
  PyText.mem 37 r = false -> PyText.mem 43 r = false ->
  unquote_plus (flat_map quoted_char s ++ r) = Returns (s ++ r).
Proof.
  intros Hs Hp Hb. rewrite unquote_plus_eq. f_equal.
  rewrite map_app, map_flat_map, map_plus_to_blank_id by done.
  by apply unquote_runs_quoted.
Qed.

End UnquoteRunFacts.

(** ** [add_signed_prefix_as_needed] and [remove_signed_prefix_as_needed] *)

Module SignedUrlFacts.

Import urllib Quoting.
Import EncodeFacts QuoteFacts UnquoteFacts UnquoteRunFacts.
Local Open Scope N_scope.

Lemma or_empty_id url : or_empty url = url.
Proof. by destruct url. Qed.

Lemma occurrences_app c s t :
  occurrences c (s ++ t) = (occurrences c s + occurrences c t)%nat.
Proof. unfold occurrences. by rewrite List.filter_app, length_app. Qed.

Lemma occurrences_cons c s : occurrences c (c :: s) = S (occurrences c s).
Proof. unfold occurrences. cbn [List.filter]. by rewrite N.eqb_refl. Qed.

Lemma occurrences_0 c s : occurrences c s = 0%nat <-> ~ In c s.
Proof.
  unfold occurrences. induction s as [|x s IH]; [by split; [intros _ []|]|].
  cbn [List.filter]. destruct (N.eqb_spec c x) as [->|Hne]; cbn [length].
  - split; [done|]. intros H. destruct H. by left.
  - rewrite IH. split; [by intros H [?|?]|]. intros H ?. apply H. by right.
Qed.

Lemma split_question_length url :
  length (PyText.split (of_str "?") url) = S (occurrences 63 url).
Proof. apply (PyTextFacts.text_split_char_length 63). Qed.

Lemma split_path_query path query :
  ~ In 63 path -> ~ In 63 query ->
  PyText.split (of_str "?") (path ++ of_str "?" ++ query) = [path; query].
Proof.
  intros Hp Hq.
  change (PyText.split [63] (path ++ 63 :: query) = [path; query]).
  by rewrite PyTextFacts.text_split_char_app, !PyTextFacts.text_split_char_notin.
Qed.

(** A URL with one [?] is a path and a query with none. *)
Lemma one_question url path query :
  url = path ++ of_str "?" ++ query -> occurrences 63 url = 1%nat ->
  ~ In 63 path /\ ~ In 63 query.
Proof.
  intros -> H. change (of_str "?" ++ query) with (63 :: query) in H.
  rewrite occurrences_app, occurrences_cons in H.
  rewrite <- !occurrences_0. lia.
Qed.

Lemma quoted_no_question path : ~ In 63 (flat_map quoted_char path).
Proof.
  intros Hin. pose proof (quoted_chars_Forall path) as H.
  apply List.Forall_forall with (x := 63) in H; [|done]. by vm_compute in H.
Qed.

(** [add_signed_prefix_as_needed] on an S3 URL with one [?]. *)
Lemma add_signed_prefix_one_question
    S3_URL_PREFIX SIGNED_URL_PREFIX request_exn path query
    (client : option (client request_exn)) :
  PyText.startswith S3_URL_PREFIX (path ++ of_str "?" ++ query) = true ->
  ~ In 63 path -> ~ In 63 query ->
  add_signed_prefix_as_needed S3_URL_PREFIX SIGNED_URL_PREFIX
    (path ++ of_str "?" ++ query) client
  = if forallb is_scalar path then
      match client with
      | Some head_location =>
          match head_location
                  (SIGNED_URL_PREFIX ++ flat_map quoted_char path ++ of_str "?" ++ query)
          with
          | Raises e => Raises (RequestError e)
          | Returns location => Returns location
          end
      | None =>
          Returns (Some (SIGNED_URL_PREFIX ++ flat_map quoted_char path
                         ++ of_str "?" ++ query))
      end
    else Raises (QuoteError UnicodeEncodeError).
Proof.
  intros Hpre Hp Hq. unfold add_signed_prefix_as_needed. rewrite Hpre.
  rewrite split_path_query, quote_plus_eq by done.
  destruct (path ++ of_str "?" ++ query) eqn:E; [by destruct path|].
  by destruct (forallb is_scalar path).
Qed.

(** *** Unquoting gives no empty string from a string that is not empty *)

Lemma decode_nonempty bs : bs <> [] -> utf8_decode_replace bs <> [].
Proof.
  destruct bs as [|c bs]; [done|]. intros _. cbn [utf8_decode_replace].
  repeat case_match; done.
Qed.

Lemma unquote_runs_nonempty s : s <> [] -> unquote_runs s <> [].
Proof.
  destruct s as [|c s]; [done|]. intros _.
  destruct (is_ascii c) eqn:A; [|by rewrite unquote_runs_nonascii].
  unfold unquote_runs.
  pose proof (asciire_split_ascii [c] s ltac:(done)) as H.
  cbn [app forallb] in H. rewrite A in H. rewrite H by done.
  pose proof (asciire_split_odd s) as Ho.
  assert (forall run, utf8_decode_replace (unquote_bytes (map byte (c :: run))) <> [])
    as Hd.
  { intros run. by apply decode_nonempty, unquote_bytes_nonempty. }
  destruct (_asciire_split s) as [|[|c' bit] [|run bits]].
  - done.
  - cbn [app unquote_ascii_bits]. specialize (Hd []).
    by destruct (utf8_decode_replace _).
  - destruct bits as [|bit' bits]; [done|].
    cbn [app unquote_ascii_bits]. specialize (Hd run).
    by destruct (utf8_decode_replace _).
  - cbn [app unquote_ascii_bits]. specialize (Hd []).
    by destruct (utf8_decode_replace _).
  - cbn [app unquote_ascii_bits]. specialize (Hd []).
    by destruct (utf8_decode_replace _).
Qed.

Lemma unquote_plus_nonempty s : s <> [] -> unquote_plus s <> Returns [].
Proof.
  intros Hne. rewrite unquote_plus_eq. intros [= E]. revert E.
  apply unquote_runs_nonempty. by destruct s.
Qed.

Lemma unquote_plus_plain r :
  PyText.mem 37 r = false -> PyText.mem 43 r = false -> unquote_plus r = Returns r.
Proof. intros Hp Hb. by apply (unquote_plus_quoted [] r). Qed.

Lemma mem_repeat_false c x n : N.eqb c x = false -> PyText.mem c (repeat x n) = false.
Proof. intros H. induction n as [|n IH]; [done|]. unfold PyText.mem. cbn. by rewrite H. Qed.

(** What [remove_signed_prefix_as_needed] does with a signed URL. *)
Lemma remove_signed_prefix_cut S3_URL_PREFIX SIGNED_URL_PREFIX rest :
  remove_signed_prefix_as_needed S3_URL_PREFIX SIGNED_URL_PREFIX
    (SIGNED_URL_PREFIX ++ rest)
  = unquote_plus (drop (length S3_URL_PREFIX) (SIGNED_URL_PREFIX ++ rest)).
Proof.
  unfold remove_signed_prefix_as_needed.
  rewrite PyTextFacts.text_startswith_app, !unquote_plus_eq. cbn [obind].
  by rewrite or_empty_id.
Qed.

End SignedUrlFacts.

(** X13: the quoting that [add_signed_prefix_as_needed] applies is undone
    by the unquoting that [remove_signed_prefix_as_needed] applies, for the
    strings that can be quoted.  [unquote_plus] returns for every string.
    [quote_plus] raises [UnicodeEncodeError] for a string that holds a code
    point which is no Unicode scalar value (a lone surrogate), and returns
    for every other string; then the quoted string holds only unreserved
    characters, [%] and [+], [unquote_plus] gives the string back from it,
    the UTF-8 decoding of the UTF-8 form of the string is the string, and
    no other string has the same quoted form. *)
Theorem unquote_plus_undoes_quote_plus string other :
  (exists unquoted, urllib.unquote_plus string = Returns unquoted) /\
  if forallb Quoting.is_scalar string then
    exists quoted encoded,
      urllib.quote_plus string = Returns quoted /\
      urllib.unquote_plus quoted = Returns string /\
      Forall (fun c => PyText.mem c Quoting.quoted_chars = true) quoted /\
      urllib.utf8_encode string = Returns encoded /\
      urllib.utf8_decode_replace encoded = string /\
      (urllib.quote_plus other = Returns quoted <-> other = string)
  else
    urllib.quote_plus string = Raises urllib.UnicodeEncodeError /\
    urllib.utf8_encode string = Raises urllib.UnicodeEncodeError.
Proof.
  split; [eexists; apply UnquoteRunFacts.unquote_plus_eq|].
  assert (forall s, forallb Quoting.is_scalar s = true ->
            urllib.unquote_plus (flat_map Quoting.quoted_char s) = Returns s) as H.
  { intros s Hs. pose proof (UnquoteRunFacts.unquote_plus_quoted s [] Hs) as E.
    rewrite !app_nil_r in E. by apply E. }
  rewrite QuoteFacts.quote_plus_eq, EncodeFacts.utf8_encode_eq.
  destruct (forallb Quoting.is_scalar string) eqn:S; [|done].
  eexists _, _. split_and!; [done| by apply H |apply QuoteFacts.quoted_chars_Forall|done| |].
  - rewrite <- (app_nil_r (flat_map _ _)).
    rewrite EncodeFacts.decode_encode by done. apply app_nil_r.
  - split; [|by intros ->; rewrite QuoteFacts.quote_plus_eq, S].
    rewrite QuoteFacts.quote_plus_eq.
    destruct (forallb Quoting.is_scalar other) eqn:O; [|done].
    intros [= E]. apply (f_equal urllib.unquote_plus) in E.
    rewrite !H in E by done. by injection E.
Qed.

(** X14: called with a string, [add_signed_prefix_as_needed] raises in
    three situations, and in no other.  In each of them the URL is not
    empty and starts with the S3 prefix.  Either it does not hold exactly
    one [?], and the unpacking of the two parts raises [ValueError]; or it
    is a path, one [?] and a query string, and the path holds a code point
    which is no Unicode scalar value, so that [quote_plus] raises
    [UnicodeEncodeError]; or the path is quoted, a client is given, and
    the request of the client for the signed URL raises. *)
Theorem add_signed_prefix_raises_in_three_situations
    S3_URL_PREFIX SIGNED_URL_PREFIX request_exn url
    (client : option (client request_exn)) e :
  add_signed_prefix_as_needed S3_URL_PREFIX SIGNED_URL_PREFIX url client = Raises e
  <->
  url <> [] /\ PyText.startswith S3_URL_PREFIX url = true /\
  ((Quoting.occurrences 63 url <> 1 /\ e = UnpackValueError) \/
   exists path query,
     url = path ++ of_str "?" ++ query /\ Quoting.occurrences 63 url = 1 /\
     ((forallb Quoting.is_scalar path = false /\
       e = QuoteError urllib.UnicodeEncodeError) \/
      exists quoted head_location x,
        urllib.quote_plus path = Returns quoted /\
        client = Some head_location /\
        head_location (SIGNED_URL_PREFIX ++ quoted ++ of_str "?" ++ query) = Raises x /\
        e = RequestError x)).
Proof.
  destruct url as [|c url]; [by split; [|intros (? & _)]|].
  destruct (PyText.startswith S3_URL_PREFIX (c :: url)) eqn:Hpre.
  2: { unfold add_signed_prefix_as_needed. rewrite Hpre.
       by split; [|intros (_ & ? & _)]. }
  destruct (Nat.eq_dec (Quoting.occurrences 63 (c :: url)) 1) as [Hone|Hne].
  - pose proof (SignedUrlFacts.split_question_length (c :: url)) as Hl.
    rewrite Hone in Hl.
    destruct (PyText.split (of_str "?") (c :: url)) as [|path [|query [|]]] eqn:Hs;
      try discriminate Hl.
    apply (PyTextFacts.text_split_char_two 63) in Hs as (E & Hp & Hq).
    change (c :: url = path ++ of_str "?" ++ query) in E. rewrite E in *.
    rewrite SignedUrlFacts.add_signed_prefix_one_question by done.
    rewrite <- E at 1. split.
    + intros H. split_and!; [done..|]. right. exists path, query.
      split_and!; [done..|].
      destruct (forallb Quoting.is_scalar path) eqn:S; [|left; split; congruence].
      right. destruct client as [head_location|]; [|done].
      destruct (head_location _) as [|x] eqn:R; [done|].
      exists (flat_map Quoting.quoted_char path), head_location, x.
      rewrite QuoteFacts.quote_plus_eq, S. split_and!; first [done|congruence].
    + intros (_ & _ & [[? _]|(path' & query' & E' & _ & H)]); [done|].
      destruct (SignedUrlFacts.one_question _ _ _ E' Hone) as [Hp' Hq'].
      assert ([path'; query'] = [path; query]) as [= -> ->].
      { rewrite <- (SignedUrlFacts.split_path_query path' query') by done.
        rewrite <- E'. by apply SignedUrlFacts.split_path_query. }
      rewrite QuoteFacts.quote_plus_eq in H.
      destruct H as [[-> ->]|(quoted & head_location & x & Hq'' & -> & R & ->)];
        [done|].
      destruct (forallb Quoting.is_scalar path); [|done].
      injection Hq'' as <-. by rewrite R.
  - assert (add_signed_prefix_as_needed S3_URL_PREFIX SIGNED_URL_PREFIX (c :: url) client
            = Raises UnpackValueError) as ->.
    { unfold add_signed_prefix_as_needed. rewrite Hpre.
      pose proof (SignedUrlFacts.split_question_length (c :: url)) as Hl.
      destruct (PyText.split (of_str "?") (c :: url)) as [|path [|query [|]]]; try done.
      cbn [length] in Hl. lia. }
    split.
    + intros [= <-]. split_and!; [done..|]. by left.
    + intros (_ & _ & [[_ ->]|(? & ? & _ & ? & _)]); done.
Qed.

(** X15: called with an S3 URL made of a path that [quote_plus] accepts,
    one [?] and a query string, [add_signed_prefix_as_needed] builds the
    signed URL: the signed prefix, the quoted path, the [?] and the query
    string as it was.  The quoted path holds only unreserved characters,
    [%] and [+].  Without a client the signed URL is returned; with a
    client it is what the client is asked for, and the result is what the
    request gives: a [Location] header, [None], or an exception.  The
    signed URL splits at its [?] into the signed prefix with the quoted
    path and the query string exactly when the signed prefix holds no
    [?]. *)
Theorem add_signed_prefix_quotes_the_path
    S3_URL_PREFIX SIGNED_URL_PREFIX request_exn path query
    (client : option (client request_exn)) :
  PyText.startswith S3_URL_PREFIX (path ++ of_str "?" ++ query) = true ->
  ~ In 63%N path -> ~ In 63%N query ->
  forallb Quoting.is_scalar path = true ->
  exists quoted,
    urllib.quote_plus path = Returns quoted /\
    Forall (fun c => PyText.mem c Quoting.quoted_chars = true) quoted /\
    add_signed_prefix_as_needed S3_URL_PREFIX SIGNED_URL_PREFIX
      (path ++ of_str "?" ++ query) client
    = match client with
      | Some head_location =>
          match head_location (SIGNED_URL_PREFIX ++ quoted ++ of_str "?" ++ query) with
          | Raises x => Raises (RequestError x)
          | Returns location => Returns location
          end
      | None => Returns (Some (SIGNED_URL_PREFIX ++ quoted ++ of_str "?" ++ query))
      end /\
    (PyText.split (of_str "?") (SIGNED_URL_PREFIX ++ quoted ++ of_str "?" ++ query)
     = [SIGNED_URL_PREFIX ++ quoted; query]
     <-> ~ In 63%N SIGNED_URL_PREFIX).
Proof.
  intros Hpre Hp Hq Hs. exists (flat_map Quoting.quoted_char path).
  pose proof (SignedUrlFacts.quoted_no_question path) as Hn.
  split_and!.
  - by rewrite QuoteFacts.quote_plus_eq, Hs.
  - apply QuoteFacts.quoted_chars_Forall.
  - rewrite SignedUrlFacts.add_signed_prefix_one_question by done. by rewrite Hs.
  - rewrite app_assoc. split.
    + intros E. apply (f_equal length) in E.
      rewrite SignedUrlFacts.split_question_length in E. cbn [length] in E.
      change (of_str "?" ++ query) with (63%N :: query) in E.
      rewrite !SignedUrlFacts.occurrences_app, SignedUrlFacts.occurrences_cons in E.
      apply SignedUrlFacts.occurrences_0. lia.
    + intros Hsig. apply SignedUrlFacts.split_path_query; [|done].
      intros [?|?]%in_app_or; done.
Qed.

Lemma add_signed_prefix_quotes_the_path_witness :
  exists quoted,
    urllib.quote_plus (of_str "https://s3.example/a b/c.png") = Returns quoted /\
    Forall (fun c => PyText.mem c Quoting.quoted_chars = true) quoted /\
    add_signed_prefix_as_needed (of_str "https://s3.example/")
      (of_str "https://signed.example/")
      (of_str "https://s3.example/a b/c.png" ++ of_str "?" ++ of_str "key=1")
      (@None (client Empty_set))
    = Returns (Some (of_str "https://signed.example/" ++ quoted ++ of_str "?"
                     ++ of_str "key=1")) /\
    (PyText.split (of_str "?")
       (of_str "https://signed.example/" ++ quoted ++ of_str "?" ++ of_str "key=1")
     = [of_str "https://signed.example/" ++ quoted; of_str "key=1"]
     <-> ~ In 63%N (of_str "https://signed.example/")).
Proof.
  apply (add_signed_prefix_quotes_the_path (of_str "https://s3.example/")
           (of_str "https://signed.example/") Empty_set
           (of_str "https://s3.example/a b/c.png") (of_str "key=1") None).
  - reflexivity.
  - intros H%PyTextFacts.text_mem_In. vm_compute in H. discriminate H.
  - intros H%PyTextFacts.text_mem_In. vm_compute in H. discriminate H.
  - reflexivity.
Defined.

(** X16: [remove_signed_prefix_as_needed] undoes
    [add_signed_prefix_as_needed] (used without a client) when the two
    prefixes have the same length, the path is one that [quote_plus]
    accepts (it holds Unicode scalar values only, no lone surrogate) and
    the query string holds no [%] and no [+]: the S3 URL comes back. *)
Theorem remove_signed_prefix_undoes_add_signed_prefix
    S3_URL_PREFIX SIGNED_URL_PREFIX request_exn path query :
  length S3_URL_PREFIX = length SIGNED_URL_PREFIX ->
  PyText.startswith S3_URL_PREFIX (path ++ of_str "?" ++ query) = true ->
  ~ In 63%N path -> ~ In 63%N query ->
  forallb Quoting.is_scalar path = true ->
  PyText.mem 37 query = false -> PyText.mem 43 query = false ->
  exists signed,
    add_signed_prefix_as_needed S3_URL_PREFIX SIGNED_URL_PREFIX
      (path ++ of_str "?" ++ query) (@None (client request_exn))
    = Returns (Some signed) /\
    remove_signed_prefix_as_needed S3_URL_PREFIX SIGNED_URL_PREFIX signed
    = Returns (path ++ of_str "?" ++ query).
Proof.
  intros Hlen Hpre Hp Hq Hs Hpc Hpl.
  exists (SIGNED_URL_PREFIX ++ flat_map Quoting.quoted_char path ++ of_str "?" ++ query).
  split.
  - rewrite SignedUrlFacts.add_signed_prefix_one_question by done. by rewrite Hs.
  - rewrite SignedUrlFacts.remove_signed_prefix_cut, Hlen, drop_app_length.
    by apply UnquoteRunFacts.unquote_plus_quoted.
Qed.

Lemma remove_signed_prefix_undoes_add_signed_prefix_witness :
  exists signed,
    add_signed_prefix_as_needed (of_str "https://s3.example/")
      (of_str "https://sg.example/")
      ((of_str "https://s3.example/a b/" ++ [233; 8364; 128512]%N ++ of_str "+d.png")
       ++ of_str "?" ++ of_str "key=1")
      (@None (client Empty_set))
    = Returns (Some signed) /\
    remove_signed_prefix_as_needed (of_str "https://s3.example/")
      (of_str "https://sg.example/") signed
    = Returns ((of_str "https://s3.example/a b/" ++ [233; 8364; 128512]%N
                ++ of_str "+d.png")
               ++ of_str "?" ++ of_str "key=1").
Proof.
  apply (remove_signed_prefix_undoes_add_signed_prefix
           (of_str "https://s3.example/") (of_str "https://sg.example/") Empty_set
           (of_str "https://s3.example/a b/" ++ [233; 8364; 128512]%N ++ of_str "+d.png")
           (of_str "key=1")); try reflexivity.
  - intros H%PyTextFacts.text_mem_In. vm_compute in H. discriminate H.
  - intros H%PyTextFacts.text_mem_In. vm_compute in H. discriminate H.
Defined.

(** X17: [remove_signed_prefix_as_needed] cuts as many characters as the S3
    prefix has, not as many as the signed prefix has: what it returns for
    every URL with the signed prefix is the rest of that URL unquoted if,
    and only if, the two prefixes have the same length. *)
Theorem remove_signed_prefix_cuts_the_length_of_the_s3_prefix
    S3_URL_PREFIX SIGNED_URL_PREFIX :
  (forall rest,
     remove_signed_prefix_as_needed S3_URL_PREFIX SIGNED_URL_PREFIX
       (SIGNED_URL_PREFIX ++ rest)
     = urllib.unquote_plus rest)
  <-> length S3_URL_PREFIX = length SIGNED_URL_PREFIX.
Proof.
  split.
  - intros H.
    destruct (lt_eq_lt_dec (length S3_URL_PREFIX) (length SIGNED_URL_PREFIX))
      as [[Hlt|Heq]|Hgt]; [|done|].
    + specialize (H []). rewrite SignedUrlFacts.remove_signed_prefix_cut, app_nil_r in H.
      change (urllib.unquote_plus []) with (@Returns urllib.exn text []) in H.
      apply SignedUrlFacts.unquote_plus_nonempty in H; [done|].
      intros E. apply (f_equal length) in E. rewrite length_drop in E. simpl in E. lia.
    + set (d := length S3_URL_PREFIX - length SIGNED_URL_PREFIX).
      specialize (H (repeat 97%N d)). rewrite SignedUrlFacts.remove_signed_prefix_cut in H.
      rewrite drop_ge in H by (rewrite length_app, repeat_length; lia).
      rewrite (SignedUrlFacts.unquote_plus_plain (repeat 97%N d)) in H
        by by apply SignedUrlFacts.mem_repeat_false.
      change (urllib.unquote_plus []) with (@Returns urllib.exn text []) in H.
      assert (d <> 0) as Hd by (unfold d; lia).
      injection H as H. by destruct d.
  - intros Hlen rest.
    by rewrite SignedUrlFacts.remove_signed_prefix_cut, Hlen, drop_app_length.
Qed.
